(** * Escape pods: multi-source / multi-sink maximum flow

    A shallow embedding of [Level 4/escape-pods.py] and the properties of its
    four parts: the graph reducer [compressed_paths], the breadth-first path
    finder [find_bunny_path], the flow augmenter (the two [for] loops in the
    body of the main loop) and the max-flow engine
    [maximum_bunnies_rescuable].

    The program is Python 2 (the challenge's runtime): [map] returns a list
    and pads the shorter argument with [None].  Python integers are unbounded,
    so they are [Z] here.  Room numbers produced by [range] and by the literal
    [0] are [nat]; the indices the caller passes in [entrances] and [exits]
    are arbitrary Python integers, hence [Z], and subscripting with them
    follows Python (a negative index counts from the end). *)

From Stdlib Require Import ZArith Lia.
From stdpp Require Import base list sorting.

(** ** Results of a run *)

(** The exceptions the program can raise.  [FloatValue] is not a Python
    exception: it marks the place where the float [float('Inf')] would be
    added to an entry of the traffic matrix, which holds integers in this
    model (see [flow_add]). *)
Inductive exn := IndexError | TypeError | FloatValue.

(** A run returns a value, raises, or is cut off because a [while] loop used
    up the iterations it was given. *)
Inductive result (A : Type) :=
  | Ret (a : A)
  | Raise (e : exn)
  | OutOfFuel.
Arguments Ret {A} a.
Arguments Raise {A} e.
Arguments OutOfFuel {A}.

#[global] Instance result_ret : MRet result := @Ret.
#[global] Instance result_bind : MBind result := fun A B f m =>
  match m with
  | Ret a => f a
  | Raise e => Raise e
  | OutOfFuel => OutOfFuel
  end.

Abbreviation matrix := (list (list Z)).

(** [l[i]] for an index that is known to be non-negative. *)
Definition getitem {A} (l : list A) (i : nat) : result A :=
  match l !! i with
  | Some a => Ret a
  | None => Raise IndexError
  end.

(** [l[i]] for an arbitrary Python integer. *)
Definition getitem_int {A} (l : list A) (i : Z) : result A :=
  if (0 <=? i)%Z then getitem l (Z.to_nat i)
  else if (- Z.of_nat (length l) <=? i)%Z
       then getitem l (Z.to_nat (Z.of_nat (length l) + i))
       else Raise IndexError.

(** [m[u][v]] *)
Definition getitem2 (m : matrix) (u v : nat) : result Z :=
  row ← getitem m u; getitem row v.

(** [for x in xs: acc = body(acc, x)] with a body that can raise. *)
Fixpoint for_each {A S} (xs : list A) (body : S → A → result S) (acc : S)
  : result S :=
  match xs with
  | [] => Ret acc
  | x :: rest => acc' ← body acc x; for_each rest body acc'
  end.

(** [[f(x) for x in xs]] with an [f] that can raise. *)
Fixpoint comprehension {A B} (f : A → result B) (xs : list A)
  : result (list B) :=
  match xs with
  | [] => Ret []
  | x :: rest => y ← f x; ys ← comprehension f rest; Ret (y :: ys)
  end.

Definition enumerate {A} (l : list A) : list (nat * A) :=
  zip (seq 0 (length l)) l.

(** ** find_bunny_path *)

Abbreviation path := (list nat).

(** Body of [for new_room in range(len(corridors))]: the queue is the state. *)
Definition try_room (corridors bunny_traffic : matrix)
    (current_path : path) (current_room : nat)
    (pathes_to_search : list path) (new_room : nat) : result (list path) :=
  if bool_decide (new_room ∈ current_path) then Ret pathes_to_search
  else
    c ← getitem2 corridors current_room new_room;
    t ← getitem2 bunny_traffic current_room new_room;
    let bunny_capacity := (c - t)%Z in
    if (bunny_capacity <=? 0)%Z then Ret pathes_to_search
    else Ret (pathes_to_search ++ [current_path ++ [new_room]]).

(** The [while len(pathes_to_search) > 0] loop; [fuel] bounds its
    iterations.  Falling out of the loop returns [None]. *)
Fixpoint search_loop (fuel : nat) (corridors bunny_traffic : matrix)
    (pathes_to_search : list path) : result (option path) :=
  match fuel with
  | O => OutOfFuel
  | S fuel' =>
    match pathes_to_search with
    | [] => Ret None
    | current_path :: rest =>
      match last current_path with
      | None => Raise IndexError
      | Some current_room =>
        let escape_pods_room := (Z.of_nat (length corridors) - 1)%Z in
        if bool_decide (Z.of_nat current_room = escape_pods_room)
        then Ret (Some current_path)
        else
          queue ← for_each (seq 0 (length corridors))
                    (try_room corridors bunny_traffic current_path current_room)
                    rest;
          search_loop fuel' corridors bunny_traffic queue
      end
    end
  end.

Definition find_bunny_path (fuel : nat) (corridors bunny_traffic : matrix)
  : result (option path) :=
  let bunny_start_room := 0 in
  search_loop fuel corridors bunny_traffic [[bunny_start_room]].

(** ** The flow augmenter (body of the main loop) *)

(** The running minimum starts as [float('Inf')]; [min] of it and an integer
    is that integer. *)
Inductive bneck := Inf | Fin (z : Z).

Definition bneck_min (bottleneck : bneck) (capacity : Z) : bneck :=
  match bottleneck with
  | Inf => Fin capacity
  | Fin z => Fin (Z.min z capacity)
  end.

(** [x + bottleneck]; with [bottleneck = float('Inf')] the sum is a float. *)
Definition flow_add (x : Z) (bottleneck : bneck) : result Z :=
  match bottleneck with
  | Fin z => Ret (x + z)%Z
  | Inf => Raise FloatValue
  end.

Definition flow_sub (x : Z) (bottleneck : bneck) : result Z :=
  match bottleneck with
  | Fin z => Ret (x - z)%Z
  | Inf => Raise FloatValue
  end.

(** [l[i] = x] *)
Definition setitem {A} (l : list A) (i : nat) (x : A) : result (list A) :=
  if bool_decide (i < length l) then Ret (<[i:=x]> l) else Raise IndexError.

(** [m[u][v] = op(m[u][v], bottleneck)], the rows of [m] being distinct
    lists (the matrix is built by a nested comprehension). *)
Definition update2 (op : Z → bneck → result Z) (m : matrix) (u v : nat)
    (bottleneck : bneck) : result matrix :=
  row ← getitem m u;
  x ← getitem row v;
  y ← op x bottleneck;
  row' ← setitem row v y;
  setitem m u row'.

(** Subscripting with [previous_room] while it is still [None]. *)
Definition as_index (previous_room : option nat) : result nat :=
  match previous_room with
  | Some r => Ret r
  | None => Raise TypeError
  end.

(** Body of the first [for room_index, room in enumerate(path)]. *)
Definition bottleneck_step (corridors bunny_traffic : matrix)
    (st : option nat * bneck) (item : nat * nat) : result (option nat * bneck) :=
  let '(previous_room, bottleneck) := st in
  let '(room_index, room) := item in
  bottleneck' ←
    (if bool_decide (0 < room_index) then
       prev ← as_index previous_room;
       c ← getitem2 corridors prev room;
       t ← getitem2 bunny_traffic prev room;
       let capacity := (c - t)%Z in
       Ret (bneck_min bottleneck capacity)
     else Ret bottleneck);
  Ret (Some room, bottleneck').

(** Body of the second one. *)
Definition traffic_step (bottleneck : bneck)
    (st : option nat * matrix) (item : nat * nat) : result (option nat * matrix) :=
  let '(previous_room, bunny_traffic) := st in
  let '(room_index, room) := item in
  bunny_traffic' ←
    (if bool_decide (0 < room_index) then
       prev ← as_index previous_room;
       m ← update2 flow_add bunny_traffic prev room bottleneck;
       update2 flow_sub m room prev bottleneck
     else Ret bunny_traffic);
  Ret (Some room, bunny_traffic').

(** Lines 34-52: the bottleneck of the path, then the update of the traffic.
    [previous_room] is not reset between the two loops. *)
Definition augment (corridors bunny_traffic : matrix)
    (path_with_capacity : path) : result matrix :=
  '(previous_room, bottleneck) ←
    for_each (enumerate path_with_capacity)
      (bottleneck_step corridors bunny_traffic) (None, Inf);
  '(_, bunny_traffic') ←
    for_each (enumerate path_with_capacity)
      (traffic_step bottleneck) (previous_room, bunny_traffic);
  Ret bunny_traffic'.

(** ** maximum_bunnies_rescuable *)

(** The [while True] loop.  [fuel] bounds its iterations and [fuel0] those of
    each search; [iterations] counts the augmentations done so far (it is not
    in the source and has no effect on the traffic). *)
Fixpoint engine_loop (fuel0 fuel : nat) (corridors bunny_traffic : matrix)
    (iterations : nat) : result (matrix * nat) :=
  match fuel with
  | O => OutOfFuel
  | S fuel' =>
    path_with_capacity ← find_bunny_path fuel0 corridors bunny_traffic;
    match path_with_capacity with
    | None => Ret (bunny_traffic, iterations)
    | Some p =>
      bunny_traffic' ← augment corridors bunny_traffic p;
      engine_loop fuel0 fuel' corridors bunny_traffic' (S iterations)
    end
  end.

(** Python's [sum] of a list of integers. *)
Definition sumZ (l : list Z) : Z := foldr Z.add 0%Z l.

(** [sum(bunny_traffic[room][escape_pods_room] for room in range(num_rooms))] *)
Definition sink_inflow (bunny_traffic : matrix) (num_rooms : nat) : result Z :=
  let escape_pods_room := (Z.of_nat num_rooms - 1)%Z in
  entries ← comprehension
    (λ room, row ← getitem bunny_traffic room; getitem_int row escape_pods_room)
    (seq 0 num_rooms);
  Ret (sumZ entries).

Definition zero_traffic (num_rooms : nat) : matrix :=
  replicate num_rooms (replicate num_rooms 0%Z).

(** Every [while] loop of the run may take up to [fuel] iterations. *)
Definition maximum_bunnies_rescuable (fuel : nat) (corridors : matrix)
  : result Z :=
  let num_rooms := length corridors in
  '(bunny_traffic, _) ←
    engine_loop fuel fuel corridors (zero_traffic num_rooms) 0;
  sink_inflow bunny_traffic num_rooms.

(** ** removed_indices, compressed_paths, solution *)

(** Python 2's [map(add, xs, ys)]: the shorter list is padded with [None],
    and [add] raises [TypeError] on it. *)
Fixpoint map_add (xs ys : list Z) : result (list Z) :=
  match xs, ys with
  | [], [] => Ret []
  | x :: xs', y :: ys' => r ← map_add xs' ys'; Ret ((x + y)%Z :: r)
  | _, _ => Raise TypeError
  end.

(** [[i for i in range(n) if i not in indices]] *)
Definition kept (n : nat) (indices : list Z) : list nat :=
  filter (λ i, Z.of_nat i ∉ indices) (seq 0 n).

Definition removed_indices (matrix : matrix) (indices : list Z)
  : result (list (list Z)) :=
  let length := length matrix in
  comprehension
    (λ row, comprehension (λ col, getitem2 matrix row col) (kept length indices))
    (kept length indices).

Definition compressed_paths (entrances exits : list Z) (path : matrix)
  : result (Z * matrix) :=
  let n := length path in
  starting_bunnies ←
    for_each entrances
      (λ starting_bunnies entrance,
         row ← getitem_int path entrance; map_add starting_bunnies row)
      (replicate n 0%Z);
  let bunnies_rescued_immediately :=
    sumZ (snd <$> filter (λ ib, Z.of_nat ib.1 ∈ exits)
                             (enumerate starting_bunnies)) in
  escape_pods ←
    for_each (seq 0 n)
      (λ escape_pods index,
         pointing_to_escape_pod ←
           comprehension
             (λ exit_index, row ← getitem path index; getitem_int row exit_index)
             exits;
         setitem escape_pods index (sumZ pointing_to_escape_pod))
      (replicate n 0%Z);
  starting_bunnies ←
    comprehension (getitem starting_bunnies) (kept n (entrances ++ exits));
  escape_pods ←
    comprehension (getitem escape_pods) (kept n (entrances ++ exits));
  new_path ← removed_indices path (entrances ++ exits);
  new_path ←
    comprehension
      (λ ir, e ← getitem escape_pods ir.1; Ret ([0%Z] ++ ir.2 ++ [e]))
      (enumerate new_path);
  let new_path := ([0%Z] ++ starting_bunnies ++ [0%Z]) :: new_path in
  first_row ← getitem new_path 0;
  let new_path := new_path ++ [replicate (length first_row) 0%Z] in
  Ret (bunnies_rescued_immediately, new_path).

Definition solution (fuel : nat) (entrances exits : list Z) (path : matrix)
  : result Z :=
  '(bunnies_rescued_immediately, compressed_path) ←
    compressed_paths entrances exits path;
  r ← maximum_bunnies_rescuable fuel compressed_path;
  Ret (bunnies_rescued_immediately + r)%Z.

(** * Vocabulary of the statements *)

(** ** Matrices and sums *)

(** The entry [m[u][v]], read as 0 outside the matrix. *)
Definition entry (m : matrix) (u v : nat) : Z :=
  default 0%Z (m !! u ≫= (.!! v)).

(** [m] has [n] rows of [n] entries. *)
Definition square (n : nat) (m : matrix) : Prop :=
  length m = n ∧ Forall (λ row, length row = n) m.

(** No entry of [m] is negative. *)
Definition nonneg (m : matrix) : Prop := Forall (Forall (λ x, (0 ≤ x)%Z)) m.

(** The sum of [f x] for [x] in [l]. *)
Definition sum_over {A} (l : list A) (f : A → Z) : Z := sumZ (f <$> l).

(** ** Residual paths *)

(** Residual capacity of the edge from [u] to [v]. *)
Definition residual (c t : matrix) (u v : nat) : Z :=
  (entry c u v - entry t u v)%Z.

(** An augmenting path: from room 0 to the last room, no room twice, every
    corridor on it with room left. *)
Definition augmenting_path (n : nat) (c t : matrix) (p : path) : Prop :=
  head p = Some 0 ∧ S <$> last p = Some n ∧ NoDup p ∧ Forall (λ x, x < n) p ∧
  ∀ i u v, p !! i = Some u → p !! S i = Some v → (0 < residual c t u v)%Z.

(** [p] and [q] part ways, and [p] takes the room with the smaller number. *)
Definition branches_before (p q : path) : Prop :=
  ∃ l x y p' q', p = l ++ x :: p' ∧ q = l ++ y :: q' ∧ x < y.

(** ** One augmentation *)

(** [m] with [d] added to the entry at [(u, v)]. *)
Definition bump (m : matrix) (u v : nat) (d : Z) : matrix :=
  match m !! u with
  | Some row => <[u := <[v := (entry m u v + d)%Z]> row]> m
  | None => m
  end.

(** The minimum the first loop arrives at, from [z], along [prev :: rooms]. *)
Fixpoint narrowest (c t : matrix) (prev : nat) (rooms : list nat) (z : Z) : Z :=
  match rooms with
  | [] => z
  | x :: rest => narrowest c t x rest (Z.min z (residual c t prev x))
  end.

(** The traffic the second loop arrives at, along [prev :: rooms]. *)
Fixpoint push (t : matrix) (prev : nat) (rooms : list nat) (b : Z) : matrix :=
  match rooms with
  | [] => t
  | x :: rest => push (bump (bump t prev x b) x prev (- b)) x rest b
  end.

(** The least residual capacity of the corridors of [p]. *)
Definition bottleneck (c t : matrix) (p : path) : Z :=
  match p with
  | x0 :: x1 :: rest => narrowest c t x1 rest (residual c t x0 x1)
  | _ => 0%Z
  end.

(** The traffic [t] after [b] more bunnies take the path [p]. *)
Definition pushed (t : matrix) (p : path) (b : Z) : matrix :=
  match p with
  | x0 :: rest => push t x0 rest b
  | [] => t
  end.

(** How many times the walk [prev :: rooms] goes from [u] to [v]. *)
Fixpoint crossings (prev : nat) (rooms : list nat) (u v : nat) : Z :=
  match rooms with
  | [] => 0
  | x :: rest =>
      (if decide (prev = u ∧ x = v) then 1 else 0) + crossings x rest u v
  end%Z.

(** How many times [p] goes from [u] to [v]: for a path without a repeated
    room, 1 when [v] follows [u] on it and 0 otherwise. *)
Definition path_crossings (p : path) (u v : nat) : Z :=
  match p with
  | x0 :: rest => crossings x0 rest u v
  | [] => 0%Z
  end.

(** ** Flows *)

(** Traffic entering the last room. *)
Definition inflow (n : nat) (t : matrix) : Z :=
  sum_over (seq 0 n) (λ u, entry t u (n - 1)).

(** A feasible flow: skew-symmetric, within the capacities, and conserved
    in every room between room 0 and the last room. *)
Record feasible (n : nat) (c t : matrix) : Prop := {
  feasible_square : square n t;
  feasible_skew u v : u < n → v < n → entry t u v = (- entry t v u)%Z;
  feasible_cap u v : u < n → v < n → (entry t u v ≤ entry c u v)%Z;
  feasible_conserved u :
    0 < u → S u < n → sum_over (seq 0 n) (entry t u) = 0%Z;
}.

(** Capacity of the corridors into the last room. *)
Definition capacity_in (n : nat) (c : matrix) : Z :=
  sum_over (seq 0 n) (λ u, entry c u (n - 1)).

(** Capacity of the corridors out of room 0. *)
Definition capacity_out (n : nat) (c : matrix) : Z :=
  sum_over (seq 0 n) (entry c 0).

(** Bunnies arriving in a room and leaving it, corridor by corridor. *)
Definition arriving (n : nat) (t : matrix) (u : nat) : Z :=
  sum_over (seq 0 n) (λ v, 0 `max` entry t v u)%Z.

Definition leaving (n : nat) (t : matrix) (u : nat) : Z :=
  sum_over (seq 0 n) (λ v, 0 `max` entry t u v)%Z.

(** ** Cuts *)

(** What [m] carries from the rooms in [A] to the rooms outside. *)
Definition flux (n : nat) (m : matrix) (A : nat → bool) : Z :=
  sum_over (seq 0 n) (λ u,
    sum_over (seq 0 n) (λ v, if A u && negb (A v) then entry m u v else 0%Z)).

(** Capacity of the corridors that leave the set of rooms [A]. *)
Definition cut_capacity (n : nat) (c : matrix) (A : nat → bool) : Z := flux n c A.

(** [A] has every entrance on its side and every exit on the other. *)
Definition separates (A : nat → bool) (entrances exits : list Z) : Prop :=
  (∀ s, s ∈ entrances → A (Z.to_nat s) = true)
  ∧ (∀ t, t ∈ exits → A (Z.to_nat t) = false).

(** [r] is the least capacity of a cut between the entrances and the exits. *)
Definition min_cut_value (n : nat) (c : matrix) (entrances exits : list Z)
    (r : Z) : Prop :=
  (∃ A, separates A entrances exits ∧ cut_capacity n c A = r)
  ∧ (∀ A, separates A entrances exits → (r ≤ cut_capacity n c A)%Z).

(** The least cut by enumeration: every set of rooms as a list of
    booleans, those that separate, the least of their capacities. *)
Fixpoint sides (n : nat) : list (list bool) :=
  match n with
  | O => [[]]
  | S k => l ← sides k; [false :: l; true :: l]
  end.

(** Whether room [u] is in the set that [l] lists. *)
Definition side (l : list bool) (u : nat) : bool := default false (l !! u).

(** [separates], for a set given as a list. *)
Definition separating (l : list bool) (entrances exits : list Z) : Prop :=
  Forall (λ s, side l (Z.to_nat s) = true) entrances
  ∧ Forall (λ t, side l (Z.to_nat t) = false) exits.

#[global] Instance separating_dec l entrances exits :
  Decision (separating l entrances exits).
Proof. unfold separating. apply _. Defined.

(** The least element of a list, if it has one. *)
Definition least (l : list Z) : option Z :=
  match l with
  | [] => None
  | x :: l' => Some (foldr Z.min x l')
  end.

Definition min_cut (n : nat) (c : matrix) (entrances exits : list Z) : option Z :=
  least ((λ l, cut_capacity n c (side l))
         <$> filter (λ l, separating l entrances exits) (sides n)).

(** ** The reduction *)

(** Every index is a room number. *)
Definition in_range (n : nat) (indices : list Z) : Prop :=
  Forall (λ i, (0 ≤ i < Z.of_nat n)%Z) indices.

(** Capacity from the entrances into room [v], and from room [u] into the
    exits. *)
Definition starting (entrances : list Z) (path : matrix) (v : nat) : Z :=
  sum_over entrances (λ e, entry path (Z.to_nat e) v).

Definition escaping (exits : list Z) (path : matrix) (u : nat) : Z :=
  sum_over exits (λ x, entry path u (Z.to_nat x)).

(** What [compressed_paths] returns as immediately rescued, and as matrix. *)
Definition bypass (entrances exits : list Z) (path : matrix) : Z :=
  sum_over (filter (λ i, Z.of_nat i ∈ exits) (seq 0 (length path)))
           (starting entrances path).

Definition reduced (entrances exits : list Z) (path : matrix) : matrix :=
  let keep := kept (length path) (entrances ++ exits) in
  ([0%Z] ++ (starting entrances path <$> keep) ++ [0%Z])
  :: ((λ u, [0%Z] ++ (entry path u <$> keep) ++ [escaping exits path u]) <$> keep)
  ++ [replicate (S (length keep + 1)) 0%Z].

(** ** Indices as Python reads them *)

(** The index Python reads for [i] in a list of length [n]. *)
Definition wrap (n : nat) (i : Z) : Z :=
  if (0 <=? i)%Z then i else (Z.of_nat n + i)%Z.

(** The room a Python index names. *)
Definition room_at (n : nat) (i : Z) : nat := Z.to_nat (wrap n i).

(** Every index can be used to subscript a list of length [n]. *)
Definition indexable (n : nat) (indices : list Z) : Prop :=
  Forall (λ i, (- Z.of_nat n ≤ i < Z.of_nat n)%Z) indices.

(** The reduced matrix, from the rooms kept and the capacities into them from
    the entrances and out of them to the exits. *)
Definition framed (keep : list nat) (start escape : nat → Z) (path : matrix)
  : matrix :=
  ([0%Z] ++ (start <$> keep) ++ [0%Z])
  :: ((λ u, [0%Z] ++ (entry path u <$> keep) ++ [escape u]) <$> keep)
  ++ [replicate (S (length keep + 1)) 0%Z].

(** * Properties *)

(** ** Matrices *)

Lemma square_lookup n m u :
  square n m → u < n → ∃ row, m !! u = Some row ∧ length row = n.
Proof.
  intros [Hl Hr] Hu.
  destruct (lookup_lt_is_Some_2 m u) as [row Hrow]; [lia|].
  exists row. split; [done|]. by eapply Forall_lookup_1 in Hr.
Qed.

Lemma square_entry n m u v :
  square n m → u < n → v < n →
  ∃ row, m !! u = Some row ∧ row !! v = Some (entry m u v).
Proof.
  intros Hm Hu Hv. destruct (square_lookup n m u Hm Hu) as (row & Hrow & Hlen).
  exists row. split; [done|].
  destruct (lookup_lt_is_Some_2 row v) as [x Hx]; [lia|].
  unfold entry. rewrite Hrow. simpl. by rewrite Hx.
Qed.

Lemma getitem2_entry n m u v :
  square n m → u < n → v < n → getitem2 m u v = Ret (entry m u v).
Proof.
  intros Hm Hu Hv. destruct (square_entry n m u v Hm Hu Hv) as (row & Hrow & Hx).
  unfold getitem2, getitem. rewrite Hrow. simpl. by rewrite Hx.
Qed.

Lemma seq_sorted a m : StronglySorted lt (seq a m).
Proof.
  revert a. induction m as [|m IH]; intros a; simpl; constructor; [apply IH|].
  apply Forall_forall. intros x Hx%elem_of_seq. lia.
Qed.

Lemma filter_sorted {A} (R : relation A) (P : A → Prop) `{!∀ x, Decision (P x)} l :
  StronglySorted R l → StronglySorted R (filter P l).
Proof.
  induction 1 as [|x l Hl IH Hx]; [constructor|].
  rewrite filter_cons. destruct (decide _); [|done].
  constructor; [done|]. apply Forall_forall. intros y [_ Hy]%list_elem_of_filter.
  rewrite Forall_forall in Hx. auto.
Qed.

(** ** The search, level by level *)

Section search.
Variables (n : nat) (c t : matrix).
Hypothesis (Hc : square n c) (Ht : square n t).

(** [x] can extend a path [p] that ends in [r]. *)
Definition room_ok (p : path) (r x : nat) : Prop :=
  (x ∉ p) ∧ (0 < residual c t r x)%Z.

#[local] Instance room_ok_dec p r x : Decision (room_ok p r x).
Proof. unfold room_ok. apply _. Defined.

(** The paths the loop body appends to the queue for [p], in order. *)
Definition children (p : path) : list path :=
  match last p with
  | None => []
  | Some r => (λ x, p ++ [x]) <$> filter (room_ok p r) (seq 0 n)
  end.

(** The queue contents by number of edges. *)
Fixpoint level (k : nat) : list path :=
  match k with
  | O => [[0]]
  | S k' => level k' ≫= children
  end.

Definition at_sink (p : path) : Prop := S <$> last p = Some n.

#[local] Instance at_sink_dec p : Decision (at_sink p).
Proof. unfold at_sink. apply _. Defined.

Lemma try_room_eq p r q x :
  r < n → x < n →
  try_room c t p r q x
  = Ret (if decide (room_ok p r x) then q ++ [p ++ [x]] else q).
Proof.
  intros Hr Hx. unfold try_room, room_ok. case_bool_decide as Hin.
  - rewrite decide_False; [done|tauto].
  - rewrite (getitem2_entry n c r x), (getitem2_entry n t r x) by done.
    simpl. unfold residual.
    destruct (Z.leb_spec (entry c r x - entry t r x) 0) as [Hle|Hlt].
    + rewrite decide_False; [done|lia].
    + rewrite decide_True; [done|]. split; [done|lia].
Qed.

Lemma for_each_try_room p r xs q :
  r < n → Forall (λ x, x < n) xs →
  for_each xs (try_room c t p r) q
  = Ret (q ++ ((λ x, p ++ [x]) <$> filter (room_ok p r) xs)).
Proof.
  intros Hr Hxs. revert q. induction Hxs as [|x xs Hx Hxs IH]; intros q.
  - simpl. by rewrite app_nil_r.
  - cbn [for_each]. rewrite try_room_eq by done. simpl. rewrite IH.
    rewrite filter_cons. destruct (decide (room_ok p r x)); [|done].
    by rewrite fmap_cons, <- app_assoc.
Qed.

Definition live (p : path) : Prop := ∃ r, last p = Some r ∧ r < n.

Lemma search_loop_step fuel p rest :
  live p → ¬ at_sink p →
  search_loop (S fuel) c t (p :: rest) = search_loop fuel c t (rest ++ children p).
Proof.
  intros (r & Hlast & Hr) Hns. simpl. rewrite Hlast.
  destruct Hc as [Hlen _]. rewrite Hlen.
  case_bool_decide as Hs.
  - exfalso. apply Hns. unfold at_sink. rewrite Hlast. simpl. f_equal. lia.
  - rewrite for_each_try_room; [|done|].
    + simpl. unfold children. by rewrite Hlast.
    + apply Forall_seq. lia.
Qed.

Lemma search_loop_hit fuel p rest :
  at_sink p → search_loop (S fuel) c t (p :: rest) = Ret (Some p).
Proof.
  unfold at_sink. intros Hs. simpl. destruct (last p) as [r|]; [|done].
  simpl in Hs. destruct Hc as [Hlen _]. rewrite Hlen.
  rewrite bool_decide_eq_true_2; [done|]. injection Hs. lia.
Qed.

(** A stretch of the queue without a path at the sink is replaced by its
    children, at the back. *)
Lemma search_loop_pass l acc fuel :
  Forall (λ p, live p ∧ ¬ at_sink p) l →
  search_loop (length l + fuel) c t (l ++ acc)
  = search_loop fuel c t (acc ++ (l ≫= children)).
Proof.
  intros Hl. revert acc. induction Hl as [|p l [Hp Hns] Hl IH]; intros acc.
  - simpl. by rewrite app_nil_r.
  - simpl length. rewrite <- app_comm_cons.
    replace (S (length l) + fuel) with (S (length l + fuel)) by lia.
    rewrite search_loop_step by done.
    rewrite <- app_assoc, IH, bind_cons. by rewrite app_assoc.
Qed.

Lemma search_loop_more fuel d q r :
  search_loop fuel c t q = Ret r → search_loop (fuel + d) c t q = Ret r.
Proof.
  revert q. induction fuel as [|fuel IH]; intros q; [done|].
  simpl. destruct q as [|p rest]; [done|].
  destruct (last p) as [x|]; [|done].
  case_bool_decide; [done|].
  destruct (for_each _ _ _) as [q'| |]; simpl; [apply IH|done|done].
Qed.

(** Paths without a repeated room that start in room 0 and follow corridors
    with room left. *)
Inductive simple_path : path → Prop :=
  | simple_start : simple_path [0]
  | simple_step p r x :
      simple_path p → last p = Some r → x < n → room_ok p r x →
      simple_path (p ++ [x]).

Lemma elem_of_children p q :
  q ∈ children p ↔ ∃ r x, last p = Some r ∧ x < n ∧ room_ok p r x ∧ q = p ++ [x].
Proof.
  unfold children. destruct (last p) as [r|].
  - rewrite list_elem_of_fmap. split.
    + intros (x & -> & Hx). apply list_elem_of_filter in Hx as [Hok Hx].
      apply elem_of_seq in Hx. exists r, x. split; [done|]. split; [lia|]. by split.
    + intros (r' & x & [= <-] & Hx & Hok & ->). exists x. split; [done|].
      apply list_elem_of_filter. split; [done|]. apply elem_of_seq. lia.
  - split; [by intros ?%elem_of_nil|]. by intros (? & ? & ? & _).
Qed.

Lemma elem_of_level k p : p ∈ level k ↔ simple_path p ∧ length p = S k.
Proof.
  split.
  - revert p. induction k as [|k IH]; intros p; simpl.
    + intros ->%list_elem_of_singleton. split; [constructor|done].
    + intros (q & Hp & Hq)%list_elem_of_bind. apply IH in Hq as [Hq Hlen].
      apply elem_of_children in Hp as (r & x & Hlast & Hx & Hok & ->).
      split; [by econstructor|]. rewrite length_app. simpl. lia.
  - intros [Hp Hlen]. revert k Hlen.
    induction Hp as [|p r x Hp IH Hlast Hx Hok]; intros k Hlen.
    + simpl in Hlen. replace k with 0 by lia. simpl. by apply list_elem_of_singleton.
    + rewrite length_app in Hlen. simpl in Hlen.
      destruct k as [|k]; [destruct p; [done|simpl in Hlen; lia]|].
      simpl. apply list_elem_of_bind. exists p. split; [|apply IH; lia].
      apply elem_of_children. by exists r, x.
Qed.

Lemma simple_path_head p : simple_path p → head p = Some 0.
Proof. induction 1 as [|p r x Hp IH]; [done|]. by destruct p. Qed.

Lemma simple_path_NoDup p : simple_path p → NoDup p.
Proof.
  induction 1 as [|p r x Hp IH Hlast Hx [Hnin _]].
  - apply NoDup_singleton.
  - apply NoDup_app. repeat split; [done| |apply NoDup_singleton].
    intros y Hy ->%list_elem_of_singleton. done.
Qed.

Lemma simple_path_rooms p : 0 < n → simple_path p → Forall (λ x, x < n) p.
Proof.
  intros Hn. induction 1 as [|p r x Hp IH Hlast Hx Hok].
  - by repeat constructor.
  - apply Forall_app. split; [done|]. by repeat constructor.
Qed.

Lemma simple_path_edges p i u v :
  simple_path p → p !! i = Some u → p !! S i = Some v →
  (0 < residual c t u v)%Z.
Proof.
  intros Hp. revert i u v. induction Hp as [|p r x Hp IH Hlast Hx [_ Hok]];
    intros i u v Hu Hv.
  - by destruct i.
  - destruct (decide (S i < length p)) as [Hlt|Hge].
    + rewrite lookup_app_l in Hu by lia. rewrite lookup_app_l in Hv by lia. eauto.
    + assert (S i = length p) as Hi.
      { apply lookup_lt_Some in Hv. rewrite length_app in Hv. simpl in Hv. lia. }
      rewrite lookup_app_l in Hu by lia.
      rewrite lookup_app_r in Hv by lia. rewrite Hi, Nat.sub_diag in Hv.
      injection Hv as <-. rewrite last_lookup, <- Hi in Hlast. simpl in Hlast.
      by replace u with r by congruence.
Qed.

Lemma simple_path_intro p :
  head p = Some 0 → NoDup p → Forall (λ x, x < n) p →
  (∀ i u v, p !! i = Some u → p !! S i = Some v → (0 < residual c t u v)%Z) →
  simple_path p.
Proof.
  induction p as [|x p IH] using rev_ind; [done|].
  intros Hhd Hnd Hall Hedges. destruct p as [|y p].
  - injection Hhd as ->. constructor.
  - apply NoDup_app in Hnd as (Hnd & Hnin & _).
    apply Forall_app in Hall as [Hall Hx]. inversion_clear Hx as [|? ? Hx' _].
    destruct (last (y :: p)) as [r|] eqn:Hlast; [|by apply last_None in Hlast].
    apply (simple_step _ r); [apply IH| | |]; try done.
    + intros i u v Hu Hv. apply (Hedges i).
      * by apply lookup_app_l_Some.
      * by apply lookup_app_l_Some.
    + split.
      * intros Hin. by apply (Hnin x), list_elem_of_singleton.
      * apply (Hedges (pred (length (y :: p)))).
        -- apply lookup_app_l_Some. by rewrite <- last_lookup.
        -- replace (S (pred (length (y :: p)))) with (length (y :: p)) by (simpl; lia).
           by apply list_lookup_middle.
Qed.

Lemma simple_path_length p : 0 < n → simple_path p → length p ≤ n.
Proof.
  intros Hn Hp. trans (length (seq 0 n)); [|by rewrite length_seq].
  apply submseteq_length.
  apply NoDup_submseteq; [by apply simple_path_NoDup|].
  intros x Hx. apply elem_of_seq.
  pose proof (simple_path_rooms p Hn Hp) as Hall.
  rewrite Forall_forall in Hall. specialize (Hall x Hx). lia.
Qed.

Lemma simple_path_live p : 0 < n → simple_path p → live p.
Proof.
  intros Hn Hp. pose proof (simple_path_rooms p Hn Hp) as Hall.
  destruct (last p) as [r|] eqn:Hlast.
  - exists r. split; [done|]. rewrite Forall_forall in Hall. apply Hall.
    apply last_Some in Hlast as [l ->]. apply elem_of_app. right.
    by apply list_elem_of_singleton.
  - apply last_None in Hlast. subst. by apply simple_path_head in Hp.
Qed.

Lemma level_nil k : 0 < n → n ≤ k → level k = [].
Proof.
  intros Hn Hk. destruct (level k) as [|p l] eqn:Hl; [done|].
  assert (p ∈ level k) as [Hp Hlen]%elem_of_level by (rewrite Hl; left).
  apply (simple_path_length _ Hn) in Hp. lia.
Qed.

(** *** Order inside a level *)

Lemma branches_before_snoc p q x y :
  branches_before p q → branches_before (p ++ [x]) (q ++ [y]).
Proof.
  intros (l & a & b & p' & q' & -> & -> & Hab).
  exists l, a, b, (p' ++ [x]), (q' ++ [y]). by rewrite <- !app_assoc.
Qed.

Lemma children_sorted p : StronglySorted branches_before (children p).
Proof.
  unfold children. destruct (last p) as [r|]; [|constructor].
  apply (StronglySorted_fmap _ lt).
  - intros x y Hxy. by exists p, x, y, [], [].
  - apply filter_sorted, seq_sorted.
Qed.

Lemma level_sorted k : StronglySorted branches_before (level k).
Proof.
  induction k as [|k IH]; simpl; [repeat constructor|].
  induction IH as [|p l Hl IH Hp]; [constructor|].
  rewrite bind_cons. apply StronglySorted_app_2; [|apply children_sorted|done].
  intros a b Ha (q & Hb & Hq)%list_elem_of_bind.
  apply elem_of_children in Ha as (? & x & _ & _ & _ & ->).
  apply elem_of_children in Hb as (? & y & _ & _ & _ & ->).
  apply branches_before_snoc. rewrite Forall_forall in Hp. auto.
Qed.

(** *** Running the loop over the levels *)

Fixpoint visited (k : nat) : nat :=
  match k with
  | O => 0
  | S k' => visited k' + length (level k')
  end.

Lemma level_live k : 0 < n → Forall live (level k).
Proof.
  intros Hn. apply Forall_forall. intros p [Hp _]%elem_of_level.
  by apply simple_path_live.
Qed.

Lemma search_loop_levels k fuel :
  0 < n →
  (∀ j, j < k → Forall (λ p, ¬ at_sink p) (level j)) →
  search_loop (visited k + fuel) c t (level 0) = search_loop fuel c t (level k).
Proof.
  intros Hn. revert fuel. induction k as [|k IH]; intros fuel Hfree; [done|].
  simpl visited. rewrite <- Nat.add_assoc, IH by (intros; apply Hfree; lia).
  rewrite <- (app_nil_r (level k)) at 2. rewrite search_loop_pass; [done|].
  apply Forall_and. split; [by apply level_live|]. apply Hfree. lia.
Qed.

Lemma first_hit {A} (P : A → Prop) `{!∀ x, Decision (P x)} (l : list A) :
  Forall (λ x, ¬ P x) l
  ∨ ∃ l1 x l2, l = l1 ++ x :: l2 ∧ Forall (λ x, ¬ P x) l1 ∧ P x.
Proof.
  induction l as [|x l IH]; [by left|].
  destruct (decide (P x)) as [Hx|Hx].
  - right. by exists [], x, l.
  - destruct IH as [IH|(l1 & y & l2 & -> & Hl1 & Hy)].
    + left. by constructor.
    + right. exists (x :: l1), y, l2. repeat split; [by constructor|done].
Qed.

(** The first level with a path at the sink, if there is one among the
    first [k]. *)
Lemma levels_outcome k :
  (∀ j, j < k → Forall (λ p, ¬ at_sink p) (level j))
  ∨ ∃ j l1 p l2, j < k ∧ level j = l1 ++ p :: l2 ∧ at_sink p
      ∧ Forall (λ p, ¬ at_sink p) l1
      ∧ ∀ i, i < j → Forall (λ p, ¬ at_sink p) (level i).
Proof.
  induction k as [|k [IH|(j & l1 & p & l2 & Hj & H)]].
  - left. intros j Hj. lia.
  - destruct (first_hit at_sink (level k)) as [Hk|(l1 & p & l2 & Hl & Hl1 & Hp)].
    + left. intros j Hj. destruct (decide (j = k)) as [->|]; [done|]. apply IH. lia.
    + right. exists k, l1, p, l2. repeat split; try done. lia.
  - right. exists j, l1, p, l2. split; [lia|done].
Qed.

Lemma visited_mono j k : j ≤ k → visited j ≤ visited k.
Proof. induction 1; simpl; lia. Qed.

Lemma length_children p : length (children p) ≤ n.
Proof.
  unfold children. destruct (last p); simpl; [|lia].
  rewrite length_fmap. etrans; [apply length_filter|]. by rewrite length_seq.
Qed.

Lemma length_level k : length (level k) ≤ n ^ k.
Proof.
  induction k as [|k IH]; [simpl; lia|].
  simpl level. rewrite Nat.pow_succ_r'.
  assert (∀ l : list path, length (l ≫= children) ≤ n * length l) as Hb.
  { induction l as [|p l IHl]; [simpl; lia|]. rewrite bind_cons. simpl length.
    rewrite length_app. pose proof (length_children p). nia. }
  etrans; [apply Hb|]. by apply Nat.mul_le_mono_l.
Qed.

Fixpoint geometric (k : nat) : nat :=
  match k with
  | O => 0
  | S k' => geometric k' + n ^ k'
  end.

Lemma visited_le k : visited k ≤ geometric k.
Proof.
  induction k as [|k IH]; simpl; [lia|]. pose proof (length_level k). lia.
Qed.

End search.

(** Iterations that are enough for any search among [n] rooms. *)
Definition search_fuel (n : nat) : nat := 2 + geometric n (S n).

Lemma augmenting_simple n c t p :
  0 < n → augmenting_path n c t p ↔ simple_path n c t p ∧ at_sink n p.
Proof.
  intros Hn. split.
  - intros (Hhd & Hlast & Hnd & Hall & Hedges). split; [|done].
    by apply simple_path_intro.
  - intros [Hp Hs]. split; [by eapply simple_path_head|].
    split; [done|]. split; [by eapply simple_path_NoDup|].
    split; [by eapply simple_path_rooms|].
    intros i u v. by eapply simple_path_edges.
Qed.

Lemma find_bunny_path_empty fuel t : 2 ≤ fuel → find_bunny_path fuel [] t = Ret None.
Proof. intros Hf. destruct fuel as [|[|fuel]]; [lia|lia|done]. Qed.

(** What the search returns, given enough iterations. *)
Lemma find_bunny_path_outcome n c t fuel :
  square n c → square n t → search_fuel n ≤ fuel →
  (∃ p, find_bunny_path fuel c t = Ret (Some p) ∧ augmenting_path n c t p
        ∧ ∀ q, augmenting_path n c t q →
            length p ≤ length q
            ∧ (length q = length p → q = p ∨ branches_before p q))
  ∨ (find_bunny_path fuel c t = Ret None ∧ ∀ q, ¬ augmenting_path n c t q).
Proof.
  intros Hc Ht Hfuel. destruct (decide (n = 0)) as [->|Hn0].
  { right. destruct Hc as [Hlen _]. apply nil_length_inv in Hlen as ->.
    split; [apply find_bunny_path_empty; unfold search_fuel in Hfuel; lia|].
    intros q (_ & Hlast & _). by destruct (last q). }
  assert (0 < n) as Hn by lia.
  assert (∀ q, augmenting_path n c t q →
            q ∈ level n c t (pred (length q)) ∧ at_sink n q
            ∧ 0 < length q ≤ n) as Hin.
  { intros q [Hq Hs]%augmenting_simple; [|done].
    assert (0 < length q).
    { destruct q; [by apply simple_path_head in Hq|simpl; lia]. }
    split; [|split; [done|split; [done|]]].
    - apply elem_of_level. split; [done|lia].
    - by eapply simple_path_length. }
  assert (visited n c t (S n) < search_fuel n) as Hv.
  { pose proof (visited_le n c t (S n)). unfold search_fuel. lia. }
  change (find_bunny_path fuel c t) with (search_loop fuel c t (level n c t 0)).
  destruct (levels_outcome n c t (S n))
    as [Hfree|(j & l1 & p & l2 & Hj & Hl & Hp & Hl1 & Hfree)].
  - right. split.
    + replace fuel with (visited n c t n + 1 + (fuel - visited n c t n - 1))
        by (simpl in Hv; lia).
      apply search_loop_more.
      rewrite (search_loop_levels n c t Hc Ht n 1 Hn) by (intros; apply Hfree; lia).
      by rewrite (level_nil n c t n) by done.
    + intros q (Hq & Hs & Hlen)%Hin.
      assert (pred (length q) < S n) as Hlt%Hfree by lia.
      rewrite Forall_forall in Hlt. by apply (Hlt q).
  - left. exists p. assert (p ∈ level n c t j) as Hpj.
    { rewrite Hl. apply elem_of_app. right. left. }
    split; [|split].
    + assert (visited n c t j + length l1 + 1 ≤ visited n c t (S j)) as Hle.
      { simpl. rewrite Hl, length_app. simpl. lia. }
      pose proof (visited_mono n c t (S j) (S n)).
      replace fuel with (visited n c t j + (length l1 + 1)
                         + (fuel - visited n c t j - length l1 - 1)) by lia.
      apply search_loop_more.
      rewrite (search_loop_levels n c t Hc Ht j _ Hn Hfree), Hl.
      rewrite (search_loop_pass n c t Hc Ht).
      * replace 1 with (S 0) by done. rewrite <- app_comm_cons.
        by apply (search_loop_hit n c t Hc).
      * apply Forall_and. split; [|done].
        pose proof (level_live n c t j Hn) as Hlive. rewrite Hl in Hlive.
        by apply Forall_app in Hlive as [? _].
    + apply augmenting_simple; [done|]. split; [|done].
      by apply elem_of_level in Hpj as [? _].
    + apply elem_of_level in Hpj as [_ Hlenp].
      intros q (Hq & Hs & Hlen)%Hin.
      assert (j ≤ pred (length q)) as Hjq.
      { apply Nat.nlt_ge. intros Hlt%Hfree. rewrite Forall_forall in Hlt.
        by apply (Hlt q). }
      split; [lia|]. intros Heq. rewrite Heq, Hlenp in Hq. simpl in Hq.
      pose proof (level_sorted n c t j) as Hsorted. rewrite Hl in Hsorted.
      rewrite Hl in Hq. apply elem_of_app in Hq as [Hq|Hq].
      * rewrite Forall_forall in Hl1. by destruct (Hl1 q Hq).
      * apply StronglySorted_app_1_r, StronglySorted_cons in Hsorted as [Hsorted _].
        apply elem_of_cons in Hq as [->|Hq]; [by left|right].
        rewrite Forall_forall in Hsorted. auto.
Qed.



(** ** Sums *)

Lemma sum_over_cons {A} (x : A) l f : sum_over (x :: l) f = (f x + sum_over l f)%Z.
Proof. done. Qed.

Lemma sumZ_app l1 l2 : sumZ (l1 ++ l2) = (sumZ l1 + sumZ l2)%Z.
Proof. induction l1 as [|x l1 IH]; simpl; lia. Qed.

Lemma sum_over_app {A} (l1 l2 : list A) f :
  sum_over (l1 ++ l2) f = (sum_over l1 f + sum_over l2 f)%Z.
Proof. unfold sum_over. by rewrite fmap_app, sumZ_app. Qed.

Lemma sum_over_fmap {A B} (g : A → B) (l : list A) f :
  sum_over (g <$> l) f = sum_over l (f ∘ g).
Proof. unfold sum_over. by rewrite <- list_fmap_compose. Qed.

Lemma sum_over_ext {A} (l : list A) f g :
  (∀ x, x ∈ l → f x = g x) → sum_over l f = sum_over l g.
Proof.
  induction l as [|x l IH]; intros Hfg; [done|].
  rewrite !sum_over_cons, IH, Hfg; [done|left|]. intros y Hy. apply Hfg. by right.
Qed.

Lemma sum_over_le {A} (l : list A) f g :
  (∀ x, x ∈ l → (f x ≤ g x)%Z) → (sum_over l f ≤ sum_over l g)%Z.
Proof.
  induction l as [|x l IH]; intros Hfg; [done|].
  rewrite !sum_over_cons. assert (f x ≤ g x)%Z by (apply Hfg; left).
  assert (sum_over l f ≤ sum_over l g)%Z; [|lia].
  apply IH. intros y Hy. apply Hfg. by right.
Qed.

Lemma sum_over_zero {A} (l : list A) f :
  (∀ x, x ∈ l → f x = 0%Z) → sum_over l f = 0%Z.
Proof.
  induction l as [|x l IH]; intros Hf; [done|].
  rewrite sum_over_cons, IH, Hf; [done|left|]. intros y Hy. apply Hf. by right.
Qed.

Lemma sum_over_nonneg {A} (l : list A) f :
  (∀ x, x ∈ l → (0 ≤ f x)%Z) → (0 ≤ sum_over l f)%Z.
Proof.
  intros Hf. rewrite <- (sum_over_zero l (λ _, 0%Z)) by done. by apply sum_over_le.
Qed.

Lemma sum_over_add {A} (l : list A) f g :
  sum_over l (λ x, f x + g x)%Z = (sum_over l f + sum_over l g)%Z.
Proof. induction l as [|x l IH]; [done|]. rewrite !sum_over_cons, IH. lia. Qed.

Lemma sum_over_sub {A} (l : list A) f g :
  sum_over l (λ x, f x - g x)%Z = (sum_over l f - sum_over l g)%Z.
Proof. induction l as [|x l IH]; [done|]. rewrite !sum_over_cons, IH. lia. Qed.

Lemma sum_over_scale {A} (l : list A) k f :
  sum_over l (λ x, k * f x)%Z = (k * sum_over l f)%Z.
Proof.
  induction l as [|x l IH]; [unfold sum_over; simpl; lia|].
  rewrite !sum_over_cons, IH. lia.
Qed.

Lemma sum_over_opp {A} (l : list A) f :
  sum_over l (λ x, - f x)%Z = (- sum_over l f)%Z.
Proof. induction l as [|x l IH]; [done|]. rewrite !sum_over_cons, IH. lia. Qed.

Lemma sum_over_swap {A B} (l1 : list A) (l2 : list B) (f : A → B → Z) :
  sum_over l1 (λ x, sum_over l2 (f x)) = sum_over l2 (λ y, sum_over l1 (λ x, f x y)).
Proof.
  induction l1 as [|x l1 IH].
  - symmetry. by apply sum_over_zero.
  - rewrite sum_over_cons, IH, <- sum_over_add. by apply sum_over_ext.
Qed.

Lemma sum_over_perm {A} (l1 l2 : list A) f :
  l1 ≡ₚ l2 → sum_over l1 f = sum_over l2 f.
Proof.
  induction 1 as [|x l1 l2 _ IH|x y l|l1 l2 l3 _ IH1 _ IH2];
    rewrite ?sum_over_cons; [done|by rewrite IH|lia|congruence].
Qed.

(** A sum with a single non-zero term. *)
Lemma sum_over_single (l : list nat) a z :
  NoDup l →
  sum_over l (λ x, if decide (x = a) then z else 0%Z)
  = if decide (a ∈ l) then z else 0%Z.
Proof.
  induction 1 as [|x l Hx Hl IH]; [done|].
  rewrite sum_over_cons, IH. destruct (decide (x = a)) as [->|Hne].
  - rewrite decide_False by done. rewrite decide_True by left. lia.
  - destruct (decide (a ∈ l)) as [Hin|Hnin].
    + rewrite decide_True by (by right). lia.
    + rewrite decide_False; [lia|]. intros [->|?]%elem_of_cons; done.
Qed.

Lemma sum_over_seq_single n a z :
  a < n → sum_over (seq 0 n) (λ x, if decide (x = a) then z else 0%Z) = z.
Proof.
  intros Ha. rewrite sum_over_single by apply NoDup_seq.
  rewrite decide_True; [done|]. apply elem_of_seq. lia.
Qed.

(** A sum over positions is a sum over the elements at them. *)
Lemma sum_over_positions {A} (l : list A) (g : nat → Z) (h : A → Z) a :
  (∀ k x, l !! k = Some x → g (a + k) = h x) →
  sum_over (seq a (length l)) g = sum_over l h.
Proof.
  revert a. induction l as [|x l IH]; intros a Hgh; [done|].
  simpl length. simpl seq. rewrite !sum_over_cons. rewrite (IH (S a)).
  - rewrite <- (Hgh 0 x eq_refl). by rewrite Nat.add_0_r.
  - intros k y Hk. rewrite <- (Hgh (S k) y Hk). f_equal. lia.
Qed.

(** The first and the last term apart. *)
Lemma sum_over_seq_ends m (f : nat → Z) :
  sum_over (seq 0 (S (S m))) f
  = (f 0%nat + sum_over (seq 0 m) (λ k, f (S k)) + f (S m))%Z.
Proof.
  rewrite seq_S, sum_over_app. simpl seq. rewrite sum_over_cons.
  rewrite <- fmap_S_seq, sum_over_fmap.
  change (sum_over [(0 + S m)%nat] f) with (f (S m) + 0)%Z.
  change (sum_over (seq 0 m) (f ∘ S)) with (sum_over (seq 0 m) (λ k, f (S k))). lia.
Qed.

(** ** The augmenter *)

Lemma bump_square n m u v d : square n m → square n (bump m u v d).
Proof.
  intros [Hlen Hrows]. unfold bump. destruct (m !! u) as [row|] eqn:Hrow; [|done].
  split; [by rewrite length_insert|].
  apply Forall_insert; [done|]. rewrite length_insert.
  by eapply Forall_lookup_1 in Hrows.
Qed.

Lemma entry_bump n m u v d u' v' :
  square n m → u < n → v < n →
  entry (bump m u v d) u' v'
  = (entry m u' v' + if decide (u' = u ∧ v' = v) then d else 0)%Z.
Proof.
  intros Hm Hu Hv. destruct (square_lookup n m u Hm Hu) as (row & Hrow & Hlen).
  destruct Hm as [Hlenm _].
  unfold bump. rewrite Hrow. unfold entry.
  destruct (decide (u' = u)) as [->|Hne].
  - rewrite list_lookup_insert_eq by lia. rewrite Hrow. simpl.
    destruct (decide (v' = v)) as [->|Hne].
    + rewrite list_lookup_insert_eq by lia. by rewrite decide_True.
    + rewrite list_lookup_insert_ne by done. rewrite decide_False by tauto. lia.
  - rewrite list_lookup_insert_ne by done. rewrite decide_False by tauto. lia.
Qed.

Lemma setitem_eq {A} (l : list A) i x :
  i < length l → setitem l i x = Ret (<[i:=x]> l).
Proof. intros Hi. unfold setitem. by rewrite bool_decide_eq_true_2. Qed.

Lemma update2_add n m u v b :
  square n m → u < n → v < n →
  update2 flow_add m u v (Fin b) = Ret (bump m u v b).
Proof.
  intros Hm Hu Hv. destruct (square_entry n m u v Hm Hu Hv) as (row & Hrow & Hx).
  destruct (square_lookup n m u Hm Hu) as (row' & Hrow' & Hlen).
  replace row' with row in * by congruence. destruct Hm as [Hlenm _].
  unfold update2, getitem, bump. rewrite Hrow. simpl. rewrite Hx. simpl.
  rewrite setitem_eq by lia. simpl. by rewrite setitem_eq by lia.
Qed.

Lemma update2_sub n m u v b :
  square n m → u < n → v < n →
  update2 flow_sub m u v (Fin b) = Ret (bump m u v (- b)).
Proof.
  intros Hm Hu Hv. destruct (square_entry n m u v Hm Hu Hv) as (row & Hrow & Hx).
  destruct (square_lookup n m u Hm Hu) as (row' & Hrow' & Hlen).
  replace row' with row in * by congruence. destruct Hm as [Hlenm _].
  unfold update2, getitem, bump. rewrite Hrow. simpl. rewrite Hx. simpl.
  rewrite setitem_eq by lia. simpl. rewrite setitem_eq by lia.
  by replace (entry m u v - b)%Z with (entry m u v + - b)%Z by lia.
Qed.

Section augment.
Variables (n : nat) (c : matrix).
Hypothesis (Hc : square n c).

Lemma bottleneck_step_first t st x :
  bottleneck_step c t st (0, x) = Ret (Some x, st.2).
Proof. by destruct st. Qed.

Lemma bottleneck_step_next t prev bn i x :
  square n t → prev < n → x < n →
  bottleneck_step c t (Some prev, bn) (S i, x)
  = Ret (Some x, bneck_min bn (residual c t prev x)).
Proof.
  intros Ht Hprev Hx. unfold bottleneck_step.
  rewrite bool_decide_eq_true_2 by lia. simpl.
  by rewrite (getitem2_entry n c prev x), (getitem2_entry n t prev x).
Qed.

Lemma traffic_step_first bn st x :
  traffic_step bn st (0, x) = Ret (Some x, st.2).
Proof. by destruct st. Qed.

Lemma traffic_step_next t prev b i x :
  square n t → prev < n → x < n →
  traffic_step (Fin b) (Some prev, t) (S i, x)
  = Ret (Some x, bump (bump t prev x b) x prev (- b)).
Proof.
  intros Ht Hprev Hx. unfold traffic_step.
  rewrite bool_decide_eq_true_2 by lia. simpl.
  rewrite (update2_add n) by done. simpl.
  by rewrite (update2_sub n) by (done || by apply bump_square).
Qed.

Lemma bottleneck_loop t i prev rooms z :
  square n t → prev < n → Forall (λ x, x < n) rooms →
  for_each (zip (seq (S i) (length rooms)) rooms) (bottleneck_step c t)
    (Some prev, Fin z)
  = Ret (last (prev :: rooms), Fin (narrowest c t prev rooms z)).
Proof.
  intros Ht Hprev Hrooms. revert i prev z Hprev.
  induction Hrooms as [|x rooms Hx Hrooms IH]; intros i prev z Hprev; [done|].
  cbn [length seq zip zip_with for_each].
  rewrite bottleneck_step_next by done. cbn [mbind result_bind bneck_min].
  rewrite IH by done. by rewrite last_cons_cons.
Qed.

Lemma traffic_loop t i prev rooms b :
  square n t → prev < n → Forall (λ x, x < n) rooms →
  for_each (zip (seq (S i) (length rooms)) rooms) (traffic_step (Fin b))
    (Some prev, t)
  = Ret (last (prev :: rooms), push t prev rooms b).
Proof.
  intros Ht Hprev Hrooms. revert i prev t Ht Hprev.
  induction Hrooms as [|x rooms Hx Hrooms IH]; intros i prev t Ht Hprev; [done|].
  cbn [length seq zip zip_with for_each].
  rewrite traffic_step_next by done. cbn [mbind result_bind].
  rewrite IH; [|by do 2 apply bump_square|done]. by rewrite last_cons_cons.
Qed.

(** The two loops on a path with at least one corridor. *)
Lemma augment_eq t p :
  square n t → Forall (λ x, x < n) p → 2 ≤ length p →
  augment c t p = Ret (pushed t p (bottleneck c t p)).
Proof.
  intros Ht Hp Hlen. destruct p as [|x0 [|x1 rest]]; simpl in Hlen; [lia|lia|].
  inversion_clear Hp as [|? ? Hx0 Hp']. inversion_clear Hp' as [|? ? Hx1 Hrest].
  unfold augment, enumerate.
  cbn [length seq zip zip_with for_each].
  rewrite bottleneck_step_first. cbn [mbind result_bind snd].
  rewrite bottleneck_step_next by done. cbn [mbind result_bind bneck_min].
  rewrite bottleneck_loop by done. cbn [mbind result_bind].
  rewrite traffic_step_first. cbn [mbind result_bind snd].
  rewrite traffic_step_next by done. cbn [mbind result_bind].
  rewrite traffic_loop; [done| |done|done]. by do 2 apply bump_square.
Qed.

(** A path without a corridor leaves the traffic as it is. *)
Lemma augment_short t p : length p ≤ 1 → augment c t p = Ret t.
Proof. intros Hlen. destruct p as [|x0 [|x1 rest]]; simpl in Hlen; [done|done|lia]. Qed.

Lemma push_square t prev rooms b : square n t → square n (push t prev rooms b).
Proof.
  revert t prev. induction rooms as [|x rooms IH]; intros t prev Ht; [done|].
  simpl. apply IH. by do 2 apply bump_square.
Qed.

End augment.

(** ** Effect of one augmentation *)

Lemma crossings_nonneg prev rooms u v : (0 ≤ crossings prev rooms u v)%Z.
Proof.
  revert prev. induction rooms as [|x rest IH]; intros prev; simpl; [done|].
  specialize (IH x). case_decide; lia.
Qed.

Lemma crossings_pos_elem prev rooms u v :
  (0 < crossings prev rooms u v)%Z → u ∈ prev :: rooms ∧ v ∈ rooms.
Proof.
  revert prev. induction rooms as [|x rest IH]; intros prev; simpl; [lia|].
  case_decide as Hd.
  - intros _. destruct Hd as [-> ->]. split; left.
  - intros [Hu Hv]%IH. split; by right.
Qed.

Lemma crossings_lookup prev rooms u v :
  (0 < crossings prev rooms u v)%Z
  ↔ ∃ i, (prev :: rooms) !! i = Some u ∧ (prev :: rooms) !! S i = Some v.
Proof.
  revert prev. induction rooms as [|x rest IH]; intros prev; simpl.
  - split; [lia|]. by intros (i & _ & Hi).
  - split.
    + case_decide as Hd.
      * intros _. exists 0. by destruct Hd as [-> ->].
      * intros Hpos. destruct (proj1 (IH x)) as (i & Hu & Hv); [lia|].
        by exists (S i).
    + intros ([|i] & Hu & Hv).
      * simpl in Hu, Hv. rewrite decide_True by (split; congruence).
        pose proof (crossings_nonneg x rest u v). lia.
      * assert (0 < crossings x rest u v)%Z by (apply IH; by exists i).
        case_decide; lia.
Qed.

Lemma crossings_NoDup prev rooms u v :
  NoDup (prev :: rooms) →
  (crossings prev rooms u v ≤ 1)%Z
  ∧ ((0 < crossings prev rooms u v)%Z → crossings prev rooms v u = 0%Z).
Proof.
  revert prev. induction rooms as [|x rest IH]; intros prev Hnd; simpl; [done|].
  apply NoDup_cons in Hnd as [Hprev Hnd]. destruct (IH x Hnd) as [IH1 IH2].
  pose proof (crossings_nonneg x rest u v) as Huv.
  pose proof (crossings_nonneg x rest v u) as Hvu.
  assert (prev ≠ x) as Hne by (intros ->; apply Hprev; left).
  destruct (decide (prev = u ∧ x = v)) as [[-> ->]|Hd].
  - assert (crossings v rest u v = 0)%Z as ->.
    { destruct (decide (0 < crossings v rest u v)%Z) as [[Hin _]%crossings_pos_elem|];
        [done|lia]. }
    assert (crossings v rest v u = 0)%Z as ->.
    { destruct (decide (0 < crossings v rest v u)%Z) as [[_ Hin]%crossings_pos_elem|];
        [|lia]. exfalso. apply Hprev. by right. }
    rewrite decide_False by (intros [? ?]; congruence). lia.
  - split; [lia|]. intros Hpos. rewrite IH2 by lia.
    rewrite decide_False; [done|]. intros [-> ->].
    apply crossings_pos_elem in Hpos as [_ Hin]. apply Hprev. by right.
Qed.

Lemma narrowest_le c t prev rooms z : (narrowest c t prev rooms z ≤ z)%Z.
Proof.
  revert prev z. induction rooms as [|x rest IH]; intros prev z; simpl; [done|].
  etrans; [apply IH|]. lia.
Qed.

Lemma narrowest_crossing c t prev rooms z u v :
  (0 < crossings prev rooms u v)%Z →
  (narrowest c t prev rooms z ≤ residual c t u v)%Z.
Proof.
  revert prev z. induction rooms as [|x rest IH]; intros prev z; simpl; [lia|].
  case_decide as Hd.
  - intros _. destruct Hd as [-> ->]. etrans; [apply narrowest_le|]. lia.
  - intros Hpos. apply IH. lia.
Qed.

Lemma narrowest_attained c t prev rooms z :
  narrowest c t prev rooms z = z
  ∨ ∃ u v, (0 < crossings prev rooms u v)%Z
           ∧ narrowest c t prev rooms z = residual c t u v.
Proof.
  revert prev z. induction rooms as [|x rest IH]; intros prev z; simpl; [by left|].
  destruct (IH x (Z.min z (residual c t prev x))) as [Heq|(u & v & Hpos & Heq)].
  - destruct (Z.min_spec z (residual c t prev x)) as [[_ Hm]|[_ Hm]].
    + left. congruence.
    + right. exists prev, x. rewrite decide_True by done.
      pose proof (crossings_nonneg x rest prev x). split; [lia|congruence].
  - right. exists u, v. split; [|done]. case_decide; lia.
Qed.

Lemma narrowest_pos c t prev rooms z :
  (0 < z)%Z →
  (∀ u v, (0 < crossings prev rooms u v)%Z → (0 < residual c t u v)%Z) →
  (0 < narrowest c t prev rooms z)%Z.
Proof.
  intros Hz Hres. destruct (narrowest_attained c t prev rooms z)
    as [->|(u & v & Hpos & ->)]; auto.
Qed.

Lemma entry_push n t prev rooms b u v :
  square n t → prev < n → Forall (λ x, x < n) rooms →
  entry (push t prev rooms b) u v
  = (entry t u v + b * (crossings prev rooms u v - crossings prev rooms v u))%Z.
Proof.
  intros Ht Hprev Hrooms. revert t prev Ht Hprev.
  induction Hrooms as [|x rest Hx Hrest IH]; intros t prev Ht Hprev; simpl; [lia|].
  rewrite IH; [|by do 2 apply bump_square|done].
  rewrite (entry_bump n) by (done || by apply bump_square).
  rewrite (entry_bump n) by done.
  repeat case_decide; try lia; exfalso; naive_solver.
Qed.

(** Walks leave a room as often as they enter it, the two ends apart. *)
Lemma crossings_balance n prev rooms u :
  prev < n → Forall (λ x, x < n) rooms →
  sum_over (seq 0 n) (λ v, crossings prev rooms u v - crossings prev rooms v u)%Z
  = ((if decide (prev = u) then 1 else 0)
     - (if decide (last (prev :: rooms) = Some u) then 1 else 0))%Z.
Proof.
  intros Hprev Hrooms. revert prev Hprev.
  induction Hrooms as [|x rest Hx Hrest IH]; intros prev Hprev.
  - simpl. rewrite sum_over_zero by done.
    destruct (decide (prev = u)) as [->|Hne].
    + by rewrite decide_True.
    + rewrite decide_False; [done|congruence].
  - rewrite last_cons_cons. simpl crossings.
    rewrite (sum_over_ext _ _ (λ v,
      ((if decide (v = x) then (if decide (prev = u) then 1 else 0) else 0)
       - (if decide (v = prev) then (if decide (x = u) then 1 else 0) else 0))
      + (crossings x rest u v - crossings x rest v u))%Z).
    + rewrite sum_over_add, sum_over_sub, !sum_over_seq_single, IH by done.
      lia.
    + intros v _. repeat case_decide; try lia; exfalso; naive_solver.
Qed.

Lemma path_crossings_lookup p u v :
  (0 < path_crossings p u v)%Z ↔ ∃ i, p !! i = Some u ∧ p !! S i = Some v.
Proof.
  destruct p as [|x0 rest]; [|apply crossings_lookup].
  simpl. split; [lia|]. by intros (i & Hi & _).
Qed.

Lemma path_crossings_nonneg p u v : (0 ≤ path_crossings p u v)%Z.
Proof. destruct p; [done|apply crossings_nonneg]. Qed.

Lemma path_crossings_NoDup p u v :
  NoDup p →
  (path_crossings p u v ≤ 1)%Z
  ∧ ((0 < path_crossings p u v)%Z → path_crossings p v u = 0%Z).
Proof. destruct p; [done|apply crossings_NoDup]. Qed.

Lemma path_crossings_balance n p u :
  Forall (λ x, x < n) p →
  sum_over (seq 0 n) (λ v, path_crossings p u v - path_crossings p v u)%Z
  = ((if decide (head p = Some u) then 1 else 0)
     - (if decide (last p = Some u) then 1 else 0))%Z.
Proof.
  destruct p as [|x0 rest]; [intros _; by apply sum_over_zero|].
  intros [Hx0 Hrest]%Forall_cons. simpl path_crossings.
  rewrite (crossings_balance n) by done.
  change (head (x0 :: rest)) with (Some x0).
  destruct (decide (x0 = u)) as [->|Hne].
  - by rewrite (decide_True (P := Some u = Some u)).
  - by rewrite (decide_False (P := Some x0 = Some u)) by congruence.
Qed.

Lemma bottleneck_narrowest c t x0 x1 rest :
  bottleneck c t (x0 :: x1 :: rest)
  = narrowest c t x0 (x1 :: rest) (residual c t x0 x1).
Proof. simpl. by rewrite Z.min_id. Qed.

Lemma bottleneck_le c t p u v :
  (0 < path_crossings p u v)%Z → (bottleneck c t p ≤ residual c t u v)%Z.
Proof.
  destruct p as [|x0 [|x1 rest]]; [simpl; lia..|].
  rewrite bottleneck_narrowest. apply narrowest_crossing.
Qed.

Lemma bottleneck_attained c t p :
  2 ≤ length p →
  ∃ u v, (0 < path_crossings p u v)%Z ∧ bottleneck c t p = residual c t u v.
Proof.
  destruct p as [|x0 [|x1 rest]]; [simpl; lia..|]. intros _.
  rewrite bottleneck_narrowest.
  destruct (narrowest_attained c t x0 (x1 :: rest) (residual c t x0 x1))
    as [->|H]; [|done].
  exists x0, x1. split; [|done]. apply path_crossings_lookup. by exists 0.
Qed.

Lemma pushed_square n t p b : square n t → square n (pushed t p b).
Proof. destruct p; [done|apply push_square]. Qed.

Lemma entry_pushed n t p b u v :
  square n t → Forall (λ x, x < n) p →
  entry (pushed t p b) u v
  = (entry t u v + b * (path_crossings p u v - path_crossings p v u))%Z.
Proof.
  intros Ht Hp. destruct p as [|x0 rest]; [simpl; lia|].
  apply Forall_cons in Hp as [Hx0 Hrest]. by apply (entry_push n).
Qed.

(** ** Feasible flows *)

Lemma nonneg_entry m u v : nonneg m → (0 ≤ entry m u v)%Z.
Proof.
  intros Hm. unfold entry. destruct (m !! u) as [row|] eqn:Hrow; [|done]. simpl.
  destruct (row !! v) as [x|] eqn:Hx; [|done]. simpl.
  eapply Forall_lookup_1 in Hm; [|done]. by eapply Forall_lookup_1 in Hm.
Qed.

Lemma zero_traffic_square n : square n (zero_traffic n).
Proof.
  unfold zero_traffic. split; [by rewrite length_replicate|].
  apply Forall_replicate. by rewrite length_replicate.
Qed.

Lemma entry_zero_traffic n u v : entry (zero_traffic n) u v = 0%Z.
Proof.
  unfold entry, zero_traffic.
  destruct (replicate n (replicate n 0%Z) !! u) as [row|] eqn:Hrow; [|done].
  apply lookup_replicate in Hrow as [-> _]. simpl.
  destruct (replicate n 0%Z !! v) as [x|] eqn:Hx; [|done].
  by apply lookup_replicate in Hx as [-> _].
Qed.

Lemma feasible_zero n c : nonneg c → feasible n c (zero_traffic n).
Proof.
  intros Hc. split.
  - apply zero_traffic_square.
  - intros u v _ _. by rewrite !entry_zero_traffic.
  - intros u v _ _. rewrite entry_zero_traffic. by apply nonneg_entry.
  - intros u _ _. apply sum_over_zero. intros v _. apply entry_zero_traffic.
Qed.

Lemma augmenting_path_length n c t p :
  2 ≤ n → augmenting_path n c t p → 2 ≤ length p.
Proof.
  intros Hn (Hhd & Hlast & _). destruct p as [|x0 [|x1 rest]]; simpl; [done| |lia].
  simpl in Hhd, Hlast. injection Hhd as ->. injection Hlast as Hlast. lia.
Qed.

Section invariants.
Variables (n : nat) (c t : matrix) (p : path).
Hypotheses (Hct : square n c) (Ht : square n t).
Hypotheses (Hnd : NoDup p) (Hrooms : Forall (λ x, x < n) p).
Hypothesis Hres :
  ∀ i u v, p !! i = Some u → p !! S i = Some v → (0 < residual c t u v)%Z.

Let b := bottleneck c t p.
Let t' := pushed t p b.

Lemma bottleneck_pos : 2 ≤ length p → (0 < b)%Z.
Proof.
  intros Hlen. destruct (bottleneck_attained c t p Hlen) as (u & v & Hpos & Hb).
  unfold b. rewrite Hb. apply path_crossings_lookup in Hpos as (i & Hu & Hv). eauto.
Qed.

Lemma bottleneck_nonneg : (0 ≤ b)%Z.
Proof.
  destruct (decide (2 ≤ length p)) as [Hlen|Hlen].
  - pose proof (bottleneck_pos Hlen). lia.
  - unfold b. destruct p as [|x0 [|x1 rest]]; simpl in *; lia.
Qed.

Lemma pushed_skew :
  (∀ u v, u < n → v < n → entry t u v = (- entry t v u)%Z) →
  ∀ u v, u < n → v < n → entry t' u v = (- entry t' v u)%Z.
Proof.
  intros Hskew u v Hu Hv. unfold t'. rewrite !(entry_pushed n) by done.
  rewrite (Hskew u v) by done. lia.
Qed.

Lemma pushed_cap :
  (∀ u v, u < n → v < n → (entry t u v ≤ entry c u v)%Z) →
  ∀ u v, u < n → v < n → (entry t' u v ≤ entry c u v)%Z.
Proof.
  intros Hcap u v Hu Hv. unfold t'. rewrite (entry_pushed n) by done.
  pose proof bottleneck_nonneg as Hb. specialize (Hcap u v Hu Hv).
  pose proof (path_crossings_nonneg p u v) as Huv.
  pose proof (path_crossings_nonneg p v u) as Hvu.
  destruct (path_crossings_NoDup p u v Hnd) as [Hle Hrev].
  destruct (decide (0 < path_crossings p u v)%Z) as [Hpos|Hzero].
  - rewrite Hrev by done. replace (path_crossings p u v) with 1%Z by lia.
    pose proof (bottleneck_le c t p u v Hpos) as Hbl. unfold residual in Hbl.
    fold b in Hbl. lia.
  - replace (path_crossings p u v) with 0%Z by lia. nia.
Qed.

(** A corridor of the path is used up. *)
Lemma pushed_saturates :
  2 ≤ length p →
  ∃ i u v, p !! i = Some u ∧ p !! S i = Some v
           ∧ residual c t u v = b ∧ residual c t' u v = 0%Z.
Proof.
  intros Hlen. destruct (bottleneck_attained c t p Hlen) as (u & v & Hpos & Hb).
  destruct (proj1 (path_crossings_lookup p u v) Hpos) as (i & Hu & Hv).
  exists i, u, v. split; [done|]. split; [done|]. split; [done|].
  destruct (path_crossings_NoDup p u v Hnd) as [Hle Hrev].
  unfold residual, t'. rewrite (entry_pushed n) by done.
  rewrite Hrev by done. replace (path_crossings p u v) with 1%Z by lia.
  unfold b. rewrite Hb. unfold residual. lia.
Qed.

Lemma pushed_row u :
  sum_over (seq 0 n) (entry t' u)
  = (sum_over (seq 0 n) (entry t u)
     + b * ((if decide (head p = Some u) then 1 else 0)
            - (if decide (last p = Some u) then 1 else 0)))%Z.
Proof.
  rewrite <- (path_crossings_balance n) by done.
  rewrite <- sum_over_scale, <- sum_over_add. apply sum_over_ext.
  intros v _. unfold t'. by rewrite (entry_pushed n).
Qed.

Lemma pushed_column v :
  sum_over (seq 0 n) (λ u, entry t' u v)
  = (sum_over (seq 0 n) (λ u, entry t u v)
     + b * ((if decide (last p = Some v) then 1 else 0)
            - (if decide (head p = Some v) then 1 else 0)))%Z.
Proof.
  pose proof (path_crossings_balance n p v Hrooms) as Hbal.
  replace (b * _)%Z with (- (b * sum_over (seq 0 n)
    (λ u, path_crossings p v u - path_crossings p u v)))%Z by (rewrite Hbal; lia).
  rewrite <- sum_over_scale, <- sum_over_opp, <- sum_over_add. apply sum_over_ext.
  intros u _. unfold t'. rewrite (entry_pushed n) by done. lia.
Qed.

End invariants.

(** One round of the main loop keeps the flow feasible and lets at least one
    more bunny through. *)
Lemma feasible_augment n c t p :
  2 ≤ n → square n c → feasible n c t → augmenting_path n c t p →
  augment c t p = Ret (pushed t p (bottleneck c t p))
  ∧ feasible n c (pushed t p (bottleneck c t p))
  ∧ (1 ≤ bottleneck c t p)%Z
  ∧ inflow n (pushed t p (bottleneck c t p))
    = (inflow n t + bottleneck c t p)%Z.
Proof.
  intros Hn Hc [Ht Hskew Hcap Hcons] Hp.
  pose proof (augmenting_path_length n c t p Hn Hp) as Hlen.
  destruct Hp as (Hhd & Hlast & Hnd & Hrooms & Hres).
  assert (last p = Some (n - 1)) as Hlast'.
  { destruct (last p) as [r|]; [|done]. injection Hlast as Hr. f_equal. lia. }
  split; [by apply (augment_eq n)|]. split; [split|split].
  - by apply pushed_square.
  - by apply (pushed_skew n c t p).
  - by apply (pushed_cap n c t p).
  - intros u Hu0 Hun. rewrite (pushed_row n c t p) by done.
    rewrite Hcons by done. rewrite Hhd, Hlast'.
    rewrite !decide_False; [lia| |]; intros [= ?]; lia.
  - pose proof (bottleneck_pos c t p Hres Hlen). lia.
  - unfold inflow. rewrite (pushed_column n c t p) by done.
    rewrite Hhd, Hlast'. rewrite decide_True by done.
    rewrite decide_False; [lia|]. intros [= ?]; lia.
Qed.

(** ** The main loop *)

Lemma inflow_le_capacity n c t :
  0 < n → feasible n c t → (inflow n t ≤ capacity_in n c)%Z.
Proof.
  intros Hn Ht. apply sum_over_le. intros u Hu%elem_of_seq.
  apply (feasible_cap n c t Ht); lia.
Qed.

Lemma find_bunny_path_more fuel fuel' c t r :
  fuel ≤ fuel' → find_bunny_path fuel c t = Ret r → find_bunny_path fuel' c t = Ret r.
Proof.
  intros Hle Hr. replace fuel' with (fuel + (fuel' - fuel)) by lia.
  by apply search_loop_more.
Qed.

Lemma engine_loop_more fuel0 fuel0' fuel fuel' c t k r :
  fuel0 ≤ fuel0' → fuel ≤ fuel' →
  engine_loop fuel0 fuel c t k = Ret r → engine_loop fuel0' fuel' c t k = Ret r.
Proof.
  intros Hle0. revert fuel' t k. induction fuel as [|fuel IH];
    intros fuel' t k Hle; [done|].
  destruct fuel' as [|fuel']; [lia|]. simpl.
  destruct (find_bunny_path fuel0 c t) as [[p|]| |] eqn:Hfind; try done.
  - rewrite (find_bunny_path_more fuel0 fuel0' c t _ Hle0 Hfind). simpl.
    destruct (augment c t p) as [t'| |]; try done. simpl. apply IH. lia.
  - by rewrite (find_bunny_path_more fuel0 fuel0' c t _ Hle0 Hfind).
Qed.

(** Given enough iterations the loop stops, at a feasible flow that no path
    can augment. *)
Lemma engine_loop_stops n c fuel0 :
  2 ≤ n → square n c → search_fuel n ≤ fuel0 →
  ∀ fuel t k, feasible n c t →
    (capacity_in n c - inflow n t < Z.of_nat fuel)%Z →
    ∃ t' k', engine_loop fuel0 fuel c t k = Ret (t', k')
             ∧ feasible n c t' ∧ (∀ q, ¬ augmenting_path n c t' q)
             ∧ (inflow n t ≤ inflow n t')%Z.
Proof.
  intros Hn Hc Hfuel0. induction fuel as [|fuel IH]; intros t k Ht Hm.
  { pose proof (inflow_le_capacity n c t ltac:(lia) Ht). lia. }
  simpl. destruct (find_bunny_path_outcome n c t fuel0 Hc (feasible_square _ _ _ Ht) Hfuel0)
    as [(p & -> & Hp & _)|[-> Hnone]]; simpl.
  - destruct (feasible_augment n c t p Hn Hc Ht Hp) as (-> & Ht' & Hb & Hin). simpl.
    destruct (IH (pushed t p (bottleneck c t p)) (S k) Ht') as (t' & k' & ? & ? & ? & ?);
      [lia|]. exists t', k'. split; [done|]. split; [done|]. split; [done|]. lia.
  - exists t, k. split; [done|]. split; [done|]. split; [done|]. lia.
Qed.

Lemma comprehension_eq {A B} (f : A → result B) (g : A → B) l :
  (∀ x, x ∈ l → f x = Ret (g x)) → comprehension f l = Ret (g <$> l).
Proof.
  induction l as [|x l IH]; intros Hfg; [done|].
  simpl. rewrite Hfg by left. simpl. rewrite IH; [done|].
  intros y Hy. apply Hfg. by right.
Qed.

Lemma getitem_int_nat {A} (l : list A) (i : nat) :
  getitem_int l (Z.of_nat i) = getitem l i.
Proof.
  unfold getitem_int. destruct (Z.leb_spec 0 (Z.of_nat i)); [|lia].
  by rewrite Nat2Z.id.
Qed.

Lemma sink_inflow_eq n t : square n t → sink_inflow t n = Ret (inflow n t).
Proof.
  intros Ht. unfold sink_inflow.
  rewrite (comprehension_eq _ (λ u, entry t u (n - 1))); [done|].
  intros u Hu%elem_of_seq.
  destruct (square_entry n t u (n - 1) Ht) as (row & Hrow & Hx); [lia..|].
  unfold getitem at 1. rewrite Hrow. simpl.
  replace (Z.of_nat n - 1)%Z with (Z.of_nat (n - 1)) by lia.
  rewrite getitem_int_nat. unfold getitem. by rewrite Hx.
Qed.

(** Iterations that are enough for every loop of a run on [c]. *)
Definition engine_fuel (n : nat) (c : matrix) : nat :=
  search_fuel n `max` S (Z.to_nat (capacity_in n c)).

Lemma capacity_in_nonneg n c : nonneg c → (0 ≤ capacity_in n c)%Z.
Proof.
  intros Hc. unfold capacity_in. rewrite <- (sum_over_zero (seq 0 n) (λ _, 0%Z)) by done.
  apply sum_over_le. intros u _. by apply nonneg_entry.
Qed.

(** The run of the engine on a matrix of non-negative capacities. *)
Lemma maximum_bunnies_rescuable_run n c fuel :
  2 ≤ n → square n c → nonneg c → engine_fuel n c ≤ fuel →
  ∃ t k, engine_loop fuel fuel c (zero_traffic n) 0 = Ret (t, k)
         ∧ feasible n c t ∧ (∀ q, ¬ augmenting_path n c t q)
         ∧ maximum_bunnies_rescuable fuel c = Ret (inflow n t)
         ∧ (0 ≤ inflow n t)%Z.
Proof.
  intros Hn Hc Hpos Hfuel. unfold engine_fuel in Hfuel.
  pose proof (capacity_in_nonneg n c Hpos) as Hcap.
  assert (inflow n (zero_traffic n) = 0%Z) as Hzero.
  { apply sum_over_zero. intros u _. apply entry_zero_traffic. }
  destruct (engine_loop_stops n c fuel Hn Hc ltac:(lia) fuel (zero_traffic n) 0)
    as (t & k & Hrun & Ht & Hnone & Hin).
  { by apply feasible_zero. }
  { rewrite Hzero. lia. }
  exists t, k. split; [done|]. split; [done|]. split; [done|]. split; [|lia].
  unfold maximum_bunnies_rescuable. destruct Hc as [-> _]. rewrite Hrun. simpl.
  apply sink_inflow_eq, Ht.
Qed.

(** ** Cuts *)

Lemma sum_over_skew l (g : nat → nat → Z) :
  (∀ u v, u ∈ l → v ∈ l → g u v = (- g v u)%Z) →
  sum_over l (λ u, sum_over l (g u)) = 0%Z.
Proof.
  intros Hg.
  assert (sum_over l (λ u, sum_over l (g u))
          = (- sum_over l (λ u, sum_over l (g u)))%Z) as Heq; [|lia].
  rewrite sum_over_swap at 1. rewrite <- sum_over_opp. apply sum_over_ext.
  intros u Hu. rewrite <- sum_over_opp. apply sum_over_ext. intros v Hv.
  rewrite (Hg u v) by done. lia.
Qed.

(** The traffic into the last room crosses every cut. *)
Lemma inflow_flux n c t A :
  2 ≤ n → feasible n c t → A 0 = true → A (n - 1) = false →
  inflow n t = flux n t A.
Proof.
  intros Hn [Ht Hskew Hcap Hcons] HA0 HAn.
  set (rows := sum_over (seq 0 n) (λ u,
    if A u then 0%Z else sum_over (seq 0 n) (entry t u))).
  assert (rows = (- inflow n t)%Z) as Hrows1.
  { unfold rows. rewrite (sum_over_ext _ _ (λ u,
      if decide (u = n - 1) then sum_over (seq 0 n) (entry t (n - 1)) else 0%Z)).
    - rewrite sum_over_seq_single by lia. unfold inflow.
      rewrite <- sum_over_opp. apply sum_over_ext. intros v Hv%elem_of_seq.
      apply Hskew; lia.
    - intros u Hu%elem_of_seq. destruct (decide (u = n - 1)) as [->|Hne].
      + by rewrite HAn.
      + destruct (A u) eqn:HAu; [done|]. apply Hcons; [|lia].
        destruct u; [congruence|lia]. }
  assert (rows = (- flux n t A)%Z) as Hrows2.
  { unfold rows. rewrite (sum_over_ext _ _ (λ u,
      sum_over (seq 0 n) (λ v,
        if negb (A u) && negb (A v) then entry t u v else 0)
      + sum_over (seq 0 n) (λ v,
        - (if A v && negb (A u) then entry t v u else 0)))%Z).
    - rewrite sum_over_add, sum_over_skew, sum_over_swap.
      + unfold flux. rewrite <- sum_over_opp. simpl.
        apply sum_over_ext. intros v _. by rewrite sum_over_opp.
      + intros u v Hu%elem_of_seq Hv%elem_of_seq.
        rewrite (Hskew u v) by lia. destruct (A u), (A v); simpl; lia.
    - intros u Hu%elem_of_seq. rewrite <- sum_over_add.
      destruct (A u) eqn:HAu; simpl.
      + symmetry. apply sum_over_zero. intros v _. rewrite andb_false_r. lia.
      + apply sum_over_ext. intros v Hv%elem_of_seq.
        rewrite (Hskew u v) by lia. destruct (A v); simpl; lia. }
  lia.
Qed.

Lemma flux_le n c t A : feasible n c t → (flux n t A ≤ cut_capacity n c A)%Z.
Proof.
  intros Ht. apply sum_over_le. intros u Hu%elem_of_seq.
  apply sum_over_le. intros v Hv%elem_of_seq.
  destruct (A u && negb (A v)); [|done]. apply (feasible_cap n c t Ht); lia.
Qed.

(** *** The rooms the residual corridors lead to *)

Definition reach (n : nat) (c t : matrix) (u : nat) : bool :=
  bool_decide (Exists (λ p, last p = Some u) (seq 0 n ≫= level n c t)).

Lemma reach_true n c t u :
  0 < n → reach n c t u = true ↔ ∃ p, simple_path n c t p ∧ last p = Some u.
Proof.
  intros Hn. unfold reach. rewrite bool_decide_eq_true, Exists_exists. split.
  - intros (p & (k & [Hp _]%elem_of_level & _)%list_elem_of_bind & Hlast). eauto.
  - intros (p & Hp & Hlast). exists p. split; [|done].
    apply list_elem_of_bind. exists (pred (length p)).
    pose proof (simple_path_length n c t p Hn Hp).
    assert (0 < length p) by (destruct p; [done|simpl; lia]).
    split; [apply elem_of_level; split; [done|lia]|]. apply elem_of_seq. lia.
Qed.

Lemma simple_path_prefix n c t p1 p2 :
  0 < n → simple_path n c t (p1 ++ p2) → p1 ≠ [] → simple_path n c t p1.
Proof.
  intros Hn Hp Hne. apply simple_path_intro.
  - apply simple_path_head in Hp. by destruct p1.
  - apply simple_path_NoDup in Hp. by apply NoDup_app in Hp as [? _].
  - apply (simple_path_rooms _ _ _ _ Hn) in Hp. by apply Forall_app in Hp as [? _].
  - intros i u v Hu Hv. apply (simple_path_edges n c t (p1 ++ p2) i); [done|..];
      by apply lookup_app_l_Some.
Qed.

Lemma reach_closed n c t u v :
  0 < n → reach n c t u = true → reach n c t v = false → v < n →
  (residual c t u v ≤ 0)%Z.
Proof.
  intros Hn (p & Hp & Hlast)%reach_true Hv Hvn; [|done].
  apply Z.nlt_ge. intros Hpos. apply not_true_iff_false in Hv. apply Hv.
  apply reach_true; [done|]. destruct (decide (v ∈ p)) as [Hin|Hnin].
  - apply list_elem_of_split in Hin as (p1 & p2 & ->). exists (p1 ++ [v]). split.
    + apply (simple_path_prefix n c t _ p2); [done| |by destruct p1].
      by rewrite <- app_assoc.
    + apply last_snoc.
  - exists (p ++ [v]). split; [|apply last_snoc]. by apply (simple_step _ _ _ _ u).
Qed.

(** When no path is left, the rooms still reached make a cut that the flow
    fills. *)
Lemma saturated_cut n c t :
  2 ≤ n → feasible n c t → (∀ q, ¬ augmenting_path n c t q) →
  reach n c t 0 = true ∧ reach n c t (n - 1) = false
  ∧ inflow n t = cut_capacity n c (reach n c t).
Proof.
  intros Hn Ht Hnone.
  assert (reach n c t 0 = true) as H0.
  { apply reach_true; [lia|]. exists [0]. split; [constructor|done]. }
  assert (reach n c t (n - 1) = false) as Hsink.
  { apply not_true_iff_false. intros (p & Hp & Hlast)%reach_true; [|lia].
    apply (Hnone p), augmenting_simple; [lia|]. split; [done|].
    unfold at_sink. rewrite Hlast. simpl. f_equal. lia. }
  split; [done|]. split; [done|].
  rewrite (inflow_flux n c t (reach n c t)) by done.
  apply sum_over_ext. intros u Hu%elem_of_seq.
  apply sum_over_ext. intros v Hv%elem_of_seq.
  destruct (reach n c t u) eqn:Hru; [|done].
  destruct (reach n c t v) eqn:Hrv; [done|]. simpl.
  pose proof (reach_closed n c t u v ltac:(lia) Hru Hrv ltac:(lia)) as Hle.
  pose proof (feasible_cap n c t Ht u v ltac:(lia) ltac:(lia)).
  unfold residual in Hle. lia.
Qed.

(** Max-flow min-cut for the engine: its result is the capacity of one cut
    between room 0 and the last room, and at most that of any other. *)
Lemma maximum_bunnies_rescuable_min_cut n c fuel :
  2 ≤ n → square n c → nonneg c → engine_fuel n c ≤ fuel →
  ∃ r, maximum_bunnies_rescuable fuel c = Ret r
       ∧ (0 ≤ r)%Z
       ∧ (∃ A, A 0 = true ∧ A (n - 1) = false ∧ r = cut_capacity n c A)
       ∧ (∀ A, A 0 = true → A (n - 1) = false → (r ≤ cut_capacity n c A)%Z).
Proof.
  intros Hn Hc Hpos Hfuel.
  destruct (maximum_bunnies_rescuable_run n c fuel Hn Hc Hpos Hfuel)
    as (t & k & _ & Ht & Hnone & Hrun & Hr).
  exists (inflow n t). split; [done|]. split; [done|]. split.
  - exists (reach n c t). by apply saturated_cut.
  - intros A HA0 HAn. rewrite (inflow_flux n c t A) by done. by apply flux_le.
Qed.

(** ** The reducer *)

Lemma starting_cons e es path v :
  starting (e :: es) path v = (entry path (Z.to_nat e) v + starting es path v)%Z.
Proof. done. Qed.

Lemma getitem_eq {A} (l : list A) i x : l !! i = Some x → getitem l i = Ret x.
Proof. intros H. unfold getitem. by rewrite H. Qed.

Lemma getitem_int_eq {A} (l : list A) (i : Z) x :
  (0 ≤ i)%Z → l !! Z.to_nat i = Some x → getitem_int l i = Ret x.
Proof.
  intros Hi Hx. unfold getitem_int. destruct (Z.leb_spec 0 i); [|lia].
  by apply getitem_eq.
Qed.

Lemma map_add_eq xs ys :
  length xs = length ys → map_add xs ys = Ret (zip_with Z.add xs ys).
Proof.
  revert ys. induction xs as [|x xs IH]; intros [|y ys] Hlen; try done.
  simpl. rewrite IH; [done|]. simpl in Hlen. lia.
Qed.

Lemma zip_with_add_row n (g : nat → Z) path u row :
  path !! u = Some row → length row = n →
  zip_with Z.add (g <$> seq 0 n) row = (λ v, g v + entry path u v)%Z <$> seq 0 n.
Proof.
  intros Hrow Hlen. apply list_eq. intros i.
  rewrite lookup_zip_with, !list_lookup_fmap. unfold entry. rewrite Hrow. simpl.
  destruct (decide (i < n)) as [Hi|Hi].
  - rewrite lookup_seq_lt by done. simpl.
    destruct (lookup_lt_is_Some_2 row i) as [x Hx]; [lia|]. by rewrite Hx.
  - by rewrite lookup_seq_ge by lia.
Qed.

Lemma replicate_fmap_seq {A} n (x : A) : replicate n x = (λ _, x) <$> seq 0 n.
Proof.
  generalize 0. induction n as [|n IH]; intros k; simpl; [done|]. by rewrite (IH (S k)).
Qed.

Section reducer.
Variables (n : nat) (entrances exits : list Z) (path : matrix).
Hypotheses (Hpath : square n path).
Hypotheses (Hin : in_range n entrances) (Hout : in_range n exits).

Let keep := kept n (entrances ++ exits).

Lemma kept_lt u : u ∈ keep → u < n.
Proof. intros [_ Hu%elem_of_seq]%list_elem_of_filter. lia. Qed.

Lemma starting_loop es (g : nat → Z) :
  in_range n es →
  for_each es
    (λ starting_bunnies entrance,
       row ← getitem_int path entrance; map_add starting_bunnies row)
    (g <$> seq 0 n)
  = Ret ((λ v, g v + starting es path v)%Z <$> seq 0 n).
Proof.
  intros Hes. revert g. induction Hes as [|e es He Hes IH]; intros g.
  - simpl. f_equal. apply list_fmap_ext. intros i v _.
    unfold starting, sum_over. simpl. lia.
  - cbn [for_each].
    destruct (square_lookup n path (Z.to_nat e) Hpath) as (row & Hrow & Hlen); [lia|].
    rewrite (getitem_int_eq _ _ row) by (done || lia). cbn [mbind result_bind].
    rewrite map_add_eq by (by rewrite length_fmap, length_seq).
    cbn [mbind result_bind]. rewrite (zip_with_add_row n g path (Z.to_nat e)) by done.
    rewrite IH. f_equal. apply list_fmap_ext. intros i v _.
    rewrite starting_cons. lia.
Qed.

Lemma escape_loop k j :
  k + j = n →
  for_each (seq k j)
    (λ escape_pods index,
       pointing_to_escape_pod ←
         comprehension
           (λ exit_index, row ← getitem path index; getitem_int row exit_index)
           exits;
       setitem escape_pods index (sumZ pointing_to_escape_pod))
    ((escaping exits path <$> seq 0 k) ++ replicate j 0%Z)
  = Ret (escaping exits path <$> seq 0 n).
Proof.
  revert k. induction j as [|j IH]; intros k Hk.
  - simpl. rewrite app_nil_r. by replace k with n by lia.
  - cbn [seq for_each].
    rewrite (comprehension_eq _ (λ x, entry path k (Z.to_nat x))).
    + cbn [mbind result_bind]. rewrite setitem_eq.
      * cbn [mbind result_bind].
        rewrite insert_app_r_alt by (by rewrite length_fmap, length_seq).
        rewrite length_fmap, length_seq, Nat.sub_diag. simpl.
        rewrite <- (IH (S k)) by lia.
        rewrite seq_S, fmap_app, <- app_assoc. done.
      * rewrite length_app, length_fmap, length_seq, length_replicate. lia.
    + intros x Hx. pose proof (proj1 (Forall_forall _ _) Hout x Hx) as Hx0.
      simpl in Hx0. destruct (square_entry n path k (Z.to_nat x) Hpath) as (row & Hrow & Hx');
        [lia..|].
      rewrite (getitem_eq _ _ row) by done. cbn [mbind result_bind].
      apply getitem_int_eq; [lia|done].
Qed.

Lemma zip_seq_fmap {B} (g : nat → B) k j :
  zip (seq k j) (g <$> seq k j) = (λ i, (i, g i)) <$> seq k j.
Proof. revert k. induction j as [|j IH]; intros k; simpl; [done|]. by rewrite <- IH. Qed.

Lemma rescued_sum (g : nat → Z) (l : list nat) :
  sumZ (filter (λ ib : nat * Z, Z.of_nat ib.1 ∈ exits)
               ((λ i, (i, (0 + g i)%Z)) <$> l)).*2
  = sum_over (filter (λ i, Z.of_nat i ∈ exits) l) g.
Proof.
  induction l as [|x l IH]; [done|].
  rewrite fmap_cons, !filter_cons. simpl fst.
  destruct (decide (Z.of_nat x ∈ exits)); [|done].
  rewrite fmap_cons, sum_over_cons, <- IH. simpl. lia.
Qed.

Lemma rows_loop (f : nat → list Z) (g : nat → Z) (l1 l2 : list nat) :
  comprehension
    (λ ir : nat * list Z,
       e ← getitem (g <$> (l1 ++ l2)) ir.1; Ret ([0%Z] ++ ir.2 ++ [e]))
    (zip (seq (length l1) (length l2)) (f <$> l2))
  = Ret ((λ u, [0%Z] ++ f u ++ [g u]) <$> l2).
Proof.
  revert l1. induction l2 as [|u l2 IH]; intros l1; [done|].
  cbn [length seq fmap list_fmap zip zip_with comprehension fst snd].
  rewrite (getitem_eq _ _ (g u)).
  - cbn [mbind result_bind].
    specialize (IH (l1 ++ [u])). rewrite length_app in IH.
    change (length [u]) with 1 in IH. rewrite Nat.add_1_r in IH.
    rewrite (cons_middle u l1 l2), (app_assoc l1 [u] l2). by rewrite IH.
  - rewrite list_lookup_fmap, list_lookup_middle; done.
Qed.

Lemma compressed_paths_eq :
  compressed_paths entrances exits path
  = Ret (bypass entrances exits path, reduced entrances exits path).
Proof.
  destruct Hpath as [Hlen Hrows]. unfold compressed_paths. rewrite Hlen.
  rewrite replicate_fmap_seq, starting_loop by done. cbn [mbind result_bind].
  rewrite <- replicate_fmap_seq.
  pose proof (escape_loop 0 n eq_refl) as Hesc. simpl in Hesc. rewrite Hesc.
  cbn [mbind result_bind].
  rewrite (comprehension_eq (getitem (escaping exits path <$> seq 0 n))
                            (escaping exits path)).
  2:{ intros u Hu%kept_lt. apply getitem_eq.
      by rewrite list_lookup_fmap, lookup_seq_lt. }
  rewrite (comprehension_eq (getitem _) (starting entrances path)).
  2:{ intros u Hu%kept_lt. apply getitem_eq.
      rewrite list_lookup_fmap, lookup_seq_lt by done. by simpl. }
  cbn [mbind result_bind]. unfold removed_indices. rewrite Hlen.
  rewrite (comprehension_eq _ (λ u, entry path u <$> kept n (entrances ++ exits))).
  2:{ intros u Hu%kept_lt. apply comprehension_eq. intros v Hv%kept_lt.
      by apply (getitem2_entry n). }
  cbn [mbind result_bind]. unfold enumerate.
  rewrite !length_fmap, length_seq.
  pose proof (rows_loop (λ u, entry path u <$> kept n (entrances ++ exits))
    (escaping exits path) [] (kept n (entrances ++ exits))) as Hr.
  rewrite (app_nil_l (kept n (entrances ++ exits))) in Hr.
  change (length (@nil nat)) with 0 in Hr.
  rewrite Hr. cbn [mbind result_bind].
  rewrite (getitem_eq (_ :: _) 0 _ eq_refl). cbn [mbind result_bind].
  f_equal. f_equal.
  - unfold bypass. rewrite Hlen.
    rewrite (zip_seq_fmap (λ v, (0 + starting entrances path v)%Z)).
    apply rescued_sum.
  - unfold reduced. rewrite Hlen.
    rewrite !length_app, length_fmap. simpl length. by rewrite <- app_comm_cons.
Qed.

End reducer.

(** *** The reduced matrix, entry by entry *)

Lemma sumZ_nonneg {A} (f : A → Z) l : (∀ x, 0 ≤ f x)%Z → (0 ≤ sumZ (f <$> l))%Z.
Proof.
  intros Hf. induction l as [|x l IH]; [done|].
  rewrite fmap_cons. simpl. specialize (Hf x). lia.
Qed.

Lemma starting_nonneg entrances path v :
  nonneg path → (0 ≤ starting entrances path v)%Z.
Proof. intros Hp. apply sumZ_nonneg. intros e. by apply nonneg_entry. Qed.

Lemma escaping_nonneg exits path u :
  nonneg path → (0 ≤ escaping exits path u)%Z.
Proof. intros Hp. apply sumZ_nonneg. intros e. by apply nonneg_entry. Qed.

Section reduced.
Variables (n : nat) (entrances exits : list Z) (path : matrix).
Hypothesis (Hlen : length path = n).

Let keep := kept n (entrances ++ exits).
Let m := length keep.
Let red := reduced entrances exits path.

Lemma framed_lookup_first (row : list Z) (x : Z) : ([0%Z] ++ row ++ [x]) !! 0 = Some 0%Z.
Proof. done. Qed.

Lemma framed_lookup_mid (row : list Z) (x y : Z) j :
  row !! j = Some y → ([0%Z] ++ row ++ [x]) !! S j = Some y.
Proof. intros Hj. simpl. by apply lookup_app_l_Some. Qed.

Lemma framed_lookup_last (row : list Z) (x : Z) :
  ([0%Z] ++ row ++ [x]) !! S (length row) = Some x.
Proof. simpl. by apply list_lookup_middle. Qed.

Lemma reduced_row_first :
  red !! 0 = Some ([0%Z] ++ (starting entrances path <$> keep) ++ [0%Z]).
Proof. unfold red, reduced. by rewrite Hlen. Qed.

Lemma reduced_row_mid i u :
  keep !! i = Some u →
  red !! S i = Some ([0%Z] ++ (entry path u <$> keep) ++ [escaping exits path u]).
Proof.
  intros Hi. unfold red, reduced. rewrite Hlen. fold keep. simpl.
  apply lookup_app_l_Some. by rewrite list_lookup_fmap, Hi.
Qed.

Lemma reduced_row_last : red !! S m = Some (replicate (S (m + 1)) 0%Z).
Proof.
  unfold red, reduced. rewrite Hlen. fold keep. fold m. simpl.
  apply list_lookup_middle. by rewrite length_fmap.
Qed.

Lemma reduced_square : square (m + 2) red.
Proof.
  split.
  - unfold red, reduced. rewrite Hlen. fold keep. simpl.
    rewrite length_app, length_fmap. simpl. fold m. lia.
  - unfold red, reduced. rewrite Hlen. fold keep. fold m.
    apply Forall_cons. split; [|apply Forall_app; split].
    + rewrite !length_app, length_fmap. simpl. fold m. lia.
    + apply Forall_fmap, Forall_forall. intros u _. simpl.
      rewrite length_app, length_fmap. simpl. fold m. lia.
    + repeat constructor. rewrite length_replicate. lia.
Qed.

Lemma reduced_from_source i u :
  keep !! i = Some u → entry red 0 (S i) = starting entrances path u.
Proof.
  intros Hi. unfold entry. rewrite reduced_row_first. simpl option_bind.
  cbn [mbind option_bind].
  rewrite (framed_lookup_mid _ _ (starting entrances path u)); [done|].
  by rewrite list_lookup_fmap, Hi.
Qed.

Lemma reduced_to_sink i u :
  keep !! i = Some u → entry red (S i) (S m) = escaping exits path u.
Proof.
  intros Hi. unfold entry. rewrite (reduced_row_mid i u Hi).
  cbn [mbind option_bind].
  replace (S m) with (S (length (entry path u <$> keep))) by (by rewrite length_fmap).
  by rewrite framed_lookup_last.
Qed.

Lemma reduced_between i j u v :
  keep !! i = Some u → keep !! j = Some v → entry red (S i) (S j) = entry path u v.
Proof.
  intros Hi Hj. unfold entry at 1. rewrite (reduced_row_mid i u Hi).
  cbn [mbind option_bind].
  rewrite (framed_lookup_mid _ _ (entry path u v)); [done|].
  by rewrite list_lookup_fmap, Hj.
Qed.

Lemma reduced_source_source : entry red 0 0 = 0%Z.
Proof. unfold entry. by rewrite reduced_row_first. Qed.

Lemma reduced_source_sink : entry red 0 (S m) = 0%Z.
Proof.
  unfold entry. rewrite reduced_row_first. cbn [mbind option_bind].
  replace (S m) with (S (length (starting entrances path <$> keep)))
    by (by rewrite length_fmap).
  by rewrite framed_lookup_last.
Qed.

Lemma reduced_to_source i : i < m → entry red (S i) 0 = 0%Z.
Proof.
  intros Hi. destruct (lookup_lt_is_Some_2 keep i Hi) as [u Hu].
  unfold entry. by rewrite (reduced_row_mid i u Hu).
Qed.

Lemma reduced_from_sink j : entry red (S m) j = 0%Z.
Proof.
  unfold entry. rewrite reduced_row_last. cbn [mbind option_bind].
  destruct (replicate (S (m + 1)) 0%Z !! j) as [x|] eqn:Hx; [|done].
  by apply lookup_replicate in Hx as [-> _].
Qed.

Lemma reduced_nonneg : nonneg path → nonneg red.
Proof.
  intros Hp. unfold red, reduced. rewrite Hlen. fold keep. fold m.
  assert (∀ (f : nat → Z) x, (∀ u, 0 ≤ f u)%Z → (0 ≤ x)%Z →
            Forall (λ x, 0 ≤ x)%Z ([0%Z] ++ (f <$> keep) ++ [x])) as Hrow.
  { intros f x Hf Hx. apply Forall_app. split; [by repeat constructor|].
    apply Forall_app. split; [|by repeat constructor].
    apply Forall_fmap, Forall_forall. intros u _. apply Hf. }
  apply Forall_cons. split; [|apply Forall_app; split].
  - apply Hrow; [|done]. intros u. by apply starting_nonneg.
  - apply Forall_fmap, Forall_forall. intros u _. simpl. apply Hrow.
    + intros v. by apply nonneg_entry.
    + by apply escaping_nonneg.
  - apply Forall_cons. split; [by apply Forall_replicate|constructor].
Qed.

End reduced.

(** ** More on runs *)

Lemma maximum_bunnies_rescuable_more fuel fuel' c r :
  fuel ≤ fuel' →
  maximum_bunnies_rescuable fuel c = Ret r → maximum_bunnies_rescuable fuel' c = Ret r.
Proof.
  intros Hle. unfold maximum_bunnies_rescuable.
  destruct (engine_loop fuel fuel c _ 0) as [[t k]| |] eqn:Hrun; try done.
  by rewrite (engine_loop_more fuel fuel' fuel fuel' c _ 0 (t, k) Hle Hle Hrun).
Qed.

Lemma solution_more fuel fuel' entrances exits path r :
  fuel ≤ fuel' →
  solution fuel entrances exits path = Ret r →
  solution fuel' entrances exits path = Ret r.
Proof.
  intros Hle. unfold solution.
  destruct (compressed_paths entrances exits path) as [[b cp]| |]; try done. simpl.
  destruct (maximum_bunnies_rescuable fuel cp) as [x| |] eqn:Hrun; try done.
  by rewrite (maximum_bunnies_rescuable_more fuel fuel' cp x Hle Hrun).
Qed.

Lemma inflow_le_source n c t :
  2 ≤ n → nonneg c → feasible n c t → (inflow n t ≤ capacity_out n c)%Z.
Proof.
  intros Hn Hc Ht.
  rewrite (inflow_flux n c t (λ u, bool_decide (u = 0))); [|done..|].
  2:{ apply bool_decide_eq_false_2. lia. }
  etrans; [by apply flux_le|]. unfold cut_capacity, flux.
  rewrite (sum_over_ext _ _ (λ u, if decide (u = 0)
    then sum_over (seq 0 n) (λ v, if bool_decide (v = 0) then 0%Z else entry c 0 v)
    else 0%Z)).
  - rewrite sum_over_seq_single by lia. apply sum_over_le. intros v _.
    case_bool_decide; [by apply nonneg_entry|done].
  - intros u _. destruct (decide (u = 0)) as [->|Hne].
    + apply sum_over_ext. intros v _.
      rewrite (bool_decide_eq_true_2 (0 = 0)) by done. by case_bool_decide.
    + apply sum_over_zero. intros v _. by rewrite (bool_decide_eq_false_2 (u = 0)).
Qed.

Lemma arriving_leaving n c t u :
  feasible n c t → u < n →
  (arriving n t u - leaving n t u)%Z = (- sum_over (seq 0 n) (entry t u))%Z.
Proof.
  intros Ht Hu. unfold arriving, leaving.
  rewrite <- sum_over_sub, <- sum_over_opp. apply sum_over_ext.
  intros v Hv%elem_of_seq. rewrite (feasible_skew n c t Ht v u) by lia. lia.
Qed.

Lemma column_row n c t u :
  feasible n c t → u < n →
  sum_over (seq 0 n) (λ v, entry t v u) = (- sum_over (seq 0 n) (entry t u))%Z.
Proof.
  intros Ht Hu. rewrite <- sum_over_opp. apply sum_over_ext.
  intros v Hv%elem_of_seq. apply (feasible_skew n c t Ht); lia.
Qed.

(** The float never reaches the traffic: whenever the second loop updates an
    entry, the first loop has already replaced [float('Inf')]. *)
Lemma for_each_app {A S} (xs ys : list A) (body : S → A → result S) acc :
  for_each (xs ++ ys) body acc = for_each xs body acc ≫= for_each ys body.
Proof.
  revert acc. induction xs as [|x xs IH]; intros acc; [done|].
  simpl. destruct (body acc x); simpl; [apply IH|done..].
Qed.

Lemma getitem2_no_float m u v : getitem2 m u v ≠ Raise FloatValue.
Proof.
  unfold getitem2, getitem. destruct (m !! u) as [row|]; [|done]. simpl.
  by destruct (row !! v).
Qed.

Lemma bottleneck_step_outcome c t prev bn item :
  match bottleneck_step c t (prev, bn) item with
  | Ret (_, Fin _) => True
  | Ret (_, Inf) => bn = Inf ∧ item.1 = 0
  | Raise e => e ≠ FloatValue
  | OutOfFuel => False
  end.
Proof.
  destruct item as [i x]. unfold bottleneck_step. case_bool_decide as Hi.
  - destruct prev as [pr|]; [|done]. cbn [as_index mbind result_bind].
    pose proof (getitem2_no_float c pr x). pose proof (getitem2_no_float t pr x).
    unfold getitem2, getitem in *.
    destruct (c !! pr) as [row|]; [|done]. simpl in *.
    destruct (row !! x) as [cx|]; [|done]. simpl in *.
    destruct (t !! pr) as [row'|]; [|done]. simpl in *.
    destruct (row' !! x) as [tx|]; [|done]. simpl. by destruct bn.
  - simpl. destruct bn; [|done]. split; [done|lia].
Qed.

Lemma bottleneck_loop_finite c t items prev z r :
  for_each items (bottleneck_step c t) (prev, Fin z) = Ret r → ∃ z', r.2 = Fin z'.
Proof.
  revert prev z. induction items as [|item items IH]; intros prev z.
  - intros [= <-]. by exists z.
  - cbn [for_each]. pose proof (bottleneck_step_outcome c t prev (Fin z) item) as Hs.
    destruct (bottleneck_step c t (prev, Fin z) item) as [[prev' [|z']]| |];
      [by destruct Hs|cbn [mbind result_bind]; apply IH|done..].
Qed.

Lemma bottleneck_loop_no_float c t items st :
  for_each items (bottleneck_step c t) st ≠ Raise FloatValue.
Proof.
  revert st. induction items as [|item items IH]; intros [prev bn]; [done|].
  cbn [for_each]. pose proof (bottleneck_step_outcome c t prev bn item) as Hs.
  destruct (bottleneck_step c t (prev, bn) item) as [st'|e|];
    cbn [mbind result_bind]; [apply IH|congruence|done].
Qed.

Lemma update2_no_float op m u v z :
  op = flow_add ∨ op = flow_sub → update2 op m u v (Fin z) ≠ Raise FloatValue.
Proof.
  intros Hop. unfold update2, getitem, setitem.
  destruct (m !! u) as [row|]; [|done]. simpl.
  destruct (row !! v) as [x|]; [|done]. simpl.
  destruct Hop as [-> | ->]; simpl; repeat case_bool_decide; done.
Qed.

Lemma traffic_step_no_float z st item :
  traffic_step (Fin z) st item ≠ Raise FloatValue.
Proof.
  destruct st as [prev t], item as [i x]. unfold traffic_step. case_bool_decide.
  - destruct prev as [pr|]; [|done]. cbn [as_index mbind result_bind].
    pose proof (update2_no_float flow_add t pr x z (or_introl eq_refl)) as H1.
    destruct (update2 flow_add t pr x (Fin z)) as [m|e|];
      cbn [mbind result_bind]; [|congruence|done].
    pose proof (update2_no_float flow_sub m x pr z (or_intror eq_refl)) as H2.
    destruct (update2 flow_sub m x pr (Fin z)) as [m'|e|];
      cbn [mbind result_bind]; [done|congruence|done].
  - done.
Qed.

Lemma traffic_loop_no_float z items st :
  for_each items (traffic_step (Fin z)) st ≠ Raise FloatValue.
Proof.
  revert st. induction items as [|item items IH]; intros st; [done|].
  cbn [for_each]. pose proof (traffic_step_no_float z st item) as Hs.
  destruct (traffic_step (Fin z) st item) as [st'|e|];
    cbn [mbind result_bind]; [apply IH|congruence|done].
Qed.

(** With [float('Inf')] still in hand after the first loop, the path has no
    corridor and the second loop writes nothing. *)
Lemma traffic_loop_untouched items st :
  Forall (λ item : nat * nat, item.1 = 0) items →
  ∃ prev, for_each items (traffic_step Inf) st = Ret (prev, st.2).
Proof.
  intros Hitems. revert st. induction Hitems as [|[i x] items Hi _ IH]; intros [prev t].
  - by exists prev.
  - simpl in Hi. subst i. cbn [for_each]. rewrite traffic_step_first.
    cbn [mbind result_bind snd]. apply IH.
Qed.

Lemma bottleneck_loop_inf c t items st r :
  for_each items (bottleneck_step c t) st = Ret r → r.2 = Inf →
  Forall (λ item : nat * nat, item.1 = 0) items.
Proof.
  revert st. induction items as [|item items IH]; intros [prev bn] Hr Hinf; [done|].
  cbn [for_each] in Hr. pose proof (bottleneck_step_outcome c t prev bn item) as Hs.
  destruct (bottleneck_step c t (prev, bn) item) as [[prev' [|z']]| |];
    cbn [mbind result_bind] in Hr; [|exfalso|done..].
  - destruct Hs as [_ Hs]. constructor; [done|]. by eapply IH.
  - apply bottleneck_loop_finite in Hr as [z'' Hz]. congruence.
Qed.

Lemma augment_no_float c t p : augment c t p ≠ Raise FloatValue.
Proof.
  unfold augment.
  pose proof (bottleneck_loop_no_float c t (enumerate p) (None, Inf)) as Hno.
  destruct (for_each (enumerate p) (bottleneck_step c t) (None, Inf))
    as [[prev bn]|e|] eqn:Hloop; cbn [mbind result_bind]; [|congruence|done].
  destruct bn as [|z].
  - apply bottleneck_loop_inf in Hloop; [|done].
    destruct (traffic_loop_untouched (enumerate p) (prev, t) Hloop) as [prev' ->].
    done.
  - pose proof (traffic_loop_no_float z (enumerate p) (prev, t)) as Hno'.
    destruct (for_each _ (traffic_step _) _) as [[? ?]|e|];
      cbn [mbind result_bind]; [done|congruence|done].
Qed.

(** *** Rooms by role *)

Lemma listed_rooms n (X : list Z) :
  NoDup X → in_range n X →
  filter (λ i, Z.of_nat i ∈ X) (seq 0 n) ≡ₚ Z.to_nat <$> X.
Proof.
  intros Hnd Hin. unfold in_range in Hin. rewrite Forall_forall in Hin.
  apply NoDup_Permutation.
  - apply NoDup_filter, NoDup_seq.
  - apply NoDup_fmap_2_strong; [|done].
    intros x y Hx%Hin Hy%Hin Hxy. lia.
  - intros u. rewrite list_elem_of_filter, elem_of_seq, list_elem_of_fmap. split.
    + intros [Hu _]. exists (Z.of_nat u). split; [lia|done].
    + intros (x & -> & Hx). specialize (Hin x Hx).
      rewrite Z2Nat.id by lia. split; [done|lia].
Qed.

(** The rooms are the listed ones and the ones kept. *)
Lemma rooms_split n (X : list Z) :
  NoDup X → in_range n X → seq 0 n ≡ₚ (Z.to_nat <$> X) ++ kept n X.
Proof.
  intros Hnd Hin. rewrite <- (listed_rooms n X Hnd Hin). unfold kept.
  symmetry. apply (filter_app_complement (λ i, Z.of_nat i ∈ X)).
Qed.

Lemma elem_of_kept n (X : list Z) u : u ∈ kept n X ↔ u < n ∧ Z.of_nat u ∉ X.
Proof. unfold kept. rewrite list_elem_of_filter, elem_of_seq. split; intros []; split; (done || lia). Qed.

Lemma bypass_direct n entrances exits path :
  length path = n → NoDup exits → in_range n exits →
  bypass entrances exits path
  = sum_over entrances (λ s,
      sum_over exits (λ t, entry path (Z.to_nat s) (Z.to_nat t))).
Proof.
  intros Hlen Hnd Hin. unfold bypass. rewrite Hlen.
  rewrite (sum_over_perm _ _ _ (listed_rooms n exits Hnd Hin)), sum_over_fmap.
  unfold starting. by rewrite sum_over_swap.
Qed.

(** *** Cuts of the reduced matrix and cuts of the original one *)

Lemma flux_ext n m (A B : nat → bool) :
  (∀ u, u < n → A u = B u) → flux n m A = flux n m B.
Proof.
  intros HAB. apply sum_over_ext. intros u Hu%elem_of_seq.
  apply sum_over_ext. intros v Hv%elem_of_seq.
  by rewrite (HAB u), (HAB v) by lia.
Qed.

(** Position of the first [u] in [l]. *)
Fixpoint position (u : nat) (l : list nat) : nat :=
  match l with
  | [] => 0
  | x :: l' => if decide (x = u) then 0 else S (position u l')
  end.

Lemma position_lookup l k u : NoDup l → l !! k = Some u → position u l = k.
Proof.
  intros Hnd. revert k. induction Hnd as [|x l Hx Hnd IH]; intros k Hk; [done|].
  simpl. destruct k as [|k]; simpl in Hk.
  - injection Hk as ->. by rewrite decide_True.
  - rewrite decide_False; [by rewrite (IH k)|].
    intros ->. apply Hx. by eapply list_elem_of_lookup_2.
Qed.

Section cuts_of_reduced.
Variables (n : nat) (entrances exits : list Z) (path : matrix).
Hypotheses (Hpath : square n path).
Hypotheses (Hin : in_range n entrances) (Hout : in_range n exits).
Hypothesis (Hnd : NoDup (entrances ++ exits)).

Let keep := kept n (entrances ++ exits).
Let m := length keep.
Let red := reduced entrances exits path.

(** Capacity from [u] to the kept rooms outside [a]. *)
Definition kept_outside (a : nat → bool) (u : nat) : Z :=
  sum_over keep (λ v, if a v then 0%Z else entry path u v).

(** A cut written over the kept rooms alone: from the entrances to the kept
    rooms outside [a], and from the kept rooms inside [a] to those outside
    and to the exits. *)
Definition kept_cut (a : nat → bool) : Z :=
  (sum_over keep (λ v, if a v then 0 else starting entrances path v)
   + sum_over keep (λ u,
       if a u then kept_outside a u + escaping exits path u else 0))%Z.

(** The side of the reduced matrix's rooms that [a] gives. *)
Definition reduced_side (a : nat → bool) (i : nat) : bool :=
  match i with
  | O => true
  | S k => match keep !! k with Some u => a u | None => false end
  end.

Lemma reduced_cut a :
  cut_capacity (m + 2) red (reduced_side a) = kept_cut a.
Proof.
  destruct Hpath as [Hlen _].
  assert (reduced_side a (S m) = false) as Hlast.
  { simpl. by rewrite (lookup_ge_None_2 keep m). }
  assert (reduced_side a 0 = true) as Hfirst by done.
  assert (∀ i,
    sum_over (seq 0 (S (S m))) (λ j,
      if reduced_side a i && negb (reduced_side a j) then entry red i j else 0%Z)
    = if reduced_side a i
      then (sum_over (seq 0 m) (λ l,
              if reduced_side a (S l) then 0 else entry red i (S l))
            + entry red i (S m))%Z
      else 0%Z) as Hinner.
  { intros i. rewrite sum_over_seq_ends, Hfirst, Hlast.
    destruct (reduced_side a i); cbn [andb negb].
    - rewrite (sum_over_ext (seq 0 m) _
        (λ l, if reduced_side a (S l) then 0%Z else entry red i (S l))); [lia|].
      intros l _. by destruct (reduced_side a (S l)).
    - rewrite sum_over_zero; done. }
  unfold cut_capacity, flux. replace (m + 2) with (S (S m)) by lia.
  rewrite sum_over_seq_ends, !Hinner, Hfirst, Hlast.
  unfold kept_cut. unfold red at 2. rewrite (reduced_source_sink n) by done.
  rewrite (sum_over_positions keep _
    (λ v, if a v then 0%Z else starting entrances path v) 0).
  2:{ intros k u Hk. simpl. rewrite Hk. destruct (a u); [done|].
      by apply (reduced_from_source n). }
  rewrite (sum_over_ext (seq 0 m) _ (λ k,
    if reduced_side a (S k)
    then (sum_over (seq 0 m) (λ l,
            if reduced_side a (S l) then 0 else entry red (S k) (S l))
          + entry red (S k) (S m))
    else 0)%Z).
  2:{ intros k _. by rewrite Hinner. }
  rewrite (sum_over_positions keep _ (λ u,
    if a u then (kept_outside a u + escaping exits path u)%Z else 0%Z) 0).
  2:{ intros k u Hk. simpl. rewrite Hk. destruct (a u); [|done].
      assert (entry red (S k) (S m) = escaping exits path u) as ->
        by (by apply (reduced_to_sink n)).
      f_equal.
      unfold kept_outside. apply (sum_over_positions keep).
      intros l v Hl. simpl. rewrite Hl. destruct (a v); [done|].
      by apply (reduced_between n). }
  lia.
Qed.

Lemma original_cut A :
  (∀ s, s ∈ entrances → A (Z.to_nat s) = true) →
  (∀ t, t ∈ exits → A (Z.to_nat t) = false) →
  cut_capacity n path A = (bypass entrances exits path + kept_cut A)%Z.
Proof.
  intros HS HT. destruct Hpath as [Hlen _].
  pose proof (proj1 (NoDup_app _ _) Hnd) as (Hnds & _ & Hndt).
  assert (in_range n (entrances ++ exits)) as Hall by (by apply Forall_app).
  pose proof (rooms_split n _ Hnd Hall) as Hperm. fold keep in Hperm.
  rewrite fmap_app, <- app_assoc in Hperm.
  assert (∀ u, sum_over (seq 0 n) (λ v,
                 if A u && negb (A v) then entry path u v else 0%Z)
               = if A u then (escaping exits path u + kept_outside A u)%Z else 0%Z)
    as Hinner.
  { intros u. destruct (A u); simpl; [|by apply sum_over_zero].
    rewrite (sum_over_perm _ _ _ Hperm), !sum_over_app, !sum_over_fmap.
    rewrite (sum_over_zero entrances).
    2:{ intros s Hs. simpl. by rewrite (HS s Hs). }
    rewrite (sum_over_ext exits _ (λ t, entry path u (Z.to_nat t))).
    2:{ intros t Ht. simpl. by rewrite (HT t Ht). }
    unfold escaping, kept_outside.
    rewrite (sum_over_ext keep _ (λ v, if A v then 0%Z else entry path u v)).
    2:{ intros v _. by destruct (A v). }
    lia. }
  unfold cut_capacity, flux.
  rewrite (sum_over_ext _ _ (λ u,
    if A u then (escaping exits path u + kept_outside A u)%Z else 0%Z))
    by (intros; apply Hinner).
  rewrite (sum_over_perm _ _ _ Hperm), !sum_over_app, !sum_over_fmap.
  rewrite (sum_over_ext entrances _ (λ s,
    sum_over exits (λ t, entry path (Z.to_nat s) (Z.to_nat t))
    + kept_outside A (Z.to_nat s))%Z).
  2:{ intros s Hs. simpl. by rewrite (HS s Hs). }
  rewrite (sum_over_zero exits).
  2:{ intros t Ht. simpl. by rewrite (HT t Ht). }
  rewrite sum_over_add, <- (bypass_direct n) by done.
  assert (sum_over entrances (λ s, kept_outside A (Z.to_nat s))
          = sum_over keep (λ v, if A v then 0%Z else starting entrances path v))
    as Hfrom.
  { unfold kept_outside. rewrite sum_over_swap. apply sum_over_ext.
    intros v _. destruct (A v); [by apply sum_over_zero|done]. }
  assert (sum_over keep (λ u,
            if A u then (escaping exits path u + kept_outside A u)%Z else 0%Z)
          = sum_over keep (λ u,
              if A u then (kept_outside A u + escaping exits path u)%Z else 0%Z))
    as Hflip.
  { apply sum_over_ext. intros u _. destruct (A u); lia. }
  unfold kept_cut. unfold compose. rewrite Hfrom, Hflip. lia.
Qed.

End cuts_of_reduced.

(** *** Runs of [solution] *)

Lemma least_Some l r : least l = Some r ↔ r ∈ l ∧ ∀ x, x ∈ l → (r ≤ x)%Z.
Proof.
  destruct l as [|x l]; simpl.
  - split; [done|]. by intros [?%elem_of_nil _].
  - assert (foldr Z.min x l ∈ x :: l ∧ ∀ y, y ∈ x :: l → (foldr Z.min x l ≤ y)%Z)
      as [Hin Hle].
    { induction l as [|y l [IHin IHle]]; simpl.
      - split; [left|]. by intros y ->%list_elem_of_singleton.
      - split.
        + destruct (Z.min_spec y (foldr Z.min x l)) as [[_ ->]|[_ ->]].
          * right. left.
          * apply elem_of_cons in IHin as [->|?]; [left|by do 2 right].
        + intros z Hz. assert (z = y ∨ z ∈ x :: l) as [->|Hz'].
          { apply elem_of_cons in Hz as [->|Hz]; [right; left|].
            apply elem_of_cons in Hz as [->|Hz]; [by left|by right; right]. }
          * lia.
          * specialize (IHle z Hz'). lia. }
    split.
    + by intros [= <-].
    + intros [Hr Hmin]. f_equal. specialize (Hle r Hr).
      specialize (Hmin _ Hin). lia.
Qed.

Lemma sides_complete n (A : nat → bool) :
  ∃ l, l ∈ sides n ∧ ∀ u, u < n → side l u = A u.
Proof.
  revert A. induction n as [|n IH]; intros A.
  - exists []. split; [left|]. intros u Hu. lia.
  - destruct (IH (A ∘ S)) as (l & Hl & Hside). exists (A 0 :: l). split.
    + simpl. apply list_elem_of_bind. exists l. split; [|done].
      destruct (A 0); [right|]; left.
    + intros [|u] Hu; [done|]. apply Hside. lia.
Qed.

Lemma separating_separates n l A entrances exits :
  in_range n entrances → in_range n exits →
  (∀ u, u < n → side l u = A u) →
  separating l entrances exits ↔ separates A entrances exits.
Proof.
  intros Hin Hout Hside. unfold separating, separates, in_range in *.
  rewrite !Forall_forall in *. split; intros [HS HT]; split.
  - intros s Hs. rewrite <- Hside; [by apply HS|]. apply Hin in Hs. lia.
  - intros t Ht. rewrite <- Hside; [by apply HT|]. apply Hout in Ht. lia.
  - intros s Hs. rewrite Hside; [by apply HS|]. apply Hin in Hs. lia.
  - intros t Ht. rewrite Hside; [by apply HT|]. apply Hout in Ht. lia.
Qed.

Lemma min_cut_value_min_cut n c entrances exits r :
  in_range n entrances → in_range n exits →
  min_cut_value n c entrances exits r → min_cut n c entrances exits = Some r.
Proof.
  intros Hin Hout [(A & HA & Hcut) Hmin]. apply least_Some. split.
  - destruct (sides_complete n A) as (l & Hl & Hside).
    apply list_elem_of_fmap. exists l. split.
    + rewrite <- Hcut. symmetry. by apply flux_ext.
    + apply list_elem_of_filter. split; [|done].
      by apply (separating_separates n l A).
  - intros x (l & -> & [Hl _]%list_elem_of_filter)%list_elem_of_fmap.
    apply Hmin. by apply (separating_separates n l (side l)).
Qed.

(** Iterations that are enough for a run of [solution]. *)
Definition solution_fuel (entrances exits : list Z) (path : matrix) : nat :=
  engine_fuel (length (kept (length path) (entrances ++ exits)) + 2)
              (reduced entrances exits path).

(** A run on a square matrix of non-negative capacities, whatever the index
    lists hold within the range. *)
Lemma solution_run n entrances exits path fuel :
  square n path → nonneg path → in_range n entrances → in_range n exits →
  solution_fuel entrances exits path ≤ fuel →
  let m := length (kept n (entrances ++ exits)) in
  let red := reduced entrances exits path in
  ∃ r, solution fuel entrances exits path
       = Ret (bypass entrances exits path + r)%Z
       ∧ (0 ≤ r)%Z
       ∧ (∃ A, A 0 = true ∧ A (S m) = false ∧ r = cut_capacity (m + 2) red A)
       ∧ (∀ A, A 0 = true → A (S m) = false → (r ≤ cut_capacity (m + 2) red A)%Z).
Proof.
  intros Hpath Hpos Hin Hout Hfuel m red. pose proof Hpath as [Hlen _].
  unfold solution_fuel in Hfuel. rewrite Hlen in Hfuel. fold m in Hfuel.
  destruct (maximum_bunnies_rescuable_min_cut (m + 2) red fuel)
    as (r & Hrun & Hr & Hcut & Hmin); [lia| | |done|].
  { by apply reduced_square. }
  { by apply (reduced_nonneg n). }
  replace (m + 2 - 1) with (S m) in * by lia.
  exists r. split; [|done]. unfold solution.
  rewrite (compressed_paths_eq n) by done. cbn [mbind result_bind].
  fold red. by rewrite Hrun.
Qed.

Lemma bypass_nonneg entrances exits path :
  nonneg path → (0 ≤ bypass entrances exits path)%Z.
Proof. intros Hp. apply sum_over_nonneg. intros v _. by apply starting_nonneg. Qed.

(** Max-flow min-cut for [solution]. *)
Lemma solution_min_cut n entrances exits path :
  square n path → nonneg path →
  in_range n entrances → in_range n exits → NoDup (entrances ++ exits) →
  ∃ r,
    (∀ fuel, solution_fuel entrances exits path ≤ fuel →
       solution fuel entrances exits path = Ret r)
    ∧ (0 ≤ r)%Z
    ∧ min_cut_value n path entrances exits r.
Proof.
  intros Hpath Hpos Hin Hout Hnd.
  set (keep := kept n (entrances ++ exits)). set (m := length keep).
  destruct (solution_run n entrances exits path (solution_fuel entrances exits path)
    Hpath Hpos Hin Hout ltac:(done)) as (r & Hrun & Hr & (A' & HA0 & HAm & Hcut) & Hmin).
  fold keep in HAm, Hcut, Hmin. fold m in HAm, Hcut, Hmin.
  exists (bypass entrances exits path + r)%Z.
  split; [intros fuel Hfuel; by apply (solution_more (solution_fuel entrances exits path))|].
  split; [pose proof (bypass_nonneg entrances exits path Hpos); lia|].
  pose proof (proj1 (Forall_forall _ _) Hin) as Hin'.
  pose proof (proj1 (Forall_forall _ _) Hout) as Hout'. simpl in Hin', Hout'.
  assert (NoDup keep) as Hndk by apply NoDup_filter, NoDup_seq.
  split.
  - set (a := λ u, A' (S (position u keep))).
    set (A := λ u, if decide (Z.of_nat u ∈ entrances) then true
                   else if decide (Z.of_nat u ∈ exits) then false else a u).
    assert (separates A entrances exits) as [HS HT].
    { split.
      - intros s Hs. unfold A. rewrite Z2Nat.id by (apply Hin' in Hs; lia).
        by rewrite decide_True.
      - intros t Ht. unfold A. rewrite Z2Nat.id by (apply Hout' in Ht; lia).
        rewrite decide_False, decide_True; [done..|].
        intros Hs. apply NoDup_app in Hnd as (_ & Hdis & _). by apply (Hdis t). }
    exists A. split; [done|].
    rewrite (original_cut n entrances exits path Hpath Hin Hout Hnd A HS HT).
    f_equal. rewrite Hcut.
    rewrite <- (reduced_cut n entrances exits path Hpath A).
    apply flux_ext. intros i Hi. destruct i as [|k]; [done|]. simpl.
    fold keep. destruct (keep !! k) as [u|] eqn:Hk.
    + unfold A. assert (u ∈ keep) as Hu by (by eapply list_elem_of_lookup_2).
      apply elem_of_kept in Hu as [_ Hu]. rewrite elem_of_app in Hu.
      rewrite !decide_False by tauto. unfold a.
      by rewrite (position_lookup keep k u).
    + apply lookup_ge_None in Hk. fold m in Hk.
      replace k with m by lia. done.
  - intros A [HS HT].
    rewrite (original_cut n entrances exits path Hpath Hin Hout Hnd A HS HT).
    rewrite <- (reduced_cut n entrances exits path Hpath A).
    assert (r ≤ cut_capacity (m + 2) (reduced entrances exits path)
                  (reduced_side n entrances exits A))%Z; [|fold keep; fold m; lia].
    apply Hmin; [done|]. simpl. fold keep. by rewrite (lookup_ge_None_2 keep m).
Qed.

(** The cut made of the entrances alone. *)
Lemma entrances_cut n entrances path :
  square n path → nonneg path → in_range n entrances → NoDup entrances →
  (cut_capacity n path (λ u, bool_decide (Z.of_nat u ∈ entrances))
   ≤ sum_over entrances (λ s, sum_over (seq 0 n) (entry path (Z.to_nat s))))%Z.
Proof.
  intros Hpath Hpos Hin Hnd.
  pose proof (proj1 (Forall_forall _ _) Hin) as Hin'. simpl in Hin'.
  unfold cut_capacity, flux.
  etrans; [apply (sum_over_le _ _ (λ u,
    if bool_decide (Z.of_nat u ∈ entrances)
    then sum_over (seq 0 n) (entry path u) else 0%Z))|].
  - intros u _. case_bool_decide; simpl; [|by rewrite sum_over_zero].
    apply sum_over_le. intros v _. case_bool_decide; simpl; [|done].
    by apply nonneg_entry.
  - rewrite (sum_over_perm _ _ _ (rooms_split n entrances Hnd Hin)).
    rewrite sum_over_app, sum_over_fmap, (sum_over_zero (kept n entrances)).
    + rewrite Z.add_0_r. apply Z.eq_le_incl, sum_over_ext. intros s Hs. simpl.
      rewrite bool_decide_eq_true_2; [done|]. rewrite Z2Nat.id; [done|].
      apply Hin' in Hs. lia.
    + intros u [_ Hu]%elem_of_kept. by rewrite bool_decide_eq_false_2.
Qed.

Lemma flux_mono n c c' A :
  (∀ u v, u < n → v < n → (entry c u v ≤ entry c' u v)%Z) →
  (flux n c A ≤ flux n c' A)%Z.
Proof.
  intros Hle. apply sum_over_le. intros u Hu%elem_of_seq.
  apply sum_over_le. intros v Hv%elem_of_seq.
  destruct (A u && negb (A v)); [|done]. apply Hle; lia.
Qed.

(** ** Paths the search returns *)

Lemma find_bunny_path_sound n c t fuel p :
  square n c → square n t →
  find_bunny_path fuel c t = Ret (Some p) → augmenting_path n c t p.
Proof.
  intros Hc Ht Hfind.
  pose proof (find_bunny_path_more fuel (fuel `max` search_fuel n) c t _
    ltac:(lia) Hfind) as Hfind'.
  destruct (find_bunny_path_outcome n c t (fuel `max` search_fuel n) Hc Ht ltac:(lia))
    as [(p' & Hp' & Haug & _)|[Hnone _]]; congruence.
Qed.

(** The first loop alone, on a path with at least one corridor. *)
Lemma bottleneck_loop_eq n c t p :
  square n c → square n t → Forall (λ x, x < n) p → 2 ≤ length p →
  for_each (enumerate p) (bottleneck_step c t) (None, Inf)
  = Ret (last p, Fin (bottleneck c t p)).
Proof.
  intros Hc Ht Hp Hlen. destruct p as [|x0 [|x1 rest]]; simpl in Hlen; [lia|lia|].
  inversion_clear Hp as [|? ? Hx0 Hp']. inversion_clear Hp' as [|? ? Hx1 Hrest].
  unfold enumerate. cbn [length seq zip zip_with for_each].
  rewrite bottleneck_step_first. cbn [mbind result_bind snd].
  rewrite (bottleneck_step_next n) by done. cbn [mbind result_bind bneck_min].
  rewrite (bottleneck_loop n) by done. by rewrite last_cons_cons.
Qed.

(** * Main results *)

(** ** Inputs used below *)

Definition scenario1 : matrix :=
  [[0;7;0;0]; [0;0;6;0]; [0;0;0;8]; [9;0;0;0]]%Z.

Definition scenario2 : matrix :=
  [[0;0;4;6;0;0]; [0;0;5;2;0;0]; [0;0;0;0;4;4]; [0;0;0;0;6;6];
   [0;0;0;0;0;0]; [0;0;0;0;0;0]]%Z.

Definition scenario3 : matrix := [[0;5]; [0;0]]%Z.

(** Scenario 1 after the reduction: rooms 0 and 3 have become the first and
    the last room. *)
Definition corridors1 : matrix :=
  [[0;7;0;0]; [0;0;6;0]; [0;0;0;8]; [0;0;0;0]]%Z.

(** The only augmenting path of [corridors1] while the traffic is zero. *)
Definition route1 : path := [0; 1; 2; 3].

Ltac concrete_square := split; [reflexivity|repeat constructor].
Ltac concrete_nonneg := repeat (constructor; try done).
Ltac concrete_range := repeat (constructor; try lia).

(** ** Scenarios *)

(** C2: [solution] returns 6, 16 and 5 on the three scenarios of the
    specification, whatever the number of iterations allowed from 30 on; on the
    third one the main loop stops at its first search, with no augmentation
    done and the traffic still zero. *)
Theorem solution_scenarios :
  (∀ fuel, 30 ≤ fuel → solution fuel [0]%Z [3]%Z scenario1 = Ret 6%Z)
  ∧ (∀ fuel, 30 ≤ fuel → solution fuel [0; 1]%Z [4; 5]%Z scenario2 = Ret 16%Z)
  ∧ (∀ fuel, 30 ≤ fuel → solution fuel [0]%Z [1]%Z scenario3 = Ret 5%Z)
  ∧ ∃ compressed_path,
      compressed_paths [0]%Z [1]%Z scenario3 = Ret (5%Z, compressed_path)
      ∧ ∀ fuel, 30 ≤ fuel →
          find_bunny_path fuel compressed_path (zero_traffic 2) = Ret None
          ∧ engine_loop fuel fuel compressed_path (zero_traffic 2) 0
            = Ret (zero_traffic 2, 0).
Proof.
  split; [|split; [|split]].
  - intros fuel Hfuel. by apply (solution_more 30).
  - intros fuel Hfuel. by apply (solution_more 30).
  - intros fuel Hfuel. by apply (solution_more 30).
  - exists [[0; 0]; [0; 0]]%Z. split; [done|]. intros fuel Hfuel. split.
    + by apply (find_bunny_path_more 30).
    + by apply (engine_loop_more 30 fuel 30 fuel).
Qed.

(** ** The path finder *)

(** C4: on square matrices of one size, given enough iterations,
    [find_bunny_path] returns either an augmenting path (from room 0 to the
    last room, every corridor with room left, no room twice) that has the
    fewest corridors among all augmenting paths and, among those of its
    length, takes the smaller room number where two of them part ways; or
    [None], and then there is no augmenting path.  It raises nothing. *)
Theorem find_bunny_path_shortest_first n c t :
  square n c → square n t →
  ∃ fuel0, ∀ fuel, fuel0 ≤ fuel →
    (∃ p, find_bunny_path fuel c t = Ret (Some p) ∧ augmenting_path n c t p
          ∧ ∀ q, augmenting_path n c t q →
              length p ≤ length q
              ∧ (length q = length p → q = p ∨ branches_before p q))
    ∨ (find_bunny_path fuel c t = Ret None ∧ ∀ q, ¬ augmenting_path n c t q).
Proof.
  intros Hc Ht. exists (search_fuel n). intros fuel Hfuel.
  by apply find_bunny_path_outcome.
Qed.

Lemma find_bunny_path_shortest_first_witness :
  square 4 corridors1 ∧ square 4 (zero_traffic 4)
  ∧ ∃ fuel0, ∀ fuel, fuel0 ≤ fuel →
      (∃ p, find_bunny_path fuel corridors1 (zero_traffic 4) = Ret (Some p)
            ∧ augmenting_path 4 corridors1 (zero_traffic 4) p
            ∧ ∀ q, augmenting_path 4 corridors1 (zero_traffic 4) q →
                length p ≤ length q
                ∧ (length q = length p → q = p ∨ branches_before p q))
      ∨ (find_bunny_path fuel corridors1 (zero_traffic 4) = Ret None
         ∧ ∀ q, ¬ augmenting_path 4 corridors1 (zero_traffic 4) q).
Proof.
  split; [concrete_square|]. split; [concrete_square|].
  apply (find_bunny_path_shortest_first 4 corridors1 (zero_traffic 4));
    concrete_square.
Defined.

(** ** The augmenter *)

Tactic Notation "concrete_entries" integer(k) :=
  let u := fresh "u" in let v := fresh "v" in
  intros u v ? ?;
  do k (destruct u as [|u]; [do k (destruct v as [|v]; [by vm_compute|]); lia|]);
  lia.

Tactic Notation "concrete_path" integer(k) :=
  split; [reflexivity|]; split; [reflexivity|];
  split; [by apply (bool_decide_unpack _)|];
  split; [by apply (bool_decide_unpack _)|];
  let i := fresh "i" in
  intros i ? ? ? ?;
  do k (destruct i as [|i]; [simplify_eq/=; by vm_compute|]); done.

(** C5: one augmentation keeps the flow matrix valid.  From a skew-symmetric
    traffic matrix with no negative residual capacity, the augmenter adds the
    bottleneck [b] of an augmenting path (the least residual capacity of its
    corridors) along each corridor of the path and subtracts it in the
    opposite direction; the new matrix is again skew-symmetric, no residual
    capacity is negative, and the corridor of the path where the bottleneck
    is attained has residual capacity 0. *)
Theorem augment_keeps_flow_valid n c t p :
  2 ≤ n → square n c → square n t →
  (∀ u v, u < n → v < n → entry t u v = (- entry t v u)%Z) →
  (∀ u v, u < n → v < n → (0 ≤ residual c t u v)%Z) →
  augmenting_path n c t p →
  ∃ t' b i u v,
    augment c t p = Ret t'
    ∧ p !! i = Some u ∧ p !! S i = Some v ∧ residual c t u v = b
    ∧ (∀ j x y, p !! j = Some x → p !! S j = Some y → (b ≤ residual c t x y)%Z)
    ∧ (∀ x y, entry t' x y
              = (entry t x y + b * (path_crossings p x y - path_crossings p y x))%Z)
    ∧ square n t'
    ∧ (∀ x y, x < n → y < n → entry t' x y = (- entry t' y x)%Z)
    ∧ (∀ x y, x < n → y < n → (0 ≤ residual c t' x y)%Z)
    ∧ residual c t' u v = 0%Z.
Proof.
  intros Hn Hc Ht Hskew Hres Hp.
  pose proof (augmenting_path_length n c t p Hn Hp) as Hlen.
  destruct Hp as (Hhd & Hlast & Hnd & Hrooms & Hpos).
  destruct (pushed_saturates n c t p Ht Hnd Hrooms Hlen) as (i & u & v & Hu & Hv & Hb & Hzero).
  exists (pushed t p (bottleneck c t p)), (bottleneck c t p), i, u, v.
  split; [by apply (augment_eq n)|]. do 3 (split; [done|]).
  split.
  { intros j x y Hx Hy. apply bottleneck_le, path_crossings_lookup. eauto. }
  split; [intros x y; by apply (entry_pushed n)|].
  split; [by apply pushed_square|].
  split; [by apply (pushed_skew n)|].
  split; [|done]. intros x y Hx Hy. unfold residual.
  assert (entry (pushed t p (bottleneck c t p)) x y ≤ entry c x y)%Z; [|lia].
  apply (pushed_cap n c t p); try done.
  intros a b Ha Hb'. specialize (Hres a b Ha Hb'). unfold residual in Hres. lia.
Qed.

Lemma augment_keeps_flow_valid_witness :
  2 ≤ 4 ∧ square 4 corridors1 ∧ square 4 (zero_traffic 4)
  ∧ augmenting_path 4 corridors1 (zero_traffic 4) route1
  ∧ ∃ t' b i u v,
      augment corridors1 (zero_traffic 4) route1 = Ret t'
      ∧ route1 !! i = Some u ∧ route1 !! S i = Some v
      ∧ residual corridors1 (zero_traffic 4) u v = b
      ∧ (∀ j x y, route1 !! j = Some x → route1 !! S j = Some y →
           (b ≤ residual corridors1 (zero_traffic 4) x y)%Z)
      ∧ (∀ x y, entry t' x y
                = (entry (zero_traffic 4) x y
                   + b * (path_crossings route1 x y
                          - path_crossings route1 y x))%Z)
      ∧ square 4 t'
      ∧ (∀ x y, x < 4 → y < 4 → entry t' x y = (- entry t' y x)%Z)
      ∧ (∀ x y, x < 4 → y < 4 → (0 ≤ residual corridors1 t' x y)%Z)
      ∧ residual corridors1 t' u v = 0%Z.
Proof.
  split; [lia|]. split; [concrete_square|]. split; [concrete_square|].
  split; [concrete_path 4|].
  apply (augment_keeps_flow_valid 4 corridors1 (zero_traffic 4) route1).
  - lia.
  - concrete_square.
  - concrete_square.
  - concrete_entries 4.
  - concrete_entries 4.
  - concrete_path 4.
Defined.

(** ** The engine *)

(** C6: on a square matrix of non-negative capacities with at least two
    rooms the main loop terminates.  The zero traffic is a feasible flow;
    every round that finds a path keeps the flow feasible and raises the
    traffic into the last room by at least 1; that traffic never exceeds the
    capacity of the corridors out of room 0; a round that finds no path ends
    the loop; and from some number of allowed iterations on,
    [maximum_bunnies_rescuable] returns one and the same integer. *)
Theorem engine_terminates n c :
  2 ≤ n → square n c → nonneg c →
  feasible n c (zero_traffic n)
  ∧ (∀ t p fuel, feasible n c t → find_bunny_path fuel c t = Ret (Some p) →
       ∃ t', augment c t p = Ret t' ∧ feasible n c t'
             ∧ (inflow n t + 1 ≤ inflow n t')%Z)
  ∧ (∀ t, feasible n c t → (inflow n t ≤ capacity_out n c)%Z)
  ∧ (∀ t k fuel0 fuel, find_bunny_path fuel0 c t = Ret None →
       engine_loop fuel0 (S fuel) c t k = Ret (t, k))
  ∧ ∃ r fuel0, (0 ≤ r ≤ capacity_out n c)%Z
      ∧ ∀ fuel, fuel0 ≤ fuel → maximum_bunnies_rescuable fuel c = Ret r.
Proof.
  intros Hn Hc Hpos. split; [by apply feasible_zero|]. split; [|split; [|split]].
  - intros t p fuel Ht Hfind.
    pose proof (find_bunny_path_sound n c t fuel p Hc (feasible_square _ _ _ Ht) Hfind)
      as Hp.
    destruct (feasible_augment n c t p Hn Hc Ht Hp) as (Haug & Ht' & Hb & Hin).
    exists (pushed t p (bottleneck c t p)). split; [done|]. split; [done|]. lia.
  - intros t Ht. by apply inflow_le_source.
  - intros t k fuel0 fuel Hfind. simpl. by rewrite Hfind.
  - destruct (maximum_bunnies_rescuable_run n c (engine_fuel n c) Hn Hc Hpos)
      as (t & k & _ & Ht & _ & Hrun & Hr); [done|].
    exists (inflow n t), (engine_fuel n c). split.
    + split; [done|]. by apply inflow_le_source.
    + intros fuel Hfuel. by apply (maximum_bunnies_rescuable_more (engine_fuel n c)).
Qed.

Lemma engine_terminates_witness :
  2 ≤ 4 ∧ square 4 corridors1 ∧ nonneg corridors1
  ∧ feasible 4 corridors1 (zero_traffic 4)
  ∧ (∀ t p fuel, feasible 4 corridors1 t →
       find_bunny_path fuel corridors1 t = Ret (Some p) →
       ∃ t', augment corridors1 t p = Ret t' ∧ feasible 4 corridors1 t'
             ∧ (inflow 4 t + 1 ≤ inflow 4 t')%Z)
  ∧ (∀ t, feasible 4 corridors1 t → (inflow 4 t ≤ capacity_out 4 corridors1)%Z)
  ∧ (∀ t k fuel0 fuel, find_bunny_path fuel0 corridors1 t = Ret None →
       engine_loop fuel0 (S fuel) corridors1 t k = Ret (t, k))
  ∧ ∃ r fuel0, (0 ≤ r ≤ capacity_out 4 corridors1)%Z
      ∧ ∀ fuel, fuel0 ≤ fuel → maximum_bunnies_rescuable fuel corridors1 = Ret r.
Proof.
  split; [lia|]. split; [concrete_square|]. split; [concrete_nonneg|].
  apply (engine_terminates 4 corridors1); [lia|concrete_square|concrete_nonneg].
Defined.

(** C7: when the engine has finished (on a square matrix of non-negative
    capacities with at least two rooms), the final traffic matrix conserves
    flow: in every room other than room 0 and the last room, as many bunnies
    arrive as leave, and the row and the column of the room in the signed
    matrix sum to the same value; the result returned is the sum of the
    entries of the last column. *)
Theorem final_traffic_conserved n c :
  2 ≤ n → square n c → nonneg c →
  ∃ fuel0, ∀ fuel, fuel0 ≤ fuel →
    ∃ t k, engine_loop fuel fuel c (zero_traffic n) 0 = Ret (t, k)
      ∧ find_bunny_path fuel c t = Ret None
      ∧ (∀ u, 0 < u → S u < n →
           arriving n t u = leaving n t u
           ∧ sum_over (seq 0 n) (λ v, entry t v u) = sum_over (seq 0 n) (entry t u))
      ∧ maximum_bunnies_rescuable fuel c
        = Ret (sum_over (seq 0 n) (λ u, entry t u (n - 1))).
Proof.
  intros Hn Hc Hpos. exists (engine_fuel n c). intros fuel Hfuel.
  destruct (maximum_bunnies_rescuable_run n c fuel Hn Hc Hpos Hfuel)
    as (t & k & Hloop & Ht & Hnone & Hrun & _).
  exists t, k. split; [done|]. split; [|split; [|done]].
  - unfold engine_fuel in Hfuel.
    destruct (find_bunny_path_outcome n c t fuel Hc (feasible_square _ _ _ Ht)
      ltac:(lia)) as [(p & _ & Hp & _)|[Hfind _]]; [|done]. by destruct (Hnone p).
  - intros u Hu0 Hun.
    pose proof (feasible_conserved n c t Ht u Hu0 Hun) as Hrow.
    pose proof (arriving_leaving n c t u Ht ltac:(lia)).
    pose proof (column_row n c t u Ht ltac:(lia)). lia.
Qed.

Lemma final_traffic_conserved_witness :
  2 ≤ 4 ∧ square 4 corridors1 ∧ nonneg corridors1
  ∧ ∃ fuel0, ∀ fuel, fuel0 ≤ fuel →
      ∃ t k, engine_loop fuel fuel corridors1 (zero_traffic 4) 0 = Ret (t, k)
        ∧ find_bunny_path fuel corridors1 t = Ret None
        ∧ (∀ u, 0 < u → S u < 4 →
             arriving 4 t u = leaving 4 t u
             ∧ sum_over (seq 0 4) (λ v, entry t v u) = sum_over (seq 0 4) (entry t u))
        ∧ maximum_bunnies_rescuable fuel corridors1
          = Ret (sum_over (seq 0 4) (λ u, entry t u (4 - 1))).
Proof.
  split; [lia|]. split; [concrete_square|]. split; [concrete_nonneg|].
  apply (final_traffic_conserved 4 corridors1); [lia|concrete_square|concrete_nonneg].
Defined.

(** C10: the traffic holds integers only.  The one float of the program,
    [float('Inf')], is the initial value of the bottleneck; the augmenter
    never adds it to the traffic, on any input.  A path that
    [find_bunny_path] returns (two rooms at least) has a corridor, so the
    first loop ends with a finite integer, the least residual capacity on
    the path, and that integer is what the second loop applies.  On a
    square matrix of non-negative integer capacities the engine returns an
    integer. *)
Theorem traffic_stays_integer :
  (∀ c t p, augment c t p ≠ Raise FloatValue)
  ∧ (∀ n c t p fuel,
       2 ≤ n → square n c → square n t →
       find_bunny_path fuel c t = Ret (Some p) →
       2 ≤ length p
       ∧ for_each (enumerate p) (bottleneck_step c t) (None, Inf)
         = Ret (last p, Fin (bottleneck c t p))
       ∧ augment c t p = Ret (pushed t p (bottleneck c t p)))
  ∧ (∀ n c, 2 ≤ n → square n c → nonneg c →
       ∃ (r : Z) fuel0, ∀ fuel, fuel0 ≤ fuel →
         maximum_bunnies_rescuable fuel c = Ret r).
Proof.
  split; [apply augment_no_float|]. split.
  - intros n c t p fuel Hn Hc Ht Hfind.
    pose proof (find_bunny_path_sound n c t fuel p Hc Ht Hfind) as Hp.
    pose proof (augmenting_path_length n c t p Hn Hp) as Hlen.
    destruct Hp as (_ & _ & _ & Hrooms & _).
    split; [done|]. split; [by apply (bottleneck_loop_eq n)|by apply (augment_eq n)].
  - intros n c Hn Hc Hpos.
    destruct (maximum_bunnies_rescuable_run n c (engine_fuel n c) Hn Hc Hpos)
      as (t & k & _ & _ & _ & Hrun & _); [done|].
    exists (inflow n t), (engine_fuel n c). intros fuel Hfuel.
    by apply (maximum_bunnies_rescuable_more (engine_fuel n c)).
Qed.

(** ** The reducer *)

(** C3: for a square matrix of size [n] and lists of distinct, mutually
    disjoint source and sink indices within [0, n), [compressed_paths]
    returns as bypass flow the sum of [path[s][t]] over all sources [s] and
    sinks [t], and a square matrix of size [n - |S| - |T| + 2].  With the
    surviving rooms (those that are neither source nor sink) listed in
    increasing order, the [i]-th of them sitting at index [i + 1]: row 0
    holds for each surviving room the sum of the capacities from the sources
    into it, the last column the sum of its capacities into the sinks, the
    corridors between surviving rooms keep their capacity, and the last row
    is zero. *)
Theorem compressed_paths_reduces n entrances exits path :
  square n path → in_range n entrances → in_range n exits →
  NoDup (entrances ++ exits) →
  let keep := kept n (entrances ++ exits) in
  let m := length keep in
  ∃ new_path,
    compressed_paths entrances exits path
    = Ret (sum_over entrances (λ s,
             sum_over exits (λ t, entry path (Z.to_nat s) (Z.to_nat t))),
           new_path)
    ∧ square (m + 2) new_path
    ∧ m + 2 + length entrances + length exits = n + 2
    ∧ (∀ u, u ∈ keep ↔ u < n ∧ (Z.of_nat u ∉ entrances) ∧ (Z.of_nat u ∉ exits))
    ∧ StronglySorted lt keep
    ∧ (∀ i u, keep !! i = Some u →
         entry new_path 0 (S i)
         = sum_over entrances (λ s, entry path (Z.to_nat s) u))
    ∧ (∀ i u, keep !! i = Some u →
         entry new_path (S i) (S m)
         = sum_over exits (λ t, entry path u (Z.to_nat t)))
    ∧ (∀ i j u v, keep !! i = Some u → keep !! j = Some v →
         entry new_path (S i) (S j) = entry path u v)
    ∧ (∀ j, entry new_path (S m) j = 0%Z).
Proof.
  intros Hpath Hin Hout Hnd keep m. exists (reduced entrances exits path).
  pose proof Hpath as [Hlen _].
  pose proof (proj1 (NoDup_app _ _) Hnd) as (_ & _ & Hndx).
  split.
  { rewrite (compressed_paths_eq n) by done. by rewrite (bypass_direct n). }
  split; [by apply reduced_square|]. split.
  { assert (in_range n (entrances ++ exits)) as Hall by (by apply Forall_app).
    pose proof (rooms_split n _ Hnd Hall) as Hperm.
    apply Permutation_length in Hperm.
    rewrite length_seq, length_app, length_fmap, length_app in Hperm.
    fold keep in Hperm. fold m in Hperm. lia. }
  split.
  { intros u. unfold keep. rewrite elem_of_kept, elem_of_app. tauto. }
  split; [apply filter_sorted, seq_sorted|].
  split; [intros i u; by apply reduced_from_source|].
  split; [intros i u; by apply reduced_to_sink|].
  split; [intros i j u v; by apply reduced_between|].
  intros j. by apply reduced_from_sink.
Qed.

Lemma compressed_paths_reduces_witness :
  square 6 scenario2 ∧ in_range 6 [0; 1]%Z ∧ in_range 6 [4; 5]%Z
  ∧ NoDup ([0; 1] ++ [4; 5])%Z
  ∧ ∃ new_path,
      compressed_paths [0; 1]%Z [4; 5]%Z scenario2
      = Ret (sum_over [0; 1]%Z (λ s,
               sum_over [4; 5]%Z (λ t, entry scenario2 (Z.to_nat s) (Z.to_nat t))),
             new_path)
      ∧ square (length (kept 6 ([0; 1] ++ [4; 5])%Z) + 2) new_path
      ∧ length (kept 6 ([0; 1] ++ [4; 5])%Z) + 2 + length [0; 1]%Z + length [4; 5]%Z
        = 6 + 2
      ∧ (∀ u, u ∈ kept 6 ([0; 1] ++ [4; 5])%Z
              ↔ u < 6 ∧ (Z.of_nat u ∉ [0; 1]%Z) ∧ (Z.of_nat u ∉ [4; 5]%Z))
      ∧ StronglySorted lt (kept 6 ([0; 1] ++ [4; 5])%Z)
      ∧ (∀ i u, kept 6 ([0; 1] ++ [4; 5])%Z !! i = Some u →
           entry new_path 0 (S i)
           = sum_over [0; 1]%Z (λ s, entry scenario2 (Z.to_nat s) u))
      ∧ (∀ i u, kept 6 ([0; 1] ++ [4; 5])%Z !! i = Some u →
           entry new_path (S i) (S (length (kept 6 ([0; 1] ++ [4; 5])%Z)))
           = sum_over [4; 5]%Z (λ t, entry scenario2 u (Z.to_nat t)))
      ∧ (∀ i j u v, kept 6 ([0; 1] ++ [4; 5])%Z !! i = Some u →
           kept 6 ([0; 1] ++ [4; 5])%Z !! j = Some v →
           entry new_path (S i) (S j) = entry scenario2 u v)
      ∧ (∀ j, entry new_path (S (length (kept 6 ([0; 1] ++ [4; 5])%Z))) j = 0%Z).
Proof.
  split; [concrete_square|]. split; [concrete_range|]. split; [concrete_range|].
  split; [by apply (bool_decide_unpack _)|].
  apply (compressed_paths_reduces 6 [0; 1]%Z [4; 5]%Z scenario2).
  - concrete_square.
  - concrete_range.
  - concrete_range.
  - by apply (bool_decide_unpack _).
Defined.



(** ** The whole computation *)

(** C1: for a square matrix of non-negative capacities and lists of
    distinct, mutually disjoint source and sink indices within range,
    [solution] returns the least capacity of a cut that separates the
    sources from the sinks: some set of rooms with every source inside and
    every sink outside has corridors of exactly that total capacity leaving
    it, and no such set has less; it is the value [min_cut] finds by going
    through all sets of rooms. *)
Theorem solution_is_min_cut n entrances exits path :
  square n path → nonneg path →
  in_range n entrances → in_range n exits → NoDup (entrances ++ exits) →
  ∃ r fuel0,
    (∀ fuel, fuel0 ≤ fuel → solution fuel entrances exits path = Ret r)
    ∧ min_cut_value n path entrances exits r
    ∧ min_cut n path entrances exits = Some r.
Proof.
  intros Hpath Hpos Hin Hout Hnd.
  destruct (solution_min_cut n entrances exits path Hpath Hpos Hin Hout Hnd)
    as (r & Hrun & _ & Hmin).
  exists r, (solution_fuel entrances exits path).
  split; [done|]. split; [done|]. by apply min_cut_value_min_cut.
Qed.

Lemma solution_is_min_cut_witness :
  square 6 scenario2 ∧ nonneg scenario2
  ∧ in_range 6 [0; 1]%Z ∧ in_range 6 [4; 5]%Z ∧ NoDup ([0; 1] ++ [4; 5])%Z
  ∧ ∃ r fuel0,
      (∀ fuel, fuel0 ≤ fuel → solution fuel [0; 1]%Z [4; 5]%Z scenario2 = Ret r)
      ∧ min_cut_value 6 scenario2 [0; 1]%Z [4; 5]%Z r
      ∧ min_cut 6 scenario2 [0; 1]%Z [4; 5]%Z = Some r.
Proof.
  split; [concrete_square|]. split; [concrete_nonneg|].
  split; [concrete_range|]. split; [concrete_range|].
  split; [by apply (bool_decide_unpack _)|].
  apply (solution_is_min_cut 6 [0; 1]%Z [4; 5]%Z scenario2).
  - concrete_square.
  - concrete_nonneg.
  - concrete_range.
  - concrete_range.
  - by apply (bool_decide_unpack _).
Defined.

(** C8: under the same preconditions the result of [solution] is
    non-negative and at most the sum of the capacities of all corridors
    that leave a source. *)
Theorem solution_bounded n entrances exits path :
  square n path → nonneg path →
  in_range n entrances → in_range n exits → NoDup (entrances ++ exits) →
  ∃ r fuel0,
    (∀ fuel, fuel0 ≤ fuel → solution fuel entrances exits path = Ret r)
    ∧ (0 ≤ r
       ≤ sum_over entrances (λ s, sum_over (seq 0 n) (entry path (Z.to_nat s))))%Z.
Proof.
  intros Hpath Hpos Hin Hout Hnd.
  destruct (solution_min_cut n entrances exits path Hpath Hpos Hin Hout Hnd)
    as (r & Hrun & Hr & _ & Hmin).
  exists r, (solution_fuel entrances exits path). split; [done|]. split; [done|].
  pose proof (proj1 (NoDup_app _ _) Hnd) as (Hnds & Hdis & _).
  pose proof (proj1 (Forall_forall _ _) Hin) as Hin'.
  pose proof (proj1 (Forall_forall _ _) Hout) as Hout'. simpl in Hin', Hout'.
  etrans; [apply (Hmin (λ u, bool_decide (Z.of_nat u ∈ entrances)))|].
  - split.
    + intros s Hs. apply bool_decide_eq_true_2. rewrite Z2Nat.id; [done|].
      apply Hin' in Hs. lia.
    + intros t Ht. apply bool_decide_eq_false_2. rewrite Z2Nat.id.
      * intros Hs. by apply (Hdis t).
      * apply Hout' in Ht. lia.
  - by apply entrances_cut.
Qed.

Lemma solution_bounded_witness :
  square 6 scenario2 ∧ nonneg scenario2
  ∧ in_range 6 [0; 1]%Z ∧ in_range 6 [4; 5]%Z ∧ NoDup ([0; 1] ++ [4; 5])%Z
  ∧ ∃ r fuel0,
      (∀ fuel, fuel0 ≤ fuel → solution fuel [0; 1]%Z [4; 5]%Z scenario2 = Ret r)
      ∧ (0 ≤ r
         ≤ sum_over [0; 1]%Z
             (λ s, sum_over (seq 0 6) (entry scenario2 (Z.to_nat s))))%Z.
Proof.
  split; [concrete_square|]. split; [concrete_nonneg|].
  split; [concrete_range|]. split; [concrete_range|].
  split; [by apply (bool_decide_unpack _)|].
  apply (solution_bounded 6 [0; 1]%Z [4; 5]%Z scenario2).
  - concrete_square.
  - concrete_nonneg.
  - concrete_range.
  - concrete_range.
  - by apply (bool_decide_unpack _).
Defined.

(** ** Malformed input *)

Definition overlapping : matrix := [[0; 1]; [0; 0]]%Z.
Definition negative : matrix := [[0; -5]; [0; 0]]%Z.

(** C9, as stated, fails: [solution] checks nothing.  With room 0 both an
    entrance and an exit it returns 0; with no entrance it returns 0; with a
    negative capacity it returns that capacity; with the exit index -1
    (Python's last room) it returns 0.  No error is raised in any of the
    four runs. *)
Lemma solution_accepts_malformed_input :
  solution 30 [0]%Z [0]%Z overlapping = Ret 0%Z
  ∧ solution 30 []%Z [1]%Z scenario3 = Ret 0%Z
  ∧ solution 30 [0]%Z [1]%Z negative = Ret (-5)%Z
  ∧ solution 30 [0]%Z [-1]%Z scenario3 = Ret 0%Z.
Proof. by vm_compute. Qed.

(** C9, amended: [solution] has no input validation and no error of its
    own.  On a square matrix of non-negative capacities with all indices
    within range it raises nothing and returns a non-negative integer,
    whether or not the entrances and the exits overlap, are empty or repeat
    an index: a room that is both entrance and exit is processed, it is
    left out of the reduced matrix like every other entrance and exit. *)
Theorem solution_validates_nothing n entrances exits path :
  square n path → nonneg path → in_range n entrances → in_range n exits →
  ∃ r fuel0,
    (∀ fuel, fuel0 ≤ fuel → solution fuel entrances exits path = Ret r)
    ∧ (0 ≤ r)%Z
    ∧ ∃ compressed_path,
        compressed_paths entrances exits path
        = Ret (bypass entrances exits path, compressed_path)
        ∧ length compressed_path = length (kept n (entrances ++ exits)) + 2
        ∧ ∀ u, u ∈ kept n (entrances ++ exits)
               ↔ u < n ∧ (Z.of_nat u ∉ entrances) ∧ (Z.of_nat u ∉ exits).
Proof.
  intros Hpath Hpos Hin Hout.
  destruct (solution_run n entrances exits path (solution_fuel entrances exits path)
    Hpath Hpos Hin Hout ltac:(done)) as (r & Hrun & Hr & _).
  exists (bypass entrances exits path + r)%Z, (solution_fuel entrances exits path).
  split; [intros fuel Hfuel; by apply (solution_more (solution_fuel entrances exits path))|].
  split; [pose proof (bypass_nonneg entrances exits path Hpos); lia|].
  exists (reduced entrances exits path). split; [by apply (compressed_paths_eq n)|].
  destruct Hpath as [Hlen _]. split.
  - by destruct (reduced_square n entrances exits path Hlen) as [-> _].
  - intros u. rewrite elem_of_kept, elem_of_app. tauto.
Qed.

Lemma solution_validates_nothing_witness :
  square 2 overlapping ∧ nonneg overlapping
  ∧ in_range 2 [0]%Z ∧ in_range 2 [0]%Z
  ∧ ∃ r fuel0,
      (∀ fuel, fuel0 ≤ fuel → solution fuel [0]%Z [0]%Z overlapping = Ret r)
      ∧ (0 ≤ r)%Z
      ∧ ∃ compressed_path,
          compressed_paths [0]%Z [0]%Z overlapping
          = Ret (bypass [0]%Z [0]%Z overlapping, compressed_path)
          ∧ length compressed_path = length (kept 2 ([0] ++ [0])%Z) + 2
          ∧ ∀ u, u ∈ kept 2 ([0] ++ [0])%Z
                 ↔ u < 2 ∧ (Z.of_nat u ∉ [0]%Z) ∧ (Z.of_nat u ∉ [0]%Z).
Proof.
  split; [concrete_square|]. split; [concrete_nonneg|].
  split; [concrete_range|]. split; [concrete_range|].
  apply (solution_validates_nothing 2 [0]%Z [0]%Z overlapping).
  - concrete_square.
  - concrete_nonneg.
  - concrete_range.
  - concrete_range.
Defined.

(** The enumeration on the scenarios. *)
Example min_cut_scenarios :
  min_cut 4 scenario1 [0]%Z [3]%Z = Some 6%Z
  ∧ min_cut 6 scenario2 [0; 1]%Z [4; 5]%Z = Some 16%Z
  ∧ min_cut 2 scenario3 [0]%Z [1]%Z = Some 5%Z.
Proof. by vm_compute. Qed.

(** ** Further properties *)

(** With a single room the engine never stops: room 0 is the last room, the
    search returns the path [[0]] at once, the augmenter changes nothing,
    and the loop goes round again, whatever the capacity [x] and however
    many iterations are allowed.  [solution] never runs the engine on such a
    matrix: the reduced matrix has at least two rooms. *)
Lemma single_room_never_ends fuel x :
  maximum_bunnies_rescuable fuel [[x]] = OutOfFuel.
Proof.
  unfold maximum_bunnies_rescuable. simpl length.
  assert (∀ fuel0 fuel' t k, engine_loop fuel0 fuel' [[x]] t k = OutOfFuel) as Hloop.
  { intros fuel0 fuel'. induction fuel' as [|fuel' IH]; intros t k; [done|].
    simpl. destruct fuel0 as [|fuel0]; [done|]. simpl. apply IH. }
  by rewrite Hloop.
Qed.

(** Raising capacities never lowers the result of [solution]. *)
Lemma solution_monotone n entrances exits path path' :
  square n path → square n path' → nonneg path → nonneg path' →
  (∀ u v, u < n → v < n → (entry path u v ≤ entry path' u v)%Z) →
  in_range n entrances → in_range n exits → NoDup (entrances ++ exits) →
  ∃ r r' fuel0,
    (∀ fuel, fuel0 ≤ fuel →
       solution fuel entrances exits path = Ret r
       ∧ solution fuel entrances exits path' = Ret r')
    ∧ (r ≤ r')%Z.
Proof.
  intros Hpath Hpath' Hpos Hpos' Hle Hin Hout Hnd.
  destruct (solution_min_cut n entrances exits path Hpath Hpos Hin Hout Hnd)
    as (r & Hrun & _ & _ & Hmin).
  destruct (solution_min_cut n entrances exits path' Hpath' Hpos' Hin Hout Hnd)
    as (r' & Hrun' & _ & (A & HA & Hcut) & _).
  exists r, r', (solution_fuel entrances exits path
                 `max` solution_fuel entrances exits path').
  split.
  - intros fuel Hfuel. split; [apply Hrun|apply Hrun']; lia.
  - rewrite <- Hcut. etrans; [by apply Hmin|]. by apply flux_mono.
Qed.

Definition scenario1_wider : matrix :=
  [[0;7;0;0]; [0;0;9;0]; [0;0;0;8]; [9;0;0;0]]%Z.

Lemma solution_monotone_witness :
  square 4 scenario1 ∧ square 4 scenario1_wider
  ∧ nonneg scenario1 ∧ nonneg scenario1_wider
  ∧ (∀ u v, u < 4 → v < 4 → (entry scenario1 u v ≤ entry scenario1_wider u v)%Z)
  ∧ in_range 4 [0]%Z ∧ in_range 4 [3]%Z ∧ NoDup ([0] ++ [3])%Z
  ∧ ∃ r r' fuel0,
      (∀ fuel, fuel0 ≤ fuel →
         solution fuel [0]%Z [3]%Z scenario1 = Ret r
         ∧ solution fuel [0]%Z [3]%Z scenario1_wider = Ret r')
      ∧ (r ≤ r')%Z.
Proof.
  split; [concrete_square|]. split; [concrete_square|].
  split; [concrete_nonneg|]. split; [concrete_nonneg|].
  split; [concrete_entries 4|].
  split; [concrete_range|]. split; [concrete_range|].
  split; [by apply (bool_decide_unpack _)|].
  apply (solution_monotone 4 [0]%Z [3]%Z scenario1 scenario1_wider).
  - concrete_square.
  - concrete_square.
  - concrete_nonneg.
  - concrete_nonneg.
  - concrete_entries 4.
  - concrete_range.
  - concrete_range.
  - by apply (bool_decide_unpack _).
Defined.

(** *** removed_indices *)

Lemma removed_indices_eq n matrix indices :
  square n matrix →
  removed_indices matrix indices
  = Ret ((λ u, entry matrix u <$> kept n indices) <$> kept n indices).
Proof.
  intros Hm. pose proof Hm as [Hlen _]. unfold removed_indices. rewrite Hlen.
  apply comprehension_eq. intros u [Hu _]%elem_of_kept.
  apply comprehension_eq. intros v [Hv _]%elem_of_kept.
  by apply (getitem2_entry n).
Qed.

Lemma length_kept n (X : list Z) :
  NoDup X → in_range n X → length (kept n X) = n - length X.
Proof.
  intros Hnd Hin. pose proof (rooms_split n X Hnd Hin) as Hperm.
  apply Permutation_length in Hperm.
  rewrite length_seq, length_app, length_fmap in Hperm. lia.
Qed.

Lemma filter_all {A} (P : A → Prop) `{!∀ x, Decision (P x)} (l : list A) :
  Forall P l → filter P l = l.
Proof.
  induction 1 as [|x l Hx _ IH]; [done|].
  rewrite filter_cons, decide_True by done. by rewrite IH.
Qed.

Lemma square_rows n (m : list (list Z)) :
  square n m → (λ u, entry m u <$> seq 0 n) <$> seq 0 n = m.
Proof.
  intros Hm. pose proof Hm as [Hlen _]. apply list_eq. intros u.
  rewrite list_lookup_fmap. destruct (decide (u < n)) as [Hu|Hu].
  - rewrite lookup_seq_lt by done. simpl.
    destruct (square_lookup n m u Hm Hu) as (row & Hrow & Hlr). rewrite Hrow.
    f_equal. apply list_eq. intros v. rewrite list_lookup_fmap.
    destruct (decide (v < n)) as [Hv|Hv].
    + rewrite lookup_seq_lt by done. simpl. unfold entry. rewrite Hrow. simpl.
      destruct (lookup_lt_is_Some_2 row v) as [x Hx]; [lia|]. by rewrite Hx.
    + rewrite lookup_seq_ge by lia. simpl. symmetry. apply lookup_ge_None. lia.
  - rewrite lookup_seq_ge by lia. simpl. symmetry. apply lookup_ge_None. lia.
Qed.

(** What [removed_indices] returns on a square matrix, for any list of
    integers: the square matrix of the rooms whose number is not in the list,
    in increasing order, with the capacities they had; it raises nothing.
    With [k] distinct room numbers in the list the result has [k] rows and
    columns less. *)
Theorem removed_indices_submatrix n matrix indices :
  square n matrix →
  ∃ m', removed_indices matrix indices = Ret m'
    ∧ square (length (kept n indices)) m'
    ∧ (∀ i j u v, kept n indices !! i = Some u → kept n indices !! j = Some v →
         entry m' i j = entry matrix u v)
    ∧ StronglySorted lt (kept n indices)
    ∧ (∀ u, u ∈ kept n indices ↔ u < n ∧ Z.of_nat u ∉ indices)
    ∧ (NoDup indices → in_range n indices →
       length (kept n indices) = n - length indices).
Proof.
  intros Hm. eexists. split; [by apply (removed_indices_eq n)|].
  split; [|split; [|split; [|split]]].
  - split; [by rewrite length_fmap|].
    apply Forall_fmap, Forall_forall. intros u _. simpl. by rewrite length_fmap.
  - intros i j u v Hi Hj. unfold entry at 1.
    rewrite list_lookup_fmap, Hi. simpl. by rewrite list_lookup_fmap, Hj.
  - apply filter_sorted, seq_sorted.
  - apply elem_of_kept.
  - apply length_kept.
Qed.

Lemma removed_indices_submatrix_witness :
  square 4 scenario1
  ∧ ∃ m', removed_indices scenario1 [0; 3]%Z = Ret m'
      ∧ square (length (kept 4 [0; 3]%Z)) m'
      ∧ (∀ i j u v, kept 4 [0; 3]%Z !! i = Some u → kept 4 [0; 3]%Z !! j = Some v →
           entry m' i j = entry scenario1 u v)
      ∧ StronglySorted lt (kept 4 [0; 3]%Z)
      ∧ (∀ u, u ∈ kept 4 [0; 3]%Z ↔ u < 4 ∧ Z.of_nat u ∉ [0; 3]%Z)
      ∧ (NoDup [0; 3]%Z → in_range 4 [0; 3]%Z →
         length (kept 4 [0; 3]%Z) = 4 - length [0; 3]%Z).
Proof.
  split; [concrete_square|].
  apply (removed_indices_submatrix 4 scenario1 [0; 3]%Z). concrete_square.
Defined.

(** Indices that are no room number remove nothing.  With a list that holds
    only negative integers or integers from the size of the matrix on (an
    empty list is one), [removed_indices] returns the matrix as it is: a
    negative index does not count from the end here, and an index that is too
    large raises nothing. *)
Theorem removed_indices_nothing_to_remove n matrix indices :
  square n matrix →
  (∀ i, i ∈ indices → (i < 0 ∨ Z.of_nat n ≤ i)%Z) →
  removed_indices matrix indices = Ret matrix.
Proof.
  intros Hm Hout. rewrite (removed_indices_eq n) by done.
  assert (kept n indices = seq 0 n) as ->.
  { apply filter_all, Forall_forall. intros u Hu%elem_of_seq Hin.
    apply Hout in Hin. lia. }
  by rewrite square_rows.
Qed.

Lemma removed_indices_nothing_to_remove_witness :
  square 4 scenario1
  ∧ (∀ i, i ∈ [-1; 4]%Z → (i < 0 ∨ Z.of_nat 4 ≤ i)%Z)
  ∧ removed_indices scenario1 [-1; 4]%Z = Ret scenario1.
Proof.
  assert (∀ i, i ∈ [-1; 4]%Z → (i < 0 ∨ Z.of_nat 4 ≤ i)%Z) as Hout.
  { intros i Hi. apply elem_of_cons in Hi as [->|Hi]; [lia|].
    apply list_elem_of_singleton in Hi as ->. lia. }
  split; [concrete_square|]. split; [done|].
  apply (removed_indices_nothing_to_remove 4 scenario1 [-1; 4]%Z);
    [concrete_square|done].
Defined.

(** *** The shape of what compressed_paths returns *)

Lemma comprehension_Ret {A B} (f : A → result B) l ys :
  comprehension f l = Ret ys → Forall2 (λ x y, f x = Ret y) l ys.
Proof.
  revert ys. induction l as [|x l IH]; intros ys; simpl.
  - intros [= <-]. constructor.
  - destruct (f x) as [y| |] eqn:Hy; [|done..]. simpl.
    destruct (comprehension f l) as [ys'| |]; [|done..]. simpl.
    intros [= <-]. constructor; [done|]. by apply IH.
Qed.

Lemma comprehension_length {A B} (f : A → result B) l ys :
  comprehension f l = Ret ys → length ys = length l.
Proof. intros H%comprehension_Ret. symmetry. by eapply Forall2_length. Qed.

Lemma comprehension_elem {A B} (f : A → result B) l ys y :
  comprehension f l = Ret ys → y ∈ ys → ∃ x, x ∈ l ∧ f x = Ret y.
Proof.
  intros H%comprehension_Ret [i Hi]%list_elem_of_lookup_1.
  destruct (Forall2_lookup_r _ _ _ _ _ H Hi) as (x & Hx & Hf).
  exists x. split; [|done]. by eapply list_elem_of_lookup_2.
Qed.

Lemma entry_cons_S row (m : list (list Z)) i j : entry (row :: m) (S i) j = entry m i j.
Proof. done. Qed.

Lemma entry_framed_first (rows : list (list Z)) i :
  Forall (λ row, ∃ r x, row = [0%Z] ++ r ++ [x]) rows → entry rows i 0 = 0%Z.
Proof.
  intros Hrows. unfold entry. destruct (rows !! i) as [row|] eqn:Hrow; [|done].
  rewrite Forall_lookup in Hrows. by destruct (Hrows i row Hrow) as (r & x & ->).
Qed.

(** Whatever the input, a matrix that [compressed_paths] returns is square,
    with two rooms more than the rooms of the input that are neither listed
    as entrance nor as exit; no corridor leads into its first room, none
    leaves its last room, and none goes from the first room to the last.
    The engine is therefore never run on a matrix with a single room. *)
Theorem compressed_paths_shape entrances exits path b m :
  compressed_paths entrances exits path = Ret (b, m) →
  let k := length (kept (length path) (entrances ++ exits)) in
  square (k + 2) m
  ∧ (∀ i, entry m i 0 = 0%Z)
  ∧ (∀ j, entry m (k + 1) j = 0%Z)
  ∧ entry m 0 (k + 1) = 0%Z.
Proof.
  unfold compressed_paths. set (keep := kept (length path) (entrances ++ exits)).
  destruct (for_each entrances _ _) as [sb| |]; [|done..]. cbn [mbind result_bind].
  destruct (for_each (seq 0 (length path)) _ _) as [ep| |]; [|done..].
  cbn [mbind result_bind].
  destruct (comprehension (getitem sb) keep) as [sb'| |] eqn:Hsb; [|done..].
  cbn [mbind result_bind].
  destruct (comprehension (getitem ep) keep) as [ep'| |] eqn:Hep; [|done..].
  cbn [mbind result_bind].
  destruct (removed_indices path (entrances ++ exits)) as [np| |] eqn:Hnp; [|done..].
  cbn [mbind result_bind].
  destruct (comprehension _ (enumerate np)) as [np'| |] eqn:Hnp'; [|done..].
  cbn [mbind result_bind getitem lookup list_lookup].
  intros [= <- <-]. set (k := length keep).
  apply comprehension_length in Hsb, Hep. fold k in Hsb, Hep.
  unfold removed_indices in Hnp. fold keep in Hnp.
  pose proof (comprehension_length _ _ _ Hnp) as Hlnp. fold k in Hlnp.
  assert (Forall (λ row, length row = k) np) as Hrows.
  { apply Forall_forall. intros row Hrow.
    destruct (comprehension_elem _ _ _ _ Hnp Hrow) as (u & _ & Hu).
    by apply comprehension_length in Hu. }
  pose proof (comprehension_length _ _ _ Hnp') as Hlnp'.
  unfold enumerate in Hlnp'. rewrite length_zip, length_seq in Hlnp'.
  assert (Forall (λ row, ∃ r x, row = [0%Z] ++ r ++ [x] ∧ length r = k) np') as Hframed.
  { apply Forall_forall. intros row Hrow.
    destruct (comprehension_elem _ _ _ _ Hnp' Hrow) as ([i r] & Hir & Hrow').
    simpl in Hrow'. destruct (getitem ep' i) as [e| |]; [|done..].
    simpl in Hrow'. injection Hrow' as <-. exists r, e. split; [done|].
    apply elem_of_zip_r in Hir. rewrite Forall_forall in Hrows. by apply Hrows. }
  assert (length ([0%Z] ++ sb' ++ [0%Z]) = k + 2) as Hfirst.
  { rewrite !length_app. simpl. lia. }
  assert (length np' = k) as Hk by lia.
  rewrite length_app, Hsb. cbn [length]. rewrite Nat.add_1_r, replicate_S_end.
  split; [|split; [|split]].
  - split.
    + simpl. rewrite length_app. simpl. lia.
    + apply Forall_cons. split; [done|]. apply Forall_app. split.
      * eapply Forall_impl; [exact Hframed|]. intros row (r & x & -> & Hr).
        rewrite !length_app. simpl. lia.
      * repeat constructor. simpl. rewrite length_app, length_replicate. simpl. lia.
  - intros i. apply entry_framed_first.
    apply Forall_cons. split; [by exists sb', 0%Z|]. apply Forall_app. split.
    + eapply Forall_impl; [exact Hframed|]. intros row (r & x & -> & _). eauto.
    + repeat constructor. by exists (replicate k 0%Z), 0%Z.
  - intros j. replace (k + 1) with (S k) by lia. rewrite entry_cons_S.
    unfold entry. rewrite list_lookup_middle by done. simpl.
    destruct j as [|j]; [done|]. simpl.
    destruct ((replicate k 0%Z ++ [0%Z]) !! j) as [x|] eqn:Hx; [|done].
    simpl. apply list_elem_of_lookup_2, elem_of_app in Hx as [Hx|Hx].
    + by apply elem_of_replicate in Hx as [-> _].
    + by apply list_elem_of_singleton in Hx.
  - unfold entry. simpl. replace (k + 1) with (S k) by lia. simpl.
    by rewrite list_lookup_middle.
Qed.

Lemma compressed_paths_shape_witness :
  compressed_paths [0]%Z [0]%Z overlapping
  = Ret (0%Z, [[0; 1; 0]; [0; 0; 0]; [0; 0; 0]]%Z)
  ∧ let k := length (kept (length overlapping) ([0] ++ [0])%Z) in
    square (k + 2) [[0; 1; 0]; [0; 0; 0]; [0; 0; 0]]%Z
    ∧ (∀ i, entry [[0; 1; 0]; [0; 0; 0]; [0; 0; 0]]%Z i 0 = 0%Z)
    ∧ (∀ j, entry [[0; 1; 0]; [0; 0; 0]; [0; 0; 0]]%Z (k + 1) j = 0%Z)
    ∧ entry [[0; 1; 0]; [0; 0; 0]; [0; 0; 0]]%Z 0 (k + 1) = 0%Z.
Proof.
  split; [reflexivity|].
  apply (compressed_paths_shape [0]%Z [0]%Z overlapping 0%Z). reflexivity.
Defined.

(** *** Indices that count from the end, indices out of range *)

Lemma wrap_in_range n i :
  (- Z.of_nat n ≤ i < Z.of_nat n)%Z → (0 ≤ wrap n i < Z.of_nat n)%Z.
Proof. intros Hi. unfold wrap. destruct (Z.leb_spec 0 i); lia. Qed.

Lemma in_range_wrap n indices : indexable n indices → in_range n (wrap n <$> indices).
Proof.
  intros Hi. apply Forall_fmap. eapply Forall_impl; [exact Hi|].
  intros i Hr. by apply wrap_in_range.
Qed.

Lemma getitem_int_wrap {A} (l : list A) i :
  (- Z.of_nat (length l) ≤ i < Z.of_nat (length l))%Z →
  getitem_int l i = getitem_int l (wrap (length l) i).
Proof.
  intros Hi. unfold wrap. destruct (Z.leb_spec 0 i) as [Hpos|Hneg]; [done|].
  unfold getitem_int at 1. destruct (Z.leb_spec 0 i); [lia|].
  destruct (Z.leb_spec (- Z.of_nat (length l)) i); [|lia].
  symmetry. unfold getitem_int.
  by destruct (Z.leb_spec 0 (Z.of_nat (length l) + i)); [|lia].
Qed.

Lemma getitem_int_out {A} (l : list A) i :
  (i < - Z.of_nat (length l) ∨ Z.of_nat (length l) ≤ i)%Z →
  getitem_int l i = Raise IndexError.
Proof.
  intros Hi. unfold getitem_int. destruct (Z.leb_spec 0 i).
  - unfold getitem. rewrite lookup_ge_None_2; [done|lia].
  - by destruct (Z.leb_spec (- Z.of_nat (length l)) i); [lia|].
Qed.

Lemma for_each_ext {A S} (xs : list A) (body body' : S → A → result S) acc :
  (∀ acc x, x ∈ xs → body acc x = body' acc x) →
  for_each xs body acc = for_each xs body' acc.
Proof.
  revert acc. induction xs as [|x xs IH]; intros acc Hb; [done|].
  simpl. rewrite Hb by left. destruct (body' acc x); [|done..]. simpl.
  apply IH. intros acc' y Hy. apply Hb. by right.
Qed.

Lemma for_each_fmap {A B S} (g : A → B) (xs : list A) (body : S → B → result S) acc :
  for_each (g <$> xs) body acc = for_each xs (λ acc x, body acc (g x)) acc.
Proof.
  revert acc. induction xs as [|x xs IH]; intros acc; [done|].
  rewrite fmap_cons. cbn [for_each]. destruct (body acc (g x)); [|done..].
  cbn [mbind result_bind]. apply IH.
Qed.

Lemma comprehension_fmap {A B C} (g : A → B) (f : B → result C) (xs : list A) :
  comprehension f (g <$> xs) = comprehension (f ∘ g) xs.
Proof.
  induction xs as [|x xs IH]; [done|]. rewrite fmap_cons.
  cbn [comprehension compose]. destruct (f (g x)); [|done..].
  cbn [mbind result_bind]. by rewrite IH.
Qed.

Lemma comprehension_ext {A B} (f f' : A → result B) (xs : list A) :
  (∀ x, x ∈ xs → f x = f' x) → comprehension f xs = comprehension f' xs.
Proof.
  induction xs as [|x xs IH]; intros Hf; [done|]. simpl. rewrite Hf by left.
  destruct (f' x); [|done..]. simpl. rewrite IH; [done|].
  intros y Hy. apply Hf. by right.
Qed.

Section wide.
Variables (n : nat) (entrances exits : list Z) (path : matrix).
Hypotheses (Hpath : square n path).

Let keep := kept n (entrances ++ exits).

Lemma starting_loop_wrap acc :
  indexable n entrances →
  for_each entrances
    (λ starting_bunnies entrance,
       row ← getitem_int path entrance; map_add starting_bunnies row) acc
  = for_each (wrap n <$> entrances)
      (λ starting_bunnies entrance,
         row ← getitem_int path entrance; map_add starting_bunnies row) acc.
Proof.
  intros Hin. rewrite for_each_fmap. apply for_each_ext. intros acc' e He.
  destruct Hpath as [Hlen _].
  rewrite (getitem_int_wrap path e), Hlen; [done|]. rewrite Hlen.
  unfold indexable in Hin. rewrite Forall_forall in Hin. by apply Hin.
Qed.

Lemma escape_loop_wrap acc :
  indexable n exits →
  for_each (seq 0 n)
    (λ escape_pods index,
       pointing_to_escape_pod ←
         comprehension
           (λ exit_index, row ← getitem path index; getitem_int row exit_index)
           exits;
       setitem escape_pods index (sumZ pointing_to_escape_pod)) acc
  = for_each (seq 0 n)
      (λ escape_pods index,
         pointing_to_escape_pod ←
           comprehension
             (λ exit_index, row ← getitem path index; getitem_int row exit_index)
             (wrap n <$> exits);
         setitem escape_pods index (sumZ pointing_to_escape_pod)) acc.
Proof.
  intros Hout. apply for_each_ext. intros acc' u Hu%elem_of_seq.
  rewrite comprehension_fmap.
  rewrite (comprehension_ext _
    ((λ exit_index, row ← getitem path u; getitem_int row exit_index) ∘ wrap n));
    [done|].
  intros x Hx. destruct (square_lookup n path u Hpath) as (row & Hrow & Hlen); [lia|].
  unfold compose. rewrite (getitem_eq _ _ row) by done. cbn [mbind result_bind].
  rewrite (getitem_int_wrap row x), Hlen; [done|]. rewrite Hlen.
  unfold indexable in Hout. rewrite Forall_forall in Hout. by apply Hout.
Qed.

Lemma compressed_paths_wrap :
  indexable n entrances → indexable n exits →
  compressed_paths entrances exits path
  = Ret (sum_over (filter (λ v, Z.of_nat v ∈ exits) (seq 0 n))
           (starting (wrap n <$> entrances) path),
         framed keep (starting (wrap n <$> entrances) path)
           (escaping (wrap n <$> exits) path) path).
Proof.
  intros Hin Hout. pose proof Hpath as [Hlen Hrows].
  unfold compressed_paths. rewrite Hlen.
  rewrite starting_loop_wrap, escape_loop_wrap by done.
  rewrite replicate_fmap_seq, (starting_loop n) by (done || by apply in_range_wrap).
  cbn [mbind result_bind]. rewrite <- replicate_fmap_seq.
  pose proof (escape_loop n (wrap n <$> exits) path Hpath (in_range_wrap _ _ Hout)
    0 n eq_refl) as Hesc.
  simpl in Hesc. rewrite Hesc. cbn [mbind result_bind].
  rewrite (comprehension_eq (getitem (escaping (wrap n <$> exits) path <$> seq 0 n))
                            (escaping (wrap n <$> exits) path)).
  2:{ intros u [Hu _]%elem_of_kept. apply getitem_eq.
      by rewrite list_lookup_fmap, lookup_seq_lt. }
  rewrite (comprehension_eq (getitem _) (starting (wrap n <$> entrances) path)).
  2:{ intros u [Hu _]%elem_of_kept. apply getitem_eq.
      rewrite list_lookup_fmap, lookup_seq_lt by done. by simpl. }
  cbn [mbind result_bind]. unfold removed_indices. rewrite Hlen.
  rewrite (comprehension_eq _ (λ u, entry path u <$> kept n (entrances ++ exits))).
  2:{ intros u [Hu _]%elem_of_kept. apply comprehension_eq.
      intros v [Hv _]%elem_of_kept. by apply (getitem2_entry n). }
  cbn [mbind result_bind]. unfold enumerate.
  rewrite !length_fmap, length_seq.
  pose proof (rows_loop (λ u, entry path u <$> kept n (entrances ++ exits))
    (escaping (wrap n <$> exits) path) [] (kept n (entrances ++ exits))) as Hr.
  rewrite (app_nil_l (kept n (entrances ++ exits))) in Hr.
  change (length (@nil nat)) with 0 in Hr.
  rewrite Hr. cbn [mbind result_bind].
  rewrite (getitem_eq (_ :: _) 0 _ eq_refl). cbn [mbind result_bind].
  f_equal. f_equal.
  - rewrite (zip_seq_fmap (λ v, (0 + starting (wrap n <$> entrances) path v)%Z)).
    apply rescued_sum.
  - unfold framed. fold keep.
    rewrite !length_app, length_fmap. simpl length. by rewrite <- app_comm_cons.
Qed.

End wide.

(** **** The framed matrix, entry by entry *)

Section framed.
Variables (keep : list nat) (start escape : nat → Z) (path : matrix).

Let m := length keep.
Let fr := framed keep start escape path.

Lemma framed_square : square (m + 2) fr.
Proof.
  unfold fr, framed. fold m. split.
  - simpl. rewrite length_app, length_fmap. simpl. fold m. lia.
  - apply Forall_cons. split; [|apply Forall_app; split].
    + rewrite !length_app, length_fmap. simpl. fold m. lia.
    + apply Forall_fmap, Forall_forall. intros u _. simpl.
      rewrite length_app, length_fmap. simpl. fold m. lia.
    + repeat constructor. rewrite length_replicate. lia.
Qed.

Lemma framed_row_mid i u :
  keep !! i = Some u →
  fr !! S i = Some ([0%Z] ++ (entry path u <$> keep) ++ [escape u]).
Proof.
  intros Hi. unfold fr, framed. simpl.
  apply lookup_app_l_Some. by rewrite list_lookup_fmap, Hi.
Qed.

Lemma framed_from_source i u : keep !! i = Some u → entry fr 0 (S i) = start u.
Proof.
  intros Hi. unfold entry, fr, framed. cbn [lookup list_lookup mbind option_bind].
  rewrite (framed_lookup_mid _ _ (start u)); [done|].
  by rewrite list_lookup_fmap, Hi.
Qed.

Lemma framed_to_sink i u : keep !! i = Some u → entry fr (S i) (S m) = escape u.
Proof.
  intros Hi. unfold entry. rewrite (framed_row_mid i u Hi).
  cbn [mbind option_bind].
  replace (S m) with (S (length (entry path u <$> keep))) by (by rewrite length_fmap).
  by rewrite framed_lookup_last.
Qed.

Lemma framed_between i j u v :
  keep !! i = Some u → keep !! j = Some v → entry fr (S i) (S j) = entry path u v.
Proof.
  intros Hi Hj. unfold entry at 1. rewrite (framed_row_mid i u Hi).
  cbn [mbind option_bind].
  rewrite (framed_lookup_mid _ _ (entry path u v)); [done|].
  by rewrite list_lookup_fmap, Hj.
Qed.

End framed.

Lemma starting_wrap n entrances path v :
  starting (wrap n <$> entrances) path v
  = sum_over entrances (λ e, entry path (room_at n e) v).
Proof. unfold starting. by rewrite sum_over_fmap. Qed.

Lemma escaping_wrap n exits path u :
  escaping (wrap n <$> exits) path u
  = sum_over exits (λ x, entry path u (room_at n x)).
Proof. unfold escaping. by rewrite sum_over_fmap. Qed.

(** Indices from [-n] to [-1] are accepted and count from the end, as
    Python subscripts do, but only where the matrix is read.  On a square
    matrix of size [n] with all indices from [-n] to [n - 1],
    [compressed_paths] raises nothing; the capacities out of the entrances and
    into the exits are read in the rooms the indices name; the rooms left out
    of the reduced matrix and the rooms counted for the immediate rescue are
    those whose number itself is in the lists, so that a room named by a
    negative index only stays in the reduced matrix. *)
Theorem compressed_paths_counts_from_the_end n entrances exits path :
  square n path → indexable n entrances → indexable n exits →
  ∃ b m,
    compressed_paths entrances exits path = Ret (b, m)
    ∧ b = sum_over (filter (λ v, Z.of_nat v ∈ exits) (seq 0 n))
            (λ v, sum_over entrances (λ e, entry path (room_at n e) v))
    ∧ square (length (kept n (entrances ++ exits)) + 2) m
    ∧ (∀ i u, kept n (entrances ++ exits) !! i = Some u →
         entry m 0 (S i) = sum_over entrances (λ e, entry path (room_at n e) u)
         ∧ entry m (S i) (S (length (kept n (entrances ++ exits))))
           = sum_over exits (λ x, entry path u (room_at n x)))
    ∧ (∀ i j u v, kept n (entrances ++ exits) !! i = Some u →
         kept n (entrances ++ exits) !! j = Some v →
         entry m (S i) (S j) = entry path u v)
    ∧ (∀ i, i ∈ entrances ++ exits → (i < 0)%Z →
         (Z.of_nat (room_at n i) ∉ entrances ++ exits) →
         room_at n i ∈ kept n (entrances ++ exits)).
Proof.
  intros Hpath Hin Hout. eexists _, _.
  split; [by apply (compressed_paths_wrap n)|].
  split; [|split; [|split; [|split]]].
  - apply sum_over_ext. intros v _. apply starting_wrap.
  - apply framed_square.
  - intros i u Hi. split.
    + rewrite (framed_from_source _ _ _ _ i u Hi). apply starting_wrap.
    + rewrite (framed_to_sink _ _ _ _ i u Hi). apply escaping_wrap.
  - intros i j u v Hi Hj. by apply framed_between.
  - intros i Hi Hneg Hnot. apply elem_of_kept. split; [|done].
    assert (indexable n (entrances ++ exits)) as Hall by (by apply Forall_app).
    unfold indexable in Hall. rewrite Forall_forall in Hall.
    pose proof (wrap_in_range n i (Hall i Hi)). unfold room_at. lia.
Qed.

Lemma compressed_paths_counts_from_the_end_witness :
  square 2 scenario3 ∧ indexable 2 [0]%Z ∧ indexable 2 [-1]%Z
  ∧ ∃ b m,
      compressed_paths [0]%Z [-1]%Z scenario3 = Ret (b, m)
      ∧ b = sum_over (filter (λ v, Z.of_nat v ∈ [-1]%Z) (seq 0 2))
              (λ v, sum_over [0]%Z (λ e, entry scenario3 (room_at 2 e) v))
      ∧ square (length (kept 2 ([0] ++ [-1])%Z) + 2) m
      ∧ (∀ i u, kept 2 ([0] ++ [-1])%Z !! i = Some u →
           entry m 0 (S i) = sum_over [0]%Z (λ e, entry scenario3 (room_at 2 e) u)
           ∧ entry m (S i) (S (length (kept 2 ([0] ++ [-1])%Z)))
             = sum_over [-1]%Z (λ x, entry scenario3 u (room_at 2 x)))
      ∧ (∀ i j u v, kept 2 ([0] ++ [-1])%Z !! i = Some u →
           kept 2 ([0] ++ [-1])%Z !! j = Some v →
           entry m (S i) (S j) = entry scenario3 u v)
      ∧ (∀ i, i ∈ ([0] ++ [-1])%Z → (i < 0)%Z →
           (Z.of_nat (room_at 2 i) ∉ ([0] ++ [-1])%Z) →
           room_at 2 i ∈ kept 2 ([0] ++ [-1])%Z).
Proof.
  split; [concrete_square|].
  split; [repeat constructor; lia|]. split; [repeat constructor; lia|].
  apply (compressed_paths_counts_from_the_end 2 [0]%Z [-1]%Z scenario3).
  - concrete_square.
  - repeat constructor; lia.
  - repeat constructor; lia.
Defined.

(** **** Out of range *)

Lemma map_add_mismatch xs ys :
  length xs ≠ length ys → map_add xs ys = Raise TypeError.
Proof.
  revert ys. induction xs as [|x xs IH]; intros [|y ys] Hlen; try done.
  simpl. rewrite IH; [done|]. simpl in Hlen. lia.
Qed.

Lemma getitem_int_elem {A} (l : list A) i x : getitem_int l i = Ret x → x ∈ l.
Proof.
  unfold getitem_int, getitem. intros H.
  destruct (0 <=? i)%Z.
  - destruct (l !! Z.to_nat i) eqn:Hl; [|done]. injection H as <-.
    by eapply list_elem_of_lookup_2.
  - destruct (- Z.of_nat (length l) <=? i)%Z; [|done].
    destruct (l !! _) eqn:Hl; [|done]. injection H as <-.
    by eapply list_elem_of_lookup_2.
Qed.

Lemma getitem_int_in {A} (l : list A) i :
  (- Z.of_nat (length l) ≤ i < Z.of_nat (length l))%Z →
  ∃ x, getitem_int l i = Ret x.
Proof.
  intros Hi. rewrite getitem_int_wrap by done.
  pose proof (wrap_in_range (length l) i Hi) as Hw.
  destruct (lookup_lt_is_Some_2 l (Z.to_nat (wrap (length l) i))) as [x Hx]; [lia|].
  exists x. apply getitem_int_eq; [lia|done].
Qed.

Lemma comprehension_raise {A B} (f : A → result B) (l : list A) e :
  Forall (λ x, (∃ y, f x = Ret y) ∨ f x = Raise e) l →
  Exists (λ x, f x = Raise e) l → comprehension f l = Raise e.
Proof.
  induction 1 as [|x l Hx Hl IH]; intros Hex; [by apply Exists_nil in Hex|].
  simpl. destruct Hx as [[y Hy]|Hy]; rewrite Hy; [|done]. simpl.
  apply Exists_cons in Hex as [Hex|Hex]; [congruence|]. by rewrite IH.
Qed.

Section out_of_range.
Variables (n : nat) (path : matrix).
Hypotheses (Hpath : square n path).

Lemma starting_loop_raise entrances acc :
  length acc = n → ¬ indexable n entrances →
  for_each entrances
    (λ starting_bunnies entrance,
       row ← getitem_int path entrance; map_add starting_bunnies row) acc
  = Raise IndexError.
Proof.
  pose proof Hpath as [Hlen Hrows]. revert acc.
  induction entrances as [|e es IH]; intros acc Hacc Hbad.
  { destruct Hbad. constructor. }
  cbn [for_each].
  destruct (decide (- Z.of_nat n ≤ e < Z.of_nat n)%Z) as [He|He].
  - destruct (getitem_int_in path e) as [row Hrow]; [by rewrite Hlen|].
    rewrite Hrow. cbn [mbind result_bind].
    assert (length row = n) as Hlr.
    { apply getitem_int_elem in Hrow. rewrite Forall_forall in Hrows. by apply Hrows. }
    rewrite map_add_eq by lia. cbn [mbind result_bind]. apply IH.
    + rewrite length_zip_with. lia.
    + intros Hes. apply Hbad. by constructor.
  - rewrite getitem_int_out; [done|]. rewrite Hlen. lia.
Qed.

Lemma escape_loop_raise exits acc :
  0 < n → ¬ indexable n exits →
  for_each (seq 0 n)
    (λ escape_pods index,
       pointing_to_escape_pod ←
         comprehension
           (λ exit_index, row ← getitem path index; getitem_int row exit_index)
           exits;
       setitem escape_pods index (sumZ pointing_to_escape_pod)) acc
  = Raise IndexError.
Proof.
  intros Hn Hbad. destruct n as [|n']; [lia|]. cbn [seq for_each].
  destruct (square_lookup (S n') path 0 Hpath) as (row & Hrow & Hlen); [lia|].
  rewrite (comprehension_raise _ _ IndexError); [done| |].
  - apply Forall_forall. intros x _. rewrite (getitem_eq _ _ row) by done.
    cbn [mbind result_bind].
    destruct (decide (- Z.of_nat (S n') ≤ x < Z.of_nat (S n'))%Z) as [Hx|Hx].
    + left. apply getitem_int_in. by rewrite Hlen.
    + right. apply getitem_int_out. rewrite Hlen. lia.
  - apply not_Forall_Exists in Hbad; [|apply _].
    eapply Exists_impl; [exact Hbad|]. intros x Hx. simpl in Hx.
    rewrite (getitem_eq _ _ row) by done. cbn [mbind result_bind].
    apply getitem_int_out. rewrite Hlen. lia.
Qed.

End out_of_range.

(** An index outside [-n, n) makes [compressed_paths], and with it
    [solution], raise [IndexError], on a square matrix with a room at
    least. *)
Theorem compressed_paths_index_error n entrances exits path :
  square n path → 0 < n → ¬ indexable n (entrances ++ exits) →
  compressed_paths entrances exits path = Raise IndexError
  ∧ ∀ fuel, solution fuel entrances exits path = Raise IndexError.
Proof.
  intros Hpath Hn Hbad.
  assert (compressed_paths entrances exits path = Raise IndexError) as Heq.
  { pose proof Hpath as [Hlen _]. unfold compressed_paths. rewrite Hlen.
    destruct (decide (indexable n entrances)) as [Hin|Hin].
    - rewrite (starting_loop_wrap n) by done.
      rewrite replicate_fmap_seq, (starting_loop n) by (done || by apply in_range_wrap).
      cbn [mbind result_bind].
      rewrite (escape_loop_raise n); [done..|].
      intros Hout. apply Hbad. by apply Forall_app.
    - rewrite (starting_loop_raise n); [done..|by rewrite length_replicate|done]. }
  split; [done|]. intros fuel. unfold solution. by rewrite Heq.
Qed.

Lemma compressed_paths_index_error_witness :
  square 2 scenario3 ∧ 0 < 2 ∧ ¬ indexable 2 ([0] ++ [2])%Z
  ∧ compressed_paths [0]%Z [2]%Z scenario3 = Raise IndexError
  ∧ ∀ fuel, solution fuel [0]%Z [2]%Z scenario3 = Raise IndexError.
Proof.
  assert (¬ indexable 2 ([0] ++ [2])%Z) as Hbad.
  { intros H. inversion_clear H as [|? ? _ H']. inversion_clear H' as [|? ? H _]. lia. }
  split; [concrete_square|]. split; [lia|]. split; [done|].
  apply (compressed_paths_index_error 2 [0]%Z [2]%Z scenario3);
    [concrete_square|lia|done].
Defined.

(** **** Rows of the wrong length *)

(** A row of the wrong length makes [compressed_paths], and with it
    [solution], raise [TypeError]: when the row of an entrance has not as many
    entries as the matrix has rows (the rows of the entrances listed before it
    having that many), Python 2's [map] pads the shorter list with [None] and
    the addition fails. *)
Theorem compressed_paths_type_error entrances exits path es1 e es2 row :
  entrances = es1 ++ e :: es2 →
  Forall (λ e', ∃ row', getitem_int path e' = Ret row'
                        ∧ length row' = length path) es1 →
  getitem_int path e = Ret row → length row ≠ length path →
  compressed_paths entrances exits path = Raise TypeError
  ∧ ∀ fuel, solution fuel entrances exits path = Raise TypeError.
Proof.
  intros -> Hes1 Hrow Hlen.
  assert (compressed_paths (es1 ++ e :: es2) exits path = Raise TypeError) as Heq.
  { unfold compressed_paths. rewrite for_each_app.
    assert (∀ acc, length acc = length path →
      ∃ acc', for_each es1
        (λ starting_bunnies entrance,
           row ← getitem_int path entrance; map_add starting_bunnies row) acc
        = Ret acc' ∧ length acc' = length path) as Hloop.
    { induction Hes1 as [|e' es (row' & Hrow' & Hlen') _ IH]; intros acc Hacc.
      - by exists acc.
      - cbn [for_each]. rewrite Hrow'. cbn [mbind result_bind].
        rewrite map_add_eq by lia. cbn [mbind result_bind]. apply IH.
        rewrite length_zip_with. lia. }
    destruct (Hloop (replicate (length path) 0%Z)) as (acc' & -> & Hacc');
      [by rewrite length_replicate|].
    cbn [mbind result_bind for_each]. rewrite Hrow. cbn [mbind result_bind].
    rewrite map_add_mismatch; [done|lia]. }
  split; [done|]. intros fuel. unfold solution. by rewrite Heq.
Qed.

Definition ragged : matrix := [[0; 5]; [0]]%Z.

Lemma compressed_paths_type_error_witness :
  [0; 1]%Z = [0]%Z ++ 1%Z :: []
  ∧ Forall (λ e', ∃ row', getitem_int ragged e' = Ret row'
                          ∧ length row' = length ragged) [0]%Z
  ∧ getitem_int ragged 1%Z = Ret [0%Z] ∧ length [0%Z] ≠ length ragged
  ∧ compressed_paths [0; 1]%Z [1]%Z ragged = Raise TypeError
  ∧ ∀ fuel, solution fuel [0; 1]%Z [1]%Z ragged = Raise TypeError.
Proof.
  assert (Forall (λ e', ∃ row', getitem_int ragged e' = Ret row'
                                ∧ length row' = length ragged) [0]%Z) as Hes1.
  { repeat constructor. by exists [0; 5]%Z. }
  split; [done|]. split; [done|]. split; [done|]. split; [simpl; lia|].
  apply (compressed_paths_type_error [0; 1]%Z [1]%Z ragged [0]%Z 1%Z [] [0%Z]);
    [done|done|done|simpl; lia].
Defined.

(** *** The engine: optimality *)

(** No feasible flow carries more into the last room than the flow the
    engine stops at. *)
Lemma stopped_flow_maximal n c t t' :
  2 ≤ n → feasible n c t → (∀ q, ¬ augmenting_path n c t q) →
  feasible n c t' → (inflow n t' ≤ inflow n t)%Z.
Proof.
  intros Hn Ht Hnone Ht'.
  destruct (saturated_cut n c t Hn Ht Hnone) as (H0 & Hsink & ->).
  rewrite (inflow_flux n c t' (reach n c t)) by done. by apply flux_le.
Qed.

(** The engine returns the value of a maximum flow.  On a square matrix of
    non-negative capacities with at least two rooms, the number it returns
    is the traffic that some feasible flow brings into the last room, no
    feasible flow brings more, and it is the least capacity of a set of
    corridors that cuts room 0 off from the last room. *)
Theorem maximum_bunnies_rescuable_is_maximum n c :
  2 ≤ n → square n c → nonneg c →
  ∃ r fuel0,
    (∀ fuel, fuel0 ≤ fuel → maximum_bunnies_rescuable fuel c = Ret r)
    ∧ (∃ t, feasible n c t ∧ inflow n t = r)
    ∧ (∀ t, feasible n c t → (inflow n t ≤ r)%Z)
    ∧ (∃ A, A 0 = true ∧ A (n - 1) = false ∧ cut_capacity n c A = r)
    ∧ (∀ A, A 0 = true → A (n - 1) = false → (r ≤ cut_capacity n c A)%Z).
Proof.
  intros Hn Hc Hpos.
  destruct (maximum_bunnies_rescuable_run n c (engine_fuel n c) Hn Hc Hpos)
    as (t & k & _ & Ht & Hnone & Hrun & _); [done|].
  exists (inflow n t), (engine_fuel n c).
  split; [intros fuel Hfuel; by apply (maximum_bunnies_rescuable_more (engine_fuel n c))|].
  split; [by exists t|].
  split; [intros t' Ht'; by apply (stopped_flow_maximal n c)|].
  destruct (saturated_cut n c t Hn Ht Hnone) as (H0 & Hsink & Hcut). split.
  - by exists (reach n c t).
  - intros A HA0 HAn. rewrite (inflow_flux n c t A) by done. by apply flux_le.
Qed.

Lemma maximum_bunnies_rescuable_is_maximum_witness :
  2 ≤ 4 ∧ square 4 corridors1 ∧ nonneg corridors1
  ∧ ∃ r fuel0,
      (∀ fuel, fuel0 ≤ fuel → maximum_bunnies_rescuable fuel corridors1 = Ret r)
      ∧ (∃ t, feasible 4 corridors1 t ∧ inflow 4 t = r)
      ∧ (∀ t, feasible 4 corridors1 t → (inflow 4 t ≤ r)%Z)
      ∧ (∃ A, A 0 = true ∧ A (4 - 1) = false ∧ cut_capacity 4 corridors1 A = r)
      ∧ (∀ A, A 0 = true → A (4 - 1) = false → (r ≤ cut_capacity 4 corridors1 A)%Z).
Proof.
  split; [lia|]. split; [concrete_square|]. split; [concrete_nonneg|].
  apply (maximum_bunnies_rescuable_is_maximum 4 corridors1);
    [lia|concrete_square|concrete_nonneg].
Defined.

(** *** One augmentation, entry by entry *)

(** One augmentation touches the corridors of the path and nothing else.
    For a path without a repeated room, inside the matrix and with a corridor
    at least, whatever the capacities: the amount [b] applied is the least
    residual capacity on the path; on each corridor of the path the traffic
    grows by [b] and in the opposite direction it falls by [b]; every other
    entry of the traffic matrix is left as it was. *)
Theorem augment_changes_path_only n c t p :
  square n c → square n t →
  NoDup p → Forall (λ x, x < n) p → 2 ≤ length p →
  ∃ t' b,
    augment c t p = Ret t' ∧ square n t'
    ∧ (∀ i u v, p !! i = Some u → p !! S i = Some v →
         (b ≤ residual c t u v)%Z
         ∧ entry t' u v = (entry t u v + b)%Z
         ∧ entry t' v u = (entry t v u - b)%Z)
    ∧ (∃ i u v, p !! i = Some u ∧ p !! S i = Some v ∧ b = residual c t u v)
    ∧ (∀ u v, (¬ ∃ i, p !! i = Some u ∧ p !! S i = Some v) →
              (¬ ∃ i, p !! i = Some v ∧ p !! S i = Some u) →
              entry t' u v = entry t u v).
Proof.
  intros Hc Ht Hnd Hp Hlen.
  exists (pushed t p (bottleneck c t p)), (bottleneck c t p).
  split; [by apply (augment_eq n)|]. split; [by apply pushed_square|].
  split; [|split].
  - intros i u v Hu Hv.
    assert (0 < path_crossings p u v)%Z as Huv
      by (apply path_crossings_lookup; eauto).
    destruct (path_crossings_NoDup p u v Hnd) as [Hle Hrev].
    specialize (Hrev Huv). split; [by apply bottleneck_le|].
    rewrite !(entry_pushed n) by done. rewrite Hrev.
    replace (path_crossings p u v) with 1%Z by lia. lia.
  - destruct (bottleneck_attained c t p Hlen) as (u & v & Huv & Hb).
    apply path_crossings_lookup in Huv as (i & Hu & Hv). by exists i, u, v.
  - intros u v Huv Hvu. rewrite (entry_pushed n) by done.
    pose proof (path_crossings_nonneg p u v).
    pose proof (path_crossings_nonneg p v u).
    assert (¬ (0 < path_crossings p u v)%Z) by (by rewrite path_crossings_lookup).
    assert (¬ (0 < path_crossings p v u)%Z) by (by rewrite path_crossings_lookup).
    replace (path_crossings p u v) with 0%Z by lia.
    replace (path_crossings p v u) with 0%Z by lia. lia.
Qed.

Lemma augment_changes_path_only_witness :
  square 4 corridors1 ∧ square 4 (zero_traffic 4)
  ∧ NoDup route1 ∧ Forall (λ x, x < 4) route1 ∧ 2 ≤ length route1
  ∧ ∃ t' b,
      augment corridors1 (zero_traffic 4) route1 = Ret t' ∧ square 4 t'
      ∧ (∀ i u v, route1 !! i = Some u → route1 !! S i = Some v →
           (b ≤ residual corridors1 (zero_traffic 4) u v)%Z
           ∧ entry t' u v = (entry (zero_traffic 4) u v + b)%Z
           ∧ entry t' v u = (entry (zero_traffic 4) v u - b)%Z)
      ∧ (∃ i u v, route1 !! i = Some u ∧ route1 !! S i = Some v
                  ∧ b = residual corridors1 (zero_traffic 4) u v)
      ∧ (∀ u v, (¬ ∃ i, route1 !! i = Some u ∧ route1 !! S i = Some v) →
                (¬ ∃ i, route1 !! i = Some v ∧ route1 !! S i = Some u) →
                entry t' u v = entry (zero_traffic 4) u v).
Proof.
  split; [concrete_square|]. split; [concrete_square|].
  split; [by apply (bool_decide_unpack _)|]. split; [concrete_range|].
  split; [simpl; lia|].
  apply (augment_changes_path_only 4 corridors1 (zero_traffic 4) route1).
  - concrete_square.
  - concrete_square.
  - by apply (bool_decide_unpack _).
  - concrete_range.
  - simpl. lia.
Defined.

(** *** One augmentation, the value of the flow *)

(** One augmentation of a feasible flow along an augmenting path raises the
    traffic into the last room, and the traffic out of room 0, by exactly the
    bottleneck of the path, which is the least residual capacity of its
    corridors and at least 1. *)
Theorem augment_raises_flow_by_bottleneck n c t p :
  2 ≤ n → square n c → feasible n c t → augmenting_path n c t p →
  ∃ t' b,
    augment c t p = Ret t' ∧ (1 ≤ b)%Z
    ∧ (∀ i u v, p !! i = Some u → p !! S i = Some v → (b ≤ residual c t u v)%Z)
    ∧ (∃ i u v, p !! i = Some u ∧ p !! S i = Some v ∧ b = residual c t u v)
    ∧ inflow n t' = (inflow n t + b)%Z
    ∧ sum_over (seq 0 n) (entry t' 0) = (sum_over (seq 0 n) (entry t 0) + b)%Z.
Proof.
  intros Hn Hc Ht Hp.
  destruct (feasible_augment n c t p Hn Hc Ht Hp) as (Haug & Ht' & Hb & Hin).
  pose proof (augmenting_path_length n c t p Hn Hp) as Hlen.
  destruct Hp as (Hhd & Hlast & Hnd & Hrooms & Hres).
  exists (pushed t p (bottleneck c t p)), (bottleneck c t p).
  split; [done|]. split; [done|]. split; [|split; [|split; [done|]]].
  - intros i u v Hu Hv. apply bottleneck_le, path_crossings_lookup. eauto.
  - destruct (bottleneck_attained c t p Hlen) as (u & v & Huv & Hbn).
    apply path_crossings_lookup in Huv as (i & Hu & Hv). by exists i, u, v.
  - rewrite (pushed_row n c t p) by (done || apply Ht).
    rewrite Hhd. rewrite decide_True by done. rewrite decide_False; [lia|].
    intros Hl. rewrite Hl in Hlast. simpl in Hlast. injection Hlast as <-. lia.
Qed.

Lemma augment_raises_flow_by_bottleneck_witness :
  2 ≤ 4 ∧ square 4 corridors1 ∧ feasible 4 corridors1 (zero_traffic 4)
  ∧ augmenting_path 4 corridors1 (zero_traffic 4) route1
  ∧ ∃ t' b,
      augment corridors1 (zero_traffic 4) route1 = Ret t' ∧ (1 ≤ b)%Z
      ∧ (∀ i u v, route1 !! i = Some u → route1 !! S i = Some v →
           (b ≤ residual corridors1 (zero_traffic 4) u v)%Z)
      ∧ (∃ i u v, route1 !! i = Some u ∧ route1 !! S i = Some v
                  ∧ b = residual corridors1 (zero_traffic 4) u v)
      ∧ inflow 4 t' = (inflow 4 (zero_traffic 4) + b)%Z
      ∧ sum_over (seq 0 4) (entry t' 0)
        = (sum_over (seq 0 4) (entry (zero_traffic 4) 0) + b)%Z.
Proof.
  assert (nonneg corridors1) as Hpos by concrete_nonneg.
  split; [lia|]. split; [concrete_square|].
  split; [by apply feasible_zero|]. split; [concrete_path 4|].
  apply (augment_raises_flow_by_bottleneck 4 corridors1 (zero_traffic 4) route1).
  - lia.
  - concrete_square.
  - by apply feasible_zero.
  - concrete_path 4.
Defined.

(** *** How many augmentations *)

(** Every augmentation adds a bunny at least, so the loop does no more of
    them than the traffic into the last room grows. *)
Lemma engine_loop_count n c fuel0 :
  2 ≤ n → square n c → search_fuel n ≤ fuel0 →
  ∀ fuel t k, feasible n c t →
    (capacity_in n c - inflow n t < Z.of_nat fuel)%Z →
    ∃ t' k', engine_loop fuel0 fuel c t k = Ret (t', k')
             ∧ (Z.of_nat k' - Z.of_nat k ≤ inflow n t' - inflow n t)%Z.
Proof.
  intros Hn Hc Hfuel0. induction fuel as [|fuel IH]; intros t k Ht Hm.
  { pose proof (inflow_le_capacity n c t ltac:(lia) Ht). lia. }
  simpl. destruct (find_bunny_path_outcome n c t fuel0 Hc (feasible_square _ _ _ Ht) Hfuel0)
    as [(p & -> & Hp & _)|[-> Hnone]]; simpl.
  - destruct (feasible_augment n c t p Hn Hc Ht Hp) as (-> & Ht' & Hb & Hin). simpl.
    destruct (IH (pushed t p (bottleneck c t p)) (S k) Ht') as (t' & k' & ? & ?);
      [lia|]. exists t', k'. split; [done|]. lia.
  - exists t, k. split; [done|]. lia.
Qed.

(** The main loop does at most as many augmentations as the number it
    returns, which is at most the capacity out of room 0 and at most the
    capacity into the last room. *)
Theorem engine_iterations_bounded n c :
  2 ≤ n → square n c → nonneg c →
  ∃ fuel0, ∀ fuel, fuel0 ≤ fuel →
    ∃ t k r, engine_loop fuel fuel c (zero_traffic n) 0 = Ret (t, k)
      ∧ maximum_bunnies_rescuable fuel c = Ret r
      ∧ (Z.of_nat k ≤ r)%Z
      ∧ (r ≤ capacity_out n c)%Z ∧ (r ≤ capacity_in n c)%Z.
Proof.
  intros Hn Hc Hpos. exists (engine_fuel n c). intros fuel Hfuel.
  destruct (maximum_bunnies_rescuable_run n c fuel Hn Hc Hpos Hfuel)
    as (t & k & Hloop & Ht & _ & Hrun & _).
  exists t, k, (inflow n t). split; [done|]. split; [done|].
  assert (inflow n (zero_traffic n) = 0%Z) as Hzero.
  { apply sum_over_zero. intros u _. apply entry_zero_traffic. }
  pose proof (capacity_in_nonneg n c Hpos) as Hcap.
  unfold engine_fuel in Hfuel.
  destruct (engine_loop_count n c fuel Hn Hc ltac:(lia) fuel (zero_traffic n) 0)
    as (t' & k' & Hloop' & Hcount).
  { by apply feasible_zero. }
  { rewrite Hzero. lia. }
  rewrite Hloop in Hloop'. injection Hloop' as <- <-.
  split; [lia|]. split; [by apply inflow_le_source|].
  apply inflow_le_capacity; [lia|done].
Qed.

Lemma engine_iterations_bounded_witness :
  2 ≤ 4 ∧ square 4 corridors1 ∧ nonneg corridors1
  ∧ ∃ fuel0, ∀ fuel, fuel0 ≤ fuel →
      ∃ t k r, engine_loop fuel fuel corridors1 (zero_traffic 4) 0 = Ret (t, k)
        ∧ maximum_bunnies_rescuable fuel corridors1 = Ret r
        ∧ (Z.of_nat k ≤ r)%Z
        ∧ (r ≤ capacity_out 4 corridors1)%Z ∧ (r ≤ capacity_in 4 corridors1)%Z.
Proof.
  split; [lia|]. split; [concrete_square|]. split; [concrete_nonneg|].
  apply (engine_iterations_bounded 4 corridors1); [lia|concrete_square|concrete_nonneg].
Defined.

(** *** The traffic the engine ends with *)

(** The traffic matrix the main loop ends with is a flow within the
    capacities: it is square, the traffic from [u] to [v] is the opposite of
    the traffic from [v] to [u], it exceeds the capacity of no corridor, and
    what flows against a corridor is at most the capacity of the opposite
    corridor. *)
Theorem final_traffic_within_capacities n c :
  2 ≤ n → square n c → nonneg c →
  ∃ fuel0, ∀ fuel, fuel0 ≤ fuel →
    ∃ t k, engine_loop fuel fuel c (zero_traffic n) 0 = Ret (t, k)
      ∧ square n t
      ∧ (∀ u v, u < n → v < n → entry t u v = (- entry t v u)%Z)
      ∧ (∀ u v, u < n → v < n → (- entry c v u ≤ entry t u v ≤ entry c u v)%Z).
Proof.
  intros Hn Hc Hpos. exists (engine_fuel n c). intros fuel Hfuel.
  destruct (maximum_bunnies_rescuable_run n c fuel Hn Hc Hpos Hfuel)
    as (t & k & Hloop & Ht & _).
  exists t, k. split; [done|]. split; [apply Ht|]. split; [apply Ht|].
  intros u v Hu Hv.
  pose proof (feasible_skew n c t Ht u v Hu Hv).
  pose proof (feasible_cap n c t Ht u v Hu Hv).
  pose proof (feasible_cap n c t Ht v u Hv Hu). lia.
Qed.

Lemma final_traffic_within_capacities_witness :
  2 ≤ 4 ∧ square 4 corridors1 ∧ nonneg corridors1
  ∧ ∃ fuel0, ∀ fuel, fuel0 ≤ fuel →
      ∃ t k, engine_loop fuel fuel corridors1 (zero_traffic 4) 0 = Ret (t, k)
        ∧ square 4 t
        ∧ (∀ u v, u < 4 → v < 4 → entry t u v = (- entry t v u)%Z)
        ∧ (∀ u v, u < 4 → v < 4 →
             (- entry corridors1 v u ≤ entry t u v ≤ entry corridors1 u v)%Z).
Proof.
  split; [lia|]. split; [concrete_square|]. split; [concrete_nonneg|].
  apply (final_traffic_within_capacities 4 corridors1);
    [lia|concrete_square|concrete_nonneg].
Defined.

(** *** Distances in the residual graph *)

(** The least number of corridors with room left that lead from room 0 to
    room [u]; [n] when there is no way. *)
Definition dist (n : nat) (c t : matrix) (u : nat) : nat :=
  default n (head (filter (λ k, Exists (λ p, last p = Some u) (level n c t k))
                          (seq 0 n))).

Lemma sorted_head_le (l : list nat) x :
  StronglySorted lt l → x ∈ l → ∃ y, head l = Some y ∧ y ≤ x.
Proof.
  intros Hl Hx. destruct l as [|y l]; [by apply elem_of_nil in Hx|].
  exists y. split; [done|]. apply elem_of_cons in Hx as [->|Hx]; [done|].
  apply StronglySorted_inv in Hl as [_ Hy]. rewrite Forall_forall in Hy.
  specialize (Hy x Hx). lia.
Qed.

Section dist.
Variables (n : nat) (c t : matrix).
Hypothesis (Hn : 0 < n).

Lemma dist_le u : dist n c t u ≤ n.
Proof.
  clear Hn. unfold dist. destruct (head _) as [k|] eqn:Hk; [|done]. simpl.
  apply head_Some_elem_of, list_elem_of_filter in Hk as [_ Hk%elem_of_seq]. lia.
Qed.

Lemma dist_path u :
  dist n c t u < n →
  ∃ p, simple_path n c t p ∧ last p = Some u ∧ length p = S (dist n c t u).
Proof.
  unfold dist. destruct (head _) as [k|] eqn:Hk; simpl; [|lia]. intros _.
  apply head_Some_elem_of, list_elem_of_filter in Hk as [Hex _].
  apply Exists_exists in Hex as (p & [Hp Hlen]%elem_of_level & Hlast). eauto.
Qed.

Lemma dist_min p u :
  simple_path n c t p → last p = Some u → S (dist n c t u) ≤ length p.
Proof.
  intros Hp Hlast. pose proof (simple_path_length n c t p Hn Hp) as Hlen.
  assert (0 < length p) as Hpos by (destruct p; [done|simpl; lia]).
  destruct (sorted_head_le
    (filter (λ k, Exists (λ p, last p = Some u) (level n c t k)) (seq 0 n))
    (pred (length p))) as (k & Hk & Hle).
  - apply filter_sorted, seq_sorted.
  - apply list_elem_of_filter. split; [|apply elem_of_seq; lia].
    apply Exists_exists. exists p. split; [|done].
    apply elem_of_level. split; [done|lia].
  - unfold dist. rewrite Hk. simpl. lia.
Qed.

(** A corridor with room left lengthens the way by one at most. *)
Lemma dist_step u v :
  dist n c t u < n → v < n → (0 < residual c t u v)%Z →
  dist n c t v ≤ S (dist n c t u).
Proof.
  intros (p & Hp & Hlast & Hlen)%dist_path Hv Hres.
  destruct (decide (v ∈ p)) as [Hin|Hnin].
  - apply list_elem_of_split in Hin as (p1 & p2 & ->).
    assert (simple_path n c t (p1 ++ [v])) as Hp1.
    { apply (simple_path_prefix n c t _ p2); [done| |by destruct p1].
      by rewrite <- app_assoc. }
    pose proof (dist_min _ v Hp1 (last_snoc _ _)) as Hmin.
    rewrite !length_app in *. simpl in *. lia.
  - assert (simple_path n c t (p ++ [v])) as Hpv by (by apply (simple_step _ _ _ _ u)).
    pose proof (dist_min _ v Hpv (last_snoc _ _)) as Hmin.
    rewrite length_app in Hmin. simpl in Hmin. lia.
Qed.

(** **** Along a shortest augmenting path *)

Section shortest.
Variable p : path.
Hypothesis Hp : augmenting_path n c t p.
Hypothesis Hshort : ∀ q, augmenting_path n c t q → length p ≤ length q.

Lemma shortest_prefix i x : p !! i = Some x → dist n c t x ≤ i.
Proof.
  intros Hi. apply augmenting_simple in Hp as [Hsimple _]; [|done].
  pose proof (take_drop_middle p i x Hi) as Hsplit.
  assert (simple_path n c t (take i p ++ [x])) as Hpre.
  { apply (simple_path_prefix n c t _ (drop (S i) p)); [done| |by destruct (take i p)].
    rewrite <- app_assoc. simpl. by rewrite Hsplit. }
  pose proof (dist_min _ x Hpre (last_snoc _ _)) as Hmin.
  rewrite length_app, length_take in Hmin. simpl in Hmin. lia.
Qed.

Lemma shortest_along d : ∀ j x y,
  p !! j = Some x → p !! (j + d) = Some y → dist n c t y ≤ dist n c t x + d.
Proof.
  induction d as [|d IH]; intros j x y Hx Hy.
  - rewrite Nat.add_0_r in Hy. simplify_eq. lia.
  - destruct (lookup_lt_is_Some_2 p (j + d)) as [z Hz].
    { apply lookup_lt_Some in Hy. lia. }
    specialize (IH j x z Hx Hz).
    replace (j + S d) with (S (j + d)) in Hy by lia.
    pose proof Hp as (_ & _ & _ & Hrooms & Hres).
    pose proof (Hres _ _ _ Hz Hy) as Hzy.
    rewrite Forall_lookup in Hrooms. pose proof (Hrooms _ _ Hy) as Hyn.
    pose proof (shortest_prefix _ _ Hz) as Hzd.
    pose proof (Hrooms _ _ Hz) as Hzn. simpl in Hyn, Hzn.
    assert (length p ≤ n) as Hlen.
    { apply augmenting_simple in Hp as [Hsimple _]; [|done].
      by apply (simple_path_length n c t). }
    apply lookup_lt_Some in Hy.
    pose proof (dist_step z y ltac:(lia) Hyn Hzy). lia.
Qed.

Lemma shortest_sink x :
  last p = Some x → S (dist n c t x) = length p.
Proof.
  intros Hlast. pose proof Hlast as Hl. rewrite last_lookup in Hl.
  pose proof (shortest_prefix _ _ Hl) as Hle.
  assert (0 < length p) as Hpos by (destruct p; [done|simpl; lia]).
  assert (length p ≤ n) as Hlen.
  { apply augmenting_simple in Hp as [Hsimple _]; [|done].
    by apply (simple_path_length n c t). }
  destruct (decide (S (dist n c t x) = length p)) as [|Hne]; [done|exfalso].
  destruct (dist_path x) as (q & Hq & Hqlast & Hqlen); [lia|].
  assert (augmenting_path n c t q) as Haug.
  { apply augmenting_simple; [done|]. split; [done|].
    pose proof Hp as (_ & Hsink & _). unfold at_sink. by rewrite Hqlast, <- Hlast. }
  specialize (Hshort q Haug). lia.
Qed.

Lemma shortest_dist i x : p !! i = Some x → dist n c t x = i.
Proof.
  intros Hi. pose proof (shortest_prefix _ _ Hi) as Hle.
  pose proof (lookup_lt_Some _ _ _ Hi) as Hin.
  destruct (lookup_lt_is_Some_2 p (pred (length p))) as [y Hy]; [lia|].
  assert (last p = Some y) as Hlast by (by rewrite last_lookup).
  pose proof (shortest_sink y Hlast) as Hsink.
  pose proof (shortest_along (pred (length p) - i) i x y Hi) as Halong.
  replace (i + (pred (length p) - i)) with (pred (length p)) in Halong by lia.
  specialize (Halong Hy). lia.
Qed.

End shortest.
End dist.

(** **** After an augmentation along a shortest path *)

Section after.
Variables (n : nat) (c t : matrix) (p : path).
Hypothesis (Hn : 2 ≤ n).
Hypothesis (Ht : square n t).
Hypothesis Hp : augmenting_path n c t p.
Hypothesis Hshort : ∀ q, augmenting_path n c t q → length p ≤ length q.

Let b := bottleneck c t p.
Let t' := pushed t p b.

Lemma after_rooms : Forall (λ x, x < n) p.
Proof. by destruct Hp as (_ & _ & _ & ? & _). Qed.

Lemma after_bottleneck : (0 < b)%Z.
Proof.
  destruct Hp as (_ & _ & Hnd & Hrooms & Hres).
  apply (bottleneck_pos c t p); [done|].
  by apply (augmenting_path_length n c t).
Qed.

(** A corridor that has room left after the augmentation and had none
    before runs against the path. *)
Lemma new_corridor u v :
  (0 < residual c t' u v)%Z → (residual c t u v ≤ 0)%Z →
  ∃ i, p !! i = Some v ∧ p !! S i = Some u.
Proof.
  intros Hnew Hold. unfold residual, t' in *.
  rewrite (entry_pushed n) in Hnew by (done || apply after_rooms).
  pose proof after_bottleneck as Hb. fold b in Hnew.
  pose proof (path_crossings_nonneg p u v).
  apply path_crossings_lookup. nia.
Qed.

(** A corridor that had room left before the augmentation and has none
    after is on the path. *)
Lemma lost_corridor u v :
  (0 < residual c t u v)%Z → (residual c t' u v ≤ 0)%Z →
  ∃ i, p !! i = Some u ∧ p !! S i = Some v.
Proof.
  intros Hold Hnew. unfold residual, t' in *.
  rewrite (entry_pushed n) in Hnew by (done || apply after_rooms).
  pose proof after_bottleneck as Hb. fold b in Hnew.
  pose proof (path_crossings_nonneg p v u).
  apply path_crossings_lookup. nia.
Qed.

Lemma dist_after_path q :
  simple_path n c t' q → ∀ v, last q = Some v → S (dist n c t v) ≤ length q.
Proof.
  induction 1 as [|q r x Hq IH Hlast Hx [Hnin Hres]]; intros v Hv.
  - injection Hv as <-.
    pose proof (dist_min n c t ltac:(lia) [0] 0 (simple_start n c t) eq_refl). done.
  - rewrite last_snoc in Hv. injection Hv as <-.
    specialize (IH r Hlast). rewrite length_app. simpl.
    pose proof (simple_path_length n c t' q ltac:(lia) Hq) as Hlen.
    destruct (decide (0 < residual c t r x)%Z) as [Hold|Hold].
    + pose proof (dist_step n c t ltac:(lia) r x ltac:(lia) Hx Hold). lia.
    + destruct (new_corridor r x Hres ltac:(lia)) as (i & Hi & HSi).
      rewrite (shortest_dist n c t ltac:(lia) p Hp Hshort i x Hi).
      rewrite (shortest_dist n c t ltac:(lia) p Hp Hshort (S i) r HSi) in IH. lia.
Qed.

(** The augmentation brings no room nearer to room 0. *)
Lemma dist_mono v : dist n c t v ≤ dist n c t' v.
Proof.
  destruct (decide (dist n c t' v < n)) as [Hv|Hv].
  - destruct (dist_path n c t' ltac:(lia) v Hv) as (q & Hq & Hlast & Hlen).
    pose proof (dist_after_path q Hq v Hlast). lia.
  - pose proof (dist_le n c t v). lia.
Qed.

End after.

(** *** A measure that every augmentation lowers *)

(** For the corridor from [u] to [v]: how far from the last possible
    distance its tail is, or will be once the corridor has room again. *)
Definition weight (n : nat) (c t : matrix) (u v : nat) : nat :=
  if decide (0 < residual c t u v)%Z then n + 1 - dist n c t u
  else n + 1 - (dist n c t u `max` S (dist n c t v)).

Definition potential (n : nat) (c t : matrix) : Z :=
  sum_over (seq 0 n) (λ u, sum_over (seq 0 n) (λ v, Z.of_nat (weight n c t u v))).

Lemma sum_over_const {A} (l : list A) (z : Z) :
  sum_over l (λ _, z) = (Z.of_nat (length l) * z)%Z.
Proof.
  induction l as [|x l IH]; [done|]. rewrite sum_over_cons, IH. simpl length. lia.
Qed.

Lemma sum_over_drop {A} (l : list A) (f g : A → Z) x0 (d : Z) :
  (∀ x, x ∈ l → (f x ≤ g x)%Z) → x0 ∈ l → (f x0 + d ≤ g x0)%Z →
  (sum_over l f + d ≤ sum_over l g)%Z.
Proof.
  intros Hle Hx0 Hd. induction l as [|x l IH]; [by apply elem_of_nil in Hx0|].
  rewrite !sum_over_cons. apply elem_of_cons in Hx0 as [->|Hx0].
  - assert (sum_over l f ≤ sum_over l g)%Z; [|lia].
    apply sum_over_le. intros y Hy. apply Hle. by right.
  - assert (f x ≤ g x)%Z by (apply Hle; left).
    assert (sum_over l f + d ≤ sum_over l g)%Z; [|lia].
    apply IH; [|done]. intros y Hy. apply Hle. by right.
Qed.

Lemma weight_le n c t u v : weight n c t u v ≤ n + 1.
Proof. unfold weight. destruct (decide _); lia. Qed.

Lemma potential_nonneg n c t : (0 ≤ potential n c t)%Z.
Proof.
  apply sum_over_nonneg. intros u _. apply sum_over_nonneg. intros v _. lia.
Qed.

Lemma potential_le n c t : (potential n c t ≤ Z.of_nat (n * n * (n + 1)))%Z.
Proof.
  unfold potential.
  etrans; [apply (sum_over_le _ _ (λ _, Z.of_nat (n * (n + 1))))|].
  - intros u _.
    etrans; [apply (sum_over_le _ _ (λ _, Z.of_nat (n + 1)))|].
    + intros v _. pose proof (weight_le n c t u v). lia.
    + rewrite sum_over_const, length_seq. lia.
  - rewrite sum_over_const, length_seq. lia.
Qed.

Section measure.
Variables (n : nat) (c t : matrix) (p : path).
Hypothesis (Hn : 2 ≤ n).
Hypothesis (Ht : square n t).
Hypothesis Hp : augmenting_path n c t p.
Hypothesis Hshort : ∀ q, augmenting_path n c t q → length p ≤ length q.

Let b := bottleneck c t p.
Let t' := pushed t p b.

Lemma weight_mono u v : weight n c t' u v ≤ weight n c t u v.
Proof.
  pose proof (dist_mono n c t p Hn Ht Hp Hshort u) as Hu.
  pose proof (dist_mono n c t p Hn Ht Hp Hshort v) as Hv.
  fold b in Hu, Hv. fold t' in Hu, Hv. unfold weight.
  destruct (decide (0 < residual c t' u v)%Z) as [Hnew|Hnew],
           (decide (0 < residual c t u v)%Z) as [Hold|Hold]; try lia.
  destruct (new_corridor n c t p Hn Ht Hp u v Hnew ltac:(lia)) as (i & Hi & HSi).
  pose proof (shortest_dist n c t ltac:(lia) p Hp Hshort i v Hi).
  pose proof (shortest_dist n c t ltac:(lia) p Hp Hshort (S i) u HSi). lia.
Qed.

Lemma weight_drop i u v :
  p !! i = Some u → p !! S i = Some v → residual c t' u v = 0%Z →
  weight n c t' u v + 2 ≤ weight n c t u v.
Proof.
  intros Hi HSi Hzero.
  pose proof (dist_mono n c t p Hn Ht Hp Hshort v) as Hv.
  fold b in Hv. fold t' in Hv.
  pose proof Hp as (_ & _ & _ & _ & Hres). pose proof (Hres i u v Hi HSi) as Hold.
  assert (length p ≤ n) as Hlen.
  { apply augmenting_simple in Hp as [Hsimple _]; [|lia].
    by apply (simple_path_length n c t); [lia|]. }
  apply lookup_lt_Some in HSi as HSilt.
  rewrite (shortest_dist n c t ltac:(lia) p Hp Hshort (S i) v HSi) in Hv.
  unfold weight. rewrite decide_False by lia. rewrite decide_True by done.
  rewrite (shortest_dist n c t ltac:(lia) p Hp Hshort i u Hi). lia.
Qed.

Lemma potential_drop : (potential n c t' + 2 ≤ potential n c t)%Z.
Proof.
  pose proof Hp as (_ & _ & Hnd & Hrooms & Hres).
  pose proof (augmenting_path_length n c t p Hn Hp) as Hlen.
  destruct (pushed_saturates n c t p Ht Hnd Hrooms Hlen)
    as (i & u & v & Hi & HSi & _ & Hzero).
  fold b in Hzero. fold t' in Hzero.
  rewrite Forall_lookup in Hrooms.
  pose proof (Hrooms _ _ Hi) as Hu. pose proof (Hrooms _ _ HSi) as Hv.
  simpl in Hu, Hv. unfold potential.
  apply (sum_over_drop _ _ _ u).
  - intros x _. apply sum_over_le. intros y _. pose proof (weight_mono x y). lia.
  - apply elem_of_seq. lia.
  - apply (sum_over_drop _ _ _ v).
    + intros y _. pose proof (weight_mono u y). lia.
    + apply elem_of_seq. lia.
    + pose proof (weight_drop i u v Hi HSi Hzero). lia.
Qed.

End measure.

(** *** The number of augmentations, whatever the capacities *)

(** Iterations that are enough for every loop of a run on a matrix with [n]
    rooms. *)
Definition rooms_fuel (n : nat) : nat := search_fuel n `max` S (n * n * (n + 1)).

Lemma engine_loop_measure n c fuel0 :
  2 ≤ n → square n c → search_fuel n ≤ fuel0 →
  ∀ fuel t k, feasible n c t →
    (potential n c t < 2 * Z.of_nat fuel)%Z →
    ∃ t' k', engine_loop fuel0 fuel c t k = Ret (t', k')
             ∧ feasible n c t' ∧ (∀ q, ¬ augmenting_path n c t' q)
             ∧ (2 * (Z.of_nat k' - Z.of_nat k)
                ≤ potential n c t - potential n c t')%Z.
Proof.
  intros Hn Hc Hfuel0. induction fuel as [|fuel IH]; intros t k Ht Hm.
  { pose proof (potential_nonneg n c t). lia. }
  simpl. destruct (find_bunny_path_outcome n c t fuel0 Hc (feasible_square _ _ _ Ht) Hfuel0)
    as [(p & -> & Hp & Hshort)|[-> Hnone]]; simpl.
  - destruct (feasible_augment n c t p Hn Hc Ht Hp) as (-> & Ht' & _). simpl.
    pose proof (potential_drop n c t p Hn (feasible_square _ _ _ Ht) Hp
      (λ q Hq, proj1 (Hshort q Hq))) as Hdrop.
    destruct (IH (pushed t p (bottleneck c t p)) (S k) Ht') as (t' & k' & ? & ? & ? & ?);
      [lia|]. exists t', k'. split; [done|]. split; [done|]. split; [done|]. lia.
  - exists t, k. split; [done|]. split; [done|]. split; [done|]. lia.
Qed.

(** The number of augmentations is bounded by the number of rooms alone.
    With the paths found breadth first, as [find_bunny_path] finds them, the
    main loop ends after at most [n * n * (n + 1) / 2] augmentations on a
    square matrix of [n] rooms, whatever the size of the capacities; a
    number of iterations that depends on [n] only is enough for
    [maximum_bunnies_rescuable] to return. *)
Theorem engine_iterations_polynomial n c :
  2 ≤ n → square n c → nonneg c →
  ∀ fuel, rooms_fuel n ≤ fuel →
    ∃ t k r, engine_loop fuel fuel c (zero_traffic n) 0 = Ret (t, k)
      ∧ 2 * k ≤ n * n * (n + 1)
      ∧ maximum_bunnies_rescuable fuel c = Ret r
      ∧ r = inflow n t.
Proof.
  intros Hn Hc Hpos fuel Hfuel. unfold rooms_fuel in Hfuel.
  pose proof (potential_le n c (zero_traffic n)) as Hle.
  destruct (engine_loop_measure n c fuel Hn Hc ltac:(lia) fuel (zero_traffic n) 0)
    as (t & k & Hrun & Ht & _ & Hcount).
  { by apply feasible_zero. }
  { lia. }
  pose proof (potential_nonneg n c t).
  exists t, k, (inflow n t). split; [done|]. split; [lia|]. split; [|done].
  unfold maximum_bunnies_rescuable. destruct Hc as [-> _]. rewrite Hrun. simpl.
  apply sink_inflow_eq, Ht.
Qed.

Lemma engine_iterations_polynomial_witness :
  2 ≤ 4 ∧ square 4 corridors1 ∧ nonneg corridors1
  ∧ ∀ fuel, rooms_fuel 4 ≤ fuel →
      ∃ t k r, engine_loop fuel fuel corridors1 (zero_traffic 4) 0 = Ret (t, k)
        ∧ 2 * k ≤ 4 * 4 * (4 + 1)
        ∧ maximum_bunnies_rescuable fuel corridors1 = Ret r
        ∧ r = inflow 4 t.
Proof.
  split; [lia|]. split; [concrete_square|]. split; [concrete_nonneg|].
  apply (engine_iterations_polynomial 4 corridors1); [lia|concrete_square|concrete_nonneg].
Defined.

(** *** Successive paths *)

(** The paths the main loop finds never get shorter: the path found after an
    augmentation has at least as many rooms as the path that was
    augmented. *)
Theorem successive_paths_never_shorter n c t p t' p' fuel :
  2 ≤ n → square n c → feasible n c t → search_fuel n ≤ fuel →
  find_bunny_path fuel c t = Ret (Some p) → augment c t p = Ret t' →
  find_bunny_path fuel c t' = Ret (Some p') →
  length p ≤ length p'.
Proof.
  intros Hn Hc Ht Hfuel Hfind Haug Hfind'.
  destruct (find_bunny_path_outcome n c t fuel Hc (feasible_square _ _ _ Ht) Hfuel)
    as [(p0 & Hp0 & Hp & Hshort)|[Hnone _]]; [|congruence].
  assert (p0 = p) as -> by congruence.
  destruct (feasible_augment n c t p Hn Hc Ht Hp) as (Haug' & Ht' & _).
  assert (t' = pushed t p (bottleneck c t p)) as -> by congruence.
  pose proof (find_bunny_path_sound n c _ fuel p' Hc (feasible_square _ _ _ Ht') Hfind')
    as Hp'.
  pose proof Hp as (_ & Hlast & _). pose proof Hp' as (_ & Hlast' & _).
  destruct (last p) as [x|] eqn:Hx; [|done].
  destruct (last p') as [x'|] eqn:Hx'; [|done].
  simpl in Hlast, Hlast'. assert (x' = x) as -> by congruence.
  pose proof (shortest_sink n c t ltac:(lia) p Hp
    (λ q Hq, proj1 (Hshort q Hq)) x Hx) as Hlen.
  pose proof (dist_mono n c t p Hn (feasible_square _ _ _ Ht) Hp
    (λ q Hq, proj1 (Hshort q Hq)) x) as Hmono.
  apply augmenting_simple in Hp' as [Hsimple _]; [|lia].
  pose proof (dist_min n c _ ltac:(lia) p' x Hsimple Hx'). lia.
Qed.

Definition two_ways : matrix := [[0; 1; 1]; [0; 0; 1]; [0; 0; 0]]%Z.

Lemma successive_paths_never_shorter_witness :
  2 ≤ 3 ∧ square 3 two_ways ∧ feasible 3 two_ways (zero_traffic 3)
  ∧ search_fuel 3 ≤ 42
  ∧ find_bunny_path 42 two_ways (zero_traffic 3) = Ret (Some [0; 2])
  ∧ augment two_ways (zero_traffic 3) [0; 2]
    = Ret [[0; 0; 1]; [0; 0; 0]; [-1; 0; 0]]%Z
  ∧ find_bunny_path 42 two_ways [[0; 0; 1]; [0; 0; 0]; [-1; 0; 0]]%Z
    = Ret (Some [0; 1; 2])
  ∧ length [0; 2] ≤ length [0; 1; 2].
Proof.
  assert (nonneg two_ways) as Hpos by concrete_nonneg.
  split; [lia|]. split; [concrete_square|]. split; [by apply feasible_zero|].
  split; [by vm_compute|]. split; [by vm_compute|]. split; [by vm_compute|].
  split; [by vm_compute|].
  apply (successive_paths_never_shorter 3 two_ways (zero_traffic 3) [0; 2]
           [[0; 0; 1]; [0; 0; 0]; [-1; 0; 0]]%Z [0; 1; 2] 42).
  - lia.
  - concrete_square.
  - by apply feasible_zero.
  - by vm_compute.
  - by vm_compute.
  - by vm_compute.
  - by vm_compute.
Defined.

(** *** Order of the index lists *)

Lemma kept_ext n (X Y : list Z) : (∀ i, i ∈ X ↔ i ∈ Y) → kept n X = kept n Y.
Proof.
  intros HXY. unfold kept. apply list_filter_iff. intros u. by rewrite HXY.
Qed.

Lemma starting_perm entrances entrances' path v :
  entrances ≡ₚ entrances' → starting entrances path v = starting entrances' path v.
Proof. intros Hp. by apply sum_over_perm. Qed.

Lemma escaping_perm exits exits' path u :
  exits ≡ₚ exits' → escaping exits path u = escaping exits' path u.
Proof. intros Hp. by apply sum_over_perm. Qed.

Lemma bypass_perm entrances entrances' exits exits' path :
  entrances ≡ₚ entrances' → exits ≡ₚ exits' →
  bypass entrances exits path = bypass entrances' exits' path.
Proof.
  intros Hs Ht. unfold bypass.
  rewrite (list_filter_iff (λ i, Z.of_nat i ∈ exits) (λ i, Z.of_nat i ∈ exits')).
  - apply sum_over_ext. intros v _. by apply starting_perm.
  - intros u. by rewrite Ht.
Qed.

Lemma reduced_perm entrances entrances' exits exits' path :
  entrances ≡ₚ entrances' → exits ≡ₚ exits' →
  reduced entrances exits path = reduced entrances' exits' path.
Proof.
  intros Hs Ht. unfold reduced.
  rewrite (kept_ext (length path) (entrances ++ exits) (entrances' ++ exits')).
  2:{ intros i. by rewrite Hs, Ht. }
  f_equal; [|f_equal].
  - f_equal. f_equal. apply list_fmap_ext. intros i v _. by apply starting_perm.
  - apply list_fmap_ext. intros i u _. simpl. do 3 f_equal.
    by apply escaping_perm.
Qed.

(** The order in which the entrances and the exits are listed does not
    matter: on a square matrix, with indices within range, listing them in
    another order gives the same reduced matrix, the same number of bunnies
    rescued immediately and, for every number of iterations allowed, the same
    outcome of [solution]. *)
Theorem solution_order_irrelevant n entrances entrances' exits exits' path :
  square n path → in_range n entrances → in_range n exits →
  entrances ≡ₚ entrances' → exits ≡ₚ exits' →
  compressed_paths entrances' exits' path = compressed_paths entrances exits path
  ∧ ∀ fuel, solution fuel entrances' exits' path
            = solution fuel entrances exits path.
Proof.
  intros Hpath Hin Hout Hs Ht.
  assert (compressed_paths entrances' exits' path
          = compressed_paths entrances exits path) as Heq.
  { rewrite !(compressed_paths_eq n); try done.
    - by rewrite (bypass_perm _ _ _ _ path Hs Ht), (reduced_perm _ _ _ _ path Hs Ht).
    - unfold in_range. by rewrite <- Hs.
    - unfold in_range. by rewrite <- Ht. }
  split; [done|]. intros fuel. unfold solution. by rewrite Heq.
Qed.

Lemma solution_order_irrelevant_witness :
  square 6 scenario2 ∧ in_range 6 [0; 1]%Z ∧ in_range 6 [4; 5]%Z
  ∧ [0; 1]%Z ≡ₚ [1; 0]%Z ∧ [4; 5]%Z ≡ₚ [5; 4]%Z
  ∧ compressed_paths [1; 0]%Z [5; 4]%Z scenario2
    = compressed_paths [0; 1]%Z [4; 5]%Z scenario2
  ∧ ∀ fuel, solution fuel [1; 0]%Z [5; 4]%Z scenario2
            = solution fuel [0; 1]%Z [4; 5]%Z scenario2.
Proof.
  split; [concrete_square|]. split; [concrete_range|]. split; [concrete_range|].
  split; [apply perm_swap|]. split; [apply perm_swap|].
  apply (solution_order_irrelevant 6 [0; 1]%Z [1; 0]%Z [4; 5]%Z [5; 4]%Z scenario2).
  - concrete_square.
  - concrete_range.
  - concrete_range.
  - apply perm_swap.
  - apply perm_swap.
Defined.

(** *** Nothing to carry *)

Lemma residual_zero_traffic n c u v : residual c (zero_traffic n) u v = entry c u v.
Proof. unfold residual. rewrite entry_zero_traffic. lia. Qed.

Lemma no_path_from_dry_source n c :
  2 ≤ n → (∀ v, v < n → (entry c 0 v ≤ 0)%Z) →
  ∀ q, ¬ augmenting_path n c (zero_traffic n) q.
Proof.
  intros Hn Hdry q Hq.
  pose proof (augmenting_path_length n c _ q Hn Hq) as Hlen.
  destruct Hq as (Hhd & _ & _ & Hrooms & Hres).
  destruct q as [|x0 [|x1 q]]; simpl in Hlen; [lia..|].
  injection Hhd as ->.
  specialize (Hres 0 0 x1 eq_refl eq_refl). rewrite residual_zero_traffic in Hres.
  inversion_clear Hrooms as [|? ? _ Hrest]. inversion_clear Hrest as [|? ? Hx1 _].
  specialize (Hdry x1 Hx1). lia.
Qed.

Lemma no_path_into_dry_sink n c :
  2 ≤ n → (∀ u, u < n → (entry c u (n - 1) ≤ 0)%Z) →
  ∀ q, ¬ augmenting_path n c (zero_traffic n) q.
Proof.
  intros Hn Hdry q Hq.
  pose proof (augmenting_path_length n c _ q Hn Hq) as Hlen.
  destruct Hq as (_ & Hlast & _ & Hrooms & Hres).
  rewrite last_lookup in Hlast.
  destruct (q !! pred (length q)) as [x|] eqn:Hx; [|done].
  injection Hlast as Hxn.
  destruct (lookup_lt_is_Some_2 q (length q - 2)) as [u Hu]; [lia|].
  replace (pred (length q)) with (S (length q - 2)) in Hx by lia.
  specialize (Hres _ u x Hu Hx). rewrite residual_zero_traffic in Hres.
  rewrite Forall_lookup in Hrooms. specialize (Hrooms _ _ Hu). simpl in Hrooms.
  specialize (Hdry u Hrooms). replace (n - 1) with x in Hdry by lia. lia.
Qed.

(** With no augmenting path at the start the engine returns 0. *)
Lemma engine_idle n c fuel :
  2 ≤ n → square n c → (∀ q, ¬ augmenting_path n c (zero_traffic n) q) →
  search_fuel n ≤ fuel → maximum_bunnies_rescuable fuel c = Ret 0%Z.
Proof.
  intros Hn Hc Hnone Hfuel.
  destruct (find_bunny_path_outcome n c (zero_traffic n) fuel Hc
    (zero_traffic_square n) Hfuel) as [(p & _ & Hp & _)|[Hfind _]].
  { by destruct (Hnone p). }
  unfold maximum_bunnies_rescuable. destruct Hc as [-> _].
  destruct fuel as [|fuel']; [unfold search_fuel in Hfuel; lia|].
  cbn [engine_loop]. rewrite Hfind. cbn [mbind result_bind].
  rewrite sink_inflow_eq by apply zero_traffic_square. f_equal.
  apply sum_over_zero. intros u _. apply entry_zero_traffic.
Qed.



(** With an empty list of entrances or an empty list of exits [solution]
    returns 0, on every square matrix (the capacities may have any sign) and
    for indices within range. *)
Theorem solution_without_entrance_or_exit n entrances exits path :
  square n path → in_range n entrances → in_range n exits →
  entrances = [] ∨ exits = [] →
  ∃ fuel0, ∀ fuel, fuel0 ≤ fuel → solution fuel entrances exits path = Ret 0%Z.
Proof.
  intros Hpath Hin Hout Hempty. pose proof Hpath as [Hlen _].
  set (m := length (kept n (entrances ++ exits))).
  exists (search_fuel (m + 2)). intros fuel Hfuel.
  unfold solution. rewrite (compressed_paths_eq n) by done.
  cbn [mbind result_bind].
  rewrite (engine_idle (m + 2)); [|lia|by apply reduced_square| |done].
  - cbn [mbind result_bind]. f_equal. rewrite Z.add_0_r.
    destruct Hempty as [-> | ->].
    + apply sum_over_zero. intros v _. done.
    + apply sum_over_zero. intros v [Hv _]%list_elem_of_filter.
      by apply elem_of_nil in Hv.
  - assert (∀ i, i < m → ∃ u, kept n (entrances ++ exits) !! i = Some u) as Hkept.
    { intros i Hi. by apply lookup_lt_is_Some_2. }
    destruct Hempty as [-> | ->].
    + apply no_path_from_dry_source; [lia|]. intros v Hv.
      destruct v as [|v]; [by rewrite (reduced_source_source n)|].
      destruct (decide (v < m)) as [Hvm|Hvm].
      * destruct (Hkept v Hvm) as [u Hu].
        rewrite (reduced_from_source n [] exits path Hlen v u Hu). done.
      * replace v with m by lia. by rewrite (reduced_source_sink n).
    + apply no_path_into_dry_sink; [lia|]. intros u Hu.
      replace (m + 2 - 1) with (S m) by lia.
      destruct u as [|u]; [by rewrite (reduced_source_sink n)|].
      destruct (decide (u < m)) as [Hum|Hum].
      * destruct (Hkept u Hum) as [x Hx].
        assert (entry (reduced entrances [] path) (S u) (S m)
                = escaping [] path x) as ->; [|done].
        apply (reduced_to_sink n entrances [] path Hlen u x Hx).
      * replace u with m by lia. by rewrite (reduced_from_sink n).
Qed.

Lemma solution_without_entrance_or_exit_witness :
  square 4 scenario1 ∧ in_range 4 [] ∧ in_range 4 [3]%Z
  ∧ ([] = @nil Z ∨ [3]%Z = [])
  ∧ ∃ fuel0, ∀ fuel, fuel0 ≤ fuel → solution fuel [] [3]%Z scenario1 = Ret 0%Z.
Proof.
  split; [concrete_square|]. split; [concrete_range|]. split; [concrete_range|].
  split; [by left|].
  apply (solution_without_entrance_or_exit 4 [] [3]%Z scenario1).
  - concrete_square.
  - concrete_range.
  - concrete_range.
  - by left.
Defined.

(** *** The cut made of everything but the exits *)

Lemma exits_cut n exits path :
  square n path → nonneg path → in_range n exits → NoDup exits →
  (cut_capacity n path (λ u, negb (bool_decide (Z.of_nat u ∈ exits)))
   ≤ sum_over exits (λ t, sum_over (seq 0 n) (λ u, entry path u (Z.to_nat t))))%Z.
Proof.
  intros Hpath Hpos Hout Hnd.
  pose proof (proj1 (Forall_forall _ _) Hout) as Hout'. simpl in Hout'.
  unfold cut_capacity, flux.
  etrans; [apply (sum_over_le _ _ (λ u,
    sum_over (seq 0 n) (λ v,
      if bool_decide (Z.of_nat v ∈ exits) then entry path u v else 0%Z)))|].
  - intros u _. apply sum_over_le. intros v _.
    rewrite negb_involutive.
    destruct (bool_decide (Z.of_nat u ∈ exits)), (bool_decide (Z.of_nat v ∈ exits));
      simpl; try done; by apply nonneg_entry.
  - rewrite sum_over_swap.
    rewrite (sum_over_perm _ _ _ (rooms_split n exits Hnd Hout)).
    rewrite sum_over_app, sum_over_fmap, (sum_over_zero (kept n exits)).
    + rewrite Z.add_0_r. apply Z.eq_le_incl, sum_over_ext. intros t Ht. simpl.
      apply sum_over_ext. intros u _.
      rewrite bool_decide_eq_true_2; [done|]. rewrite Z2Nat.id; [done|].
      apply Hout' in Ht. lia.
    + intros v [_ Hv]%elem_of_kept. apply sum_over_zero. intros u _.
      by rewrite bool_decide_eq_false_2.
Qed.

(** The result of [solution] is at most the sum of the capacities of all
    corridors that lead into an exit. *)
Theorem solution_bounded_by_exits n entrances exits path :
  square n path → nonneg path →
  in_range n entrances → in_range n exits → NoDup (entrances ++ exits) →
  ∃ r fuel0,
    (∀ fuel, fuel0 ≤ fuel → solution fuel entrances exits path = Ret r)
    ∧ (r ≤ sum_over exits
             (λ t, sum_over (seq 0 n) (λ u, entry path u (Z.to_nat t))))%Z.
Proof.
  intros Hpath Hpos Hin Hout Hnd.
  destruct (solution_min_cut n entrances exits path Hpath Hpos Hin Hout Hnd)
    as (r & Hrun & Hr & _ & Hmin).
  exists r, (solution_fuel entrances exits path). split; [done|].
  pose proof (proj1 (NoDup_app _ _) Hnd) as (_ & Hdis & Hndt).
  pose proof (proj1 (Forall_forall _ _) Hin) as Hin'.
  pose proof (proj1 (Forall_forall _ _) Hout) as Hout'. simpl in Hin', Hout'.
  etrans; [apply (Hmin (λ u, negb (bool_decide (Z.of_nat u ∈ exits))))|].
  - split.
    + intros s Hs. apply negb_true_iff, bool_decide_eq_false_2.
      rewrite Z2Nat.id by (apply Hin' in Hs; lia). by apply Hdis.
    + intros t Ht. apply negb_false_iff, bool_decide_eq_true_2.
      rewrite Z2Nat.id; [done|]. apply Hout' in Ht. lia.
  - by apply exits_cut.
Qed.

Lemma solution_bounded_by_exits_witness :
  square 6 scenario2 ∧ nonneg scenario2
  ∧ in_range 6 [0; 1]%Z ∧ in_range 6 [4; 5]%Z ∧ NoDup ([0; 1] ++ [4; 5])%Z
  ∧ ∃ r fuel0,
      (∀ fuel, fuel0 ≤ fuel → solution fuel [0; 1]%Z [4; 5]%Z scenario2 = Ret r)
      ∧ (r ≤ sum_over [4; 5]%Z
               (λ t, sum_over (seq 0 6) (λ u, entry scenario2 u (Z.to_nat t))))%Z.
Proof.
  split; [concrete_square|]. split; [concrete_nonneg|].
  split; [concrete_range|]. split; [concrete_range|].
  split; [by apply (bool_decide_unpack _)|].
  apply (solution_bounded_by_exits 6 [0; 1]%Z [4; 5]%Z scenario2).
  - concrete_square.
  - concrete_nonneg.
  - concrete_range.
  - concrete_range.
  - by apply (bool_decide_unpack _).
Defined.

(** *** One entrance and one exit, at the ends *)

(** The reduction is transparent when there is nothing to reduce: with room
    0 as only entrance and the last room as only exit, [solution] returns
    what [maximum_bunnies_rescuable] returns on the matrix itself. *)
Theorem solution_single_pair_is_engine n path :
  2 ≤ n → square n path → nonneg path →
  ∃ r fuel0, ∀ fuel, fuel0 ≤ fuel →
    solution fuel [0%Z] [Z.of_nat (n - 1)] path = Ret r
    ∧ maximum_bunnies_rescuable fuel path = Ret r.
Proof.
  intros Hn Hpath Hpos.
  assert (in_range n [0%Z]) as Hin by (repeat constructor; lia).
  assert (in_range n [Z.of_nat (n - 1)]) as Hout by (repeat constructor; lia).
  assert (NoDup ([0%Z] ++ [Z.of_nat (n - 1)])) as Hnd.
  { simpl. apply NoDup_cons. split; [|apply NoDup_singleton].
    intros ?%list_elem_of_singleton. lia. }
  destruct (solution_min_cut n _ _ path Hpath Hpos Hin Hout Hnd)
    as (r & Hrun & _ & (A & [HS HT] & Hcut) & Hmin).
  destruct (maximum_bunnies_rescuable_min_cut n path (engine_fuel n path)
    Hn Hpath Hpos ltac:(done)) as (r' & Hrun' & _ & (A' & HA0 & HAn & Hcut') & Hmin').
  assert (r = r') as <-.
  { apply Z.le_antisymm.
    - rewrite Hcut'. apply Hmin. split.
      + intros s ->%list_elem_of_singleton. done.
      + intros t ->%list_elem_of_singleton. by rewrite Nat2Z.id.
    - rewrite <- Hcut. apply Hmin'.
      + apply (HS 0%Z). by left.
      + specialize (HT (Z.of_nat (n - 1))). rewrite Nat2Z.id in HT.
        apply HT. by left. }
  exists r, (solution_fuel [0%Z] [Z.of_nat (n - 1)] path `max` engine_fuel n path).
  intros fuel Hfuel. split; [apply Hrun; lia|].
  apply (maximum_bunnies_rescuable_more (engine_fuel n path)); [lia|done].
Qed.

Lemma solution_single_pair_is_engine_witness :
  2 ≤ 4 ∧ square 4 scenario1 ∧ nonneg scenario1
  ∧ ∃ r fuel0, ∀ fuel, fuel0 ≤ fuel →
      solution fuel [0%Z] [Z.of_nat (4 - 1)] scenario1 = Ret r
      ∧ maximum_bunnies_rescuable fuel scenario1 = Ret r.
Proof.
  split; [lia|]. split; [concrete_square|]. split; [concrete_nonneg|].
  apply (solution_single_pair_is_engine 4 scenario1);
    [lia|concrete_square|concrete_nonneg].
Defined.

(** *** Corridors that play no part *)

(** Corridors that lead into an entrance or out of an exit play no part.
    Two square matrices that agree on every corridor from a room that is not
    an exit to a room that is not an entrance give the same reduced matrix
    and the same outcome of [solution], the entrances and exits being
    disjoint and within range. *)
Theorem solution_ignores_return_corridors n entrances exits path path' :
  square n path → square n path' →
  in_range n entrances → in_range n exits →
  (∀ i, i ∈ entrances → i ∉ exits) →
  (∀ u v, u < n → v < n → (Z.of_nat u ∉ exits) → (Z.of_nat v ∉ entrances) →
          entry path u v = entry path' u v) →
  compressed_paths entrances exits path = compressed_paths entrances exits path'
  ∧ ∀ fuel, solution fuel entrances exits path
            = solution fuel entrances exits path'.
Proof.
  intros Hpath Hpath' Hin Hout Hdis Hsame.
  pose proof (proj1 (Forall_forall _ _) Hin) as Hin'.
  pose proof (proj1 (Forall_forall _ _) Hout) as Hout'. simpl in Hin', Hout'.
  pose proof Hpath as [Hlen _]. pose proof Hpath' as [Hlen' _].
  assert (∀ v, v < n → (Z.of_nat v ∉ entrances) →
            starting entrances path v = starting entrances path' v) as Hstart.
  { intros v Hv Hnv. apply sum_over_ext. intros s Hs.
    pose proof (Hin' s Hs). apply Hsame; [lia|done| |done].
    rewrite Z2Nat.id by lia. by apply Hdis. }
  assert (∀ u, u < n → (Z.of_nat u ∉ exits) →
            escaping exits path u = escaping exits path' u) as Hesc.
  { intros u Hu Hnu. apply sum_over_ext. intros t Ht.
    pose proof (Hout' t Ht). apply Hsame; [done|lia|done|].
    rewrite Z2Nat.id by lia. intros Hs. by apply (Hdis t). }
  assert (compressed_paths entrances exits path
          = compressed_paths entrances exits path') as Heq.
  { rewrite !(compressed_paths_eq n) by done. f_equal. f_equal.
    - unfold bypass. rewrite Hlen, Hlen'. apply sum_over_ext.
      intros v [Hv Hvn%elem_of_seq]%list_elem_of_filter.
      apply Hstart; [lia|]. intros Hs. by apply (Hdis (Z.of_nat v)).
    - unfold reduced. rewrite Hlen, Hlen'. f_equal; [|f_equal].
      + f_equal. f_equal. apply list_fmap_ext.
        intros i v [Hv Hnv]%list_elem_of_lookup_2%elem_of_kept.
        rewrite elem_of_app in Hnv. apply Hstart; [done|tauto].
      + apply list_fmap_ext.
        intros i u [Hu Hnu]%list_elem_of_lookup_2%elem_of_kept.
        rewrite elem_of_app in Hnu. simpl. f_equal. f_equal.
        * apply list_fmap_ext.
          intros j v [Hv Hnv]%list_elem_of_lookup_2%elem_of_kept.
          rewrite elem_of_app in Hnv. apply Hsame; [done|done|tauto|tauto].
        * f_equal. apply Hesc; [done|tauto]. }
  split; [done|]. intros fuel. unfold solution. by rewrite Heq.
Qed.

Lemma solution_ignores_return_corridors_witness :
  square 4 scenario1 ∧ square 4 corridors1
  ∧ in_range 4 [0]%Z ∧ in_range 4 [3]%Z
  ∧ (∀ i, i ∈ [0]%Z → i ∉ [3]%Z)
  ∧ (∀ u v, u < 4 → v < 4 → (Z.of_nat u ∉ [3]%Z) → (Z.of_nat v ∉ [0]%Z) →
            entry scenario1 u v = entry corridors1 u v)
  ∧ compressed_paths [0]%Z [3]%Z scenario1
    = compressed_paths [0]%Z [3]%Z corridors1
  ∧ ∀ fuel, solution fuel [0]%Z [3]%Z scenario1
            = solution fuel [0]%Z [3]%Z corridors1.
Proof.
  assert (∀ i, i ∈ [0]%Z → i ∉ [3]%Z) as Hdis.
  { intros i ->%list_elem_of_singleton ?%list_elem_of_singleton. done. }
  assert (∀ u v, u < 4 → v < 4 → (Z.of_nat u ∉ [3]%Z) → (Z.of_nat v ∉ [0]%Z) →
            entry scenario1 u v = entry corridors1 u v) as Hsame.
  { intros u v Hu Hv Hnu Hnv.
    do 4 (destruct u as [|u];
          [do 4 (destruct v as [|v];
                 [try (by vm_compute);
                  exfalso; (apply Hnu || apply Hnv); by left|]); lia|]).
    lia. }
  split; [concrete_square|]. split; [concrete_square|].
  split; [concrete_range|]. split; [concrete_range|].
  split; [done|]. split; [done|].
  apply (solution_ignores_return_corridors 4 [0]%Z [3]%Z scenario1 corridors1).
  - concrete_square.
  - concrete_square.
  - concrete_range.
  - concrete_range.
  - done.
  - done.
Defined.

(** *** Corridors from a room to itself *)

Lemma flux_off_diagonal n c c' A :
  (∀ u v, u < n → v < n → u ≠ v → entry c u v = entry c' u v) →
  flux n c A = flux n c' A.
Proof.
  intros Hsame. apply sum_over_ext. intros u Hu%elem_of_seq.
  apply sum_over_ext. intros v Hv%elem_of_seq.
  destruct (A u) eqn:HAu, (A v) eqn:HAv; simpl; try done.
  apply Hsame; [lia..|]. congruence.
Qed.

(** Corridors from a room to itself have no effect on the result of the
    engine: two square matrices of non-negative capacities that differ on the
    diagonal only give the same number. *)
Theorem engine_ignores_self_loops n c c' :
  2 ≤ n → square n c → square n c' → nonneg c → nonneg c' →
  (∀ u v, u < n → v < n → u ≠ v → entry c u v = entry c' u v) →
  ∃ r fuel0, ∀ fuel, fuel0 ≤ fuel →
    maximum_bunnies_rescuable fuel c = Ret r
    ∧ maximum_bunnies_rescuable fuel c' = Ret r.
Proof.
  intros Hn Hc Hc' Hpos Hpos' Hsame.
  destruct (maximum_bunnies_rescuable_min_cut n c (engine_fuel n c)
    Hn Hc Hpos ltac:(done)) as (r & Hrun & _ & (A & HA0 & HAn & Hcut) & Hmin).
  destruct (maximum_bunnies_rescuable_min_cut n c' (engine_fuel n c')
    Hn Hc' Hpos' ltac:(done)) as (r' & Hrun' & _ & (A' & HA0' & HAn' & Hcut') & Hmin').
  assert (r = r') as <-.
  { unfold cut_capacity in *. apply Z.le_antisymm.
    - rewrite Hcut', <- (flux_off_diagonal n c c' A' Hsame). by apply Hmin.
    - rewrite Hcut, (flux_off_diagonal n c c' A Hsame). by apply Hmin'. }
  exists r, (engine_fuel n c `max` engine_fuel n c'). intros fuel Hfuel. split.
  - apply (maximum_bunnies_rescuable_more (engine_fuel n c)); [lia|done].
  - apply (maximum_bunnies_rescuable_more (engine_fuel n c')); [lia|done].
Qed.

Definition corridors1_loops : matrix :=
  [[4;7;0;0]; [0;1;6;0]; [0;0;0;8]; [0;0;0;3]]%Z.

Lemma engine_ignores_self_loops_witness :
  2 ≤ 4 ∧ square 4 corridors1 ∧ square 4 corridors1_loops
  ∧ nonneg corridors1 ∧ nonneg corridors1_loops
  ∧ (∀ u v, u < 4 → v < 4 → u ≠ v →
            entry corridors1 u v = entry corridors1_loops u v)
  ∧ ∃ r fuel0, ∀ fuel, fuel0 ≤ fuel →
      maximum_bunnies_rescuable fuel corridors1 = Ret r
      ∧ maximum_bunnies_rescuable fuel corridors1_loops = Ret r.
Proof.
  assert (∀ u v, u < 4 → v < 4 → u ≠ v →
            entry corridors1 u v = entry corridors1_loops u v) as Hsame.
  { intros u v Hu Hv Hne.
    do 4 (destruct u as [|u];
          [do 4 (destruct v as [|v]; [try (by vm_compute); done|]); lia|]).
    lia. }
  split; [lia|]. split; [concrete_square|]. split; [concrete_square|].
  split; [concrete_nonneg|]. split; [concrete_nonneg|]. split; [done|].
  apply (engine_ignores_self_loops 4 corridors1 corridors1_loops).
  - lia.
  - concrete_square.
  - concrete_square.
  - concrete_nonneg.
  - concrete_nonneg.
  - done.
Defined.
